(** * mdict-ts: a shallow embedding of the MDict reader and its lookup engine

    The development follows the sources [src/mdict/util.js],
    [src/mdict/mdict-parser.ts], [src/mdict/mdict.ts] and the scanner class
    (the unnamed part that defines [Scan]).

    Conventions of the embedding.
    - A JavaScript string is a [string]: a sequence of code units below 256
      (the Latin-1 range), which is where [toLowerCase] and [trim] are
      modelled exactly.
    - A JavaScript number that holds an integer is a [Z].
    - A call that can throw returns a [Res]; [Throw] carries the exception.
      [Unmodelled] marks the inputs on which the embedding declines to
      predict the program (numeric literals with fractions or exponents,
      integers that a double does not hold exactly, regular expressions
      outside the glob fragment, an exhausted loop budget).  Every theorem
      on an outcome concludes with [Ok] or [Throw], or hands on the outcome
      of an external codec.
    - Promises are run to completion one call at a time, in call order.
    - The decompression primitives (LZO, zlib) and the XML parser are
      external: a key block or a record block appears in the model by its
      decoded content, a header by the attributes of its root element.
    - The text decoder is followed for UTF-8 and for UTF-16LE, and a scanner
      for the two configurations in which the decoder fits the unit width:
      Encoding 'UTF-16' (units of two bytes) and a label of UTF-8 (units of
      one byte).  A label that no encoding has is the RangeError of
      [new TextDecoder]; for the other labels the embedding declines.
    - What a plain call of an imported function sees as [this] depends on
      the build; it is a parameter of [read_header_sect]. *)

From Stdlib Require Import Bool Arith ZArith List Lia.
From Stdlib Require Import Ascii String.
From Stdlib.Strings Require Import Byte.
From Stdlib Require Import Sorted RelationClasses.
From Stdlib Require Import OrdersEx.
Import ListNotations.

Local Open Scope string_scope.
Local Open Scope Z_scope.

(** ** Outcomes of a call *)

Inductive Exn : Type :=
| TypeError
| RangeError
| ForceTerminated       (* throw 'force terminated' *)
| ResourceNotFound      (* throw '*RESOURCE NOT FOUND* ' + query *)
| OutOfFileRange.       (* throw '* OUT OF FILE RANGE * ' ... *)

Inductive Res (A : Type) : Type :=
| Ok (a : A)
| Throw (e : Exn)
| Unmodelled.

Arguments Ok {A} a.
Arguments Throw {A} e.
Arguments Unmodelled {A}.

Definition bind {A B : Type} (c : Res A) (k : A -> Res B) : Res B :=
  match c with
  | Ok a => k a
  | Throw e => Throw e
  | Unmodelled => Unmodelled
  end.

Declare Scope res_scope.
Delimit Scope res_scope with res.
Notation "x <- c ;; k" := (bind c (fun x => k))
  (at level 61, c at next level, right associativity) : res_scope.
Notation "' p <- c ;; k" := (bind c (fun x => let p := x in k))
  (at level 61, p pattern, c at next level, right associativity) : res_scope.
Local Open Scope res_scope.

Definition isThrow {A : Type} (r : Res A) : bool :=
  match r with Throw _ => true | _ => false end.

(** ** JavaScript strings *)

Module Js.

Definition code (c : ascii) : nat := nat_of_ascii c.

(** [String.prototype.toLowerCase] on one Latin-1 code unit: A-Z and the
    accented capitals U+00C0..U+00DE (U+00D7, the multiplication sign,
    excepted) move up by 32. *)
Definition lowerChar (c : ascii) : ascii :=
  let n := code c in
  if ((65 <=? n) && (n <=? 90)
      || (192 <=? n) && (n <=? 222) && negb (n =? 215))%nat
  then ascii_of_nat (n + 32) else c.

Fixpoint toLowerCase (s : string) : string :=
  match s with
  | EmptyString => EmptyString
  | String c r => String (lowerChar c) (toLowerCase r)
  end.

(** White space and line terminators below 256: TAB, LF, VT, FF, CR,
    SPACE, NBSP. *)
Definition isSpace (c : ascii) : bool :=
  let n := code c in
  ((9 <=? n) && (n <=? 13) || (n =? 32) || (n =? 160))%nat.

Fixpoint trimStart (s : string) : string :=
  match s with
  | EmptyString => EmptyString
  | String c r => if isSpace c then trimStart r else s
  end.

Fixpoint trimEnd (s : string) : string :=
  match s with
  | EmptyString => EmptyString
  | String c r =>
      match trimEnd r with
      | EmptyString => if isSpace c then EmptyString else String c EmptyString
      | r' => String c r'
      end
  end.

Definition trim (s : string) : string := trimEnd (trimStart s).

(** [s.substring(n)] and [s.substr(0, n)] for [n >= 0]. *)
Fixpoint substringFrom (n : nat) (s : string) : string :=
  match n, s with
  | O, _ => s
  | S n', String _ r => substringFrom n' r
  | S _, EmptyString => EmptyString
  end.

Fixpoint substrTo (n : nat) (s : string) : string :=
  match n, s with
  | S n', String c r => String c (substrTo n' r)
  | _, _ => EmptyString
  end.

(** [s.split(sep)] for a one-character separator. *)
Fixpoint split (sep : ascii) (s : string) : list string :=
  match s with
  | EmptyString => [EmptyString]
  | String c r =>
      if Ascii.eqb c sep then EmptyString :: split sep r
      else match split sep r with
           | seg :: segs => String c seg :: segs
           | [] => [String c EmptyString]
           end
  end.

Fixpoint contains (ch : ascii) (s : string) : bool :=
  match s with
  | EmptyString => false
  | String c r => Ascii.eqb c ch || contains ch r
  end.

Fixpoint last (s : string) : option ascii :=
  match s with
  | EmptyString => None
  | String c EmptyString => Some c
  | String _ r => last r
  end.

(** The relational operators on strings compare code units
    lexicographically. *)
Definition lt (a b : string) : bool :=
  match String_as_OT.compare a b with Lt => true | _ => false end.
Definition le (a b : string) : bool :=
  match String_as_OT.compare a b with Gt => false | _ => true end.
Definition gt (a b : string) : bool := lt b a.

(** String concatenation with an operand that may be [undefined]. *)
Definition show (o : option string) : string :=
  match o with Some s => s | None => "undefined" end.

Definition isDigit (c : ascii) : bool :=
  let n := code c in ((48 <=? n) && (n <=? 57))%nat.

Fixpoint digits (acc : Z) (s : string) : Z * string :=
  match s with
  | String c r =>
      if isDigit c then digits (10 * acc + Z.of_nat (code c - 48)) r
      else (acc, s)
  | EmptyString => (acc, s)
  end.

(** [parseInt(s, 10)]: leading white space, an optional sign, then the
    longest run of decimal digits; [None] is NaN. *)
Definition parseInt10 (s : string) : option Z :=
  let s1 := trimStart s in
  let '(neg, s2) :=
    match s1 with
    | String "-" r => (true, r)
    | String "+" r => (false, r)
    | _ => (false, s1)
    end in
  match s2 with
  | String c _ =>
      if isDigit c
      then let '(v, _) := digits 0 s2 in Some (if neg then - v else v)
      else None
  | EmptyString => None
  end.

(** [parseInt] returns a double: up to 2^53 in magnitude it is the integer
    read, beyond that the nearest double, where the embedding declines. *)
Definition exact (v : Z) : Res Z :=
  if Z.abs v <=? 2 ^ 53 then Ok v else Unmodelled.

(** [Number(s)] on the decimal integer fragment.  A string that could
    still be a numeric literal of another shape (a fraction, an exponent,
    a radix prefix, [Infinity]) is left to [NumOther]; every numeric
    literal starts with a digit, a sign, a dot or the letter I, so any
    other non-blank string is NaN. *)
Inductive num : Type := NaN | Int (z : Z) | NumOther.

Definition Number (s : string) : num :=
  let t := trim s in
  match t with
  | EmptyString => Int 0
  | String c r =>
      let '(neg, body) :=
        match c with
        | "-"%char => (true, r)
        | "+"%char => (false, r)
        | _ => (false, t)
        end in
      match body with
      | String d _ =>
          if isDigit d then
            match digits 0 body with
            | (v, EmptyString) => Int (if neg then - v else v)
            | _ => NumOther
            end
          else if (Ascii.eqb c "-" || Ascii.eqb c "+" || Ascii.eqb c "."
                   || Ascii.eqb c "I")%bool then NumOther
          else NaN
      | EmptyString => NumOther
      end
  end.

End Js.

(** Array indexing with a number: [a[i]] is [undefined] outside the array. *)
Definition at_ {A : Type} (l : list A) (i : Z) : option A :=
  if i <? 0 then None else nth_error l (Z.to_nat i).

(** [a.slice(start)] and [a.slice(0, n)]. *)
Definition sliceFrom {A : Type} (l : list A) (start : Z) : list A :=
  let len := Z.of_nat (List.length l) in
  let k := if start <? 0 then Z.max (len + start) 0 else Z.min start len in
  skipn (Z.to_nat k) l.

Definition sliceTo {A : Type} (l : list A) (n : Z) : list A :=
  let len := Z.of_nat (List.length l) in
  let k := if n <? 0 then Z.max (len + n) 0 else Z.min n len in
  firstn (Z.to_nat k) l.

(** ** util.js: header helpers *)

Inductive Ext : Type := Mdx | Mdd.

(** [isTrue(v)]: [((v || false) + '').toLowerCase()] is 'yes' or 'true'. *)
Definition isTrue (v : string) : bool :=
  let v' := Js.toLowerCase (if String.eqb v "" then "false" else v) in
  (String.eqb v' "yes" || String.eqb v' "true")%bool.

(** The character class [[()., '/\\@_-]] shared by both REGEXP_STRIPKEY
    entries. *)
Definition stripClass (c : ascii) : bool :=
  (Ascii.eqb c "(" || Ascii.eqb c ")" || Ascii.eqb c "." || Ascii.eqb c ","
   || Ascii.eqb c " " || Ascii.eqb c "'" || Ascii.eqb c "/"
   || Ascii.eqb c "\" || Ascii.eqb c "@" || Ascii.eqb c "_"
   || Ascii.eqb c "-")%bool.

(** [key.replace(REGEXP_STRIPKEY.mdx, '$1')]: the capture group is empty,
    so every character of the class is deleted. *)
Fixpoint stripMdx (s : string) : string :=
  match s with
  | EmptyString => EmptyString
  | String c r => if stripClass c then stripMdx r else String c (stripMdx r)
  end.

(** [key.replace(REGEXP_STRIPKEY.mdd, '$1')]: the first alternative matches a
    dot followed by dot-free text up to the end of the key and is replaced
    by itself; elsewhere the characters of the class are deleted. *)
Fixpoint stripMdd (s : string) : string :=
  match s with
  | EmptyString => EmptyString
  | String c r =>
      if (Ascii.eqb c "." && negb (Js.contains "." r))%bool then s
      else if stripClass c then stripMdd r else String c (stripMdd r)
  end.

Definition REGEXP_STRIPKEY (ext : Ext) : string -> string :=
  match ext with Mdx => stripMdx | Mdd => stripMdd end.

(** The attributes of the header that the reader consults.  [Encrypted] is
    the number left by [parseInt(String(attrs.Encrypted), 10) || 0], an
    integer that a double holds exactly; [Encoding] is absent from the
    defaults, hence optional. *)
Record HeaderSection : Type := {
  GeneratedByEngineVersion : string;
  Encrypted : Z;
  KeyCaseSensitive : string;
  StyleSheetAttr : string;
  StripKey : string;
  Encoding : option string
}.

(** The object a function body sees as [this].  [getAdaptKey] reads
    [this.v2] inside its arrow functions, which capture the [this] of the
    enclosing call; [recv_v2] is the truth value of that property. *)
Record Receiver : Type := { recv_v2 : bool }.

(** The exports object of the module util, which has no property [v2]. *)
Definition utilExports : Receiver := {| recv_v2 := false |}.

(** [attrs.StripKey || (this.v2 ? '' : 'yes')]: the right operand is only
    evaluated for an empty [StripKey]; reading [v2] from an [undefined]
    receiver throws. *)
Definition stripKeyOrDefault (this : option Receiver) (attrs : HeaderSection)
  : Res string :=
  if negb (String.eqb (StripKey attrs) "") then Ok (StripKey attrs)
  else match this with
       | None => Throw TypeError
       | Some o => Ok (if recv_v2 o then "" else "yes")
       end.

Definition getAdaptKey (this : option Receiver) (attrs : HeaderSection)
  (ext : Ext) : string -> Res string :=
  let regexp := REGEXP_STRIPKEY ext in
  if isTrue (KeyCaseSensitive attrs) then
    fun key => Ok (if isTrue (StripKey attrs) then regexp key else key)
  else
    fun key =>
      v <- stripKeyOrDefault this attrs ;;
      Ok (if isTrue v then regexp (Js.toLowerCase key)
          else Js.toLowerCase key).

(** [getGlobalStyle(stylesheet)]: the table is a sparse array, a hole being
    [None]; an entry is the array [[prefix, part, part, ...]]. *)
Definition StyleTable : Type := list (option (list string)).

Fixpoint setEntry (res : StyleTable) (i : nat) (v : list string) : StyleTable :=
  match i, res with
  | O, [] => [Some v]
  | O, _ :: r => Some v :: r
  | S i', [] => None :: setEntry [] i' v
  | S i', x :: r => x :: setEntry r i' v
  end.

Definition styleStep (st : Res (StyleTable * Z)) (e : string)
  : Res (StyleTable * Z) :=
  '(res, i) <- st ;;
  if String.eqb e "" then Ok (res, i)
  else match Js.Number e with
       | Js.NumOther => Unmodelled
       | Js.Int _ => Ok (res, i + 1)
       | Js.NaN =>
           let entry :=
             match at_ res i with
             | Some (Some a) => a
             | _ => [""]
             end in
           let entry' :=
             if negb (Js.contains "/" e) then
               match entry with
               | p :: parts => (p ++ " " ++ e) :: parts
               | [] => [Js.show None ++ " " ++ e]
               end
             else (entry ++ [e])%list in
           Ok (setEntry res (Z.to_nat i) entry', i)
       end.

Definition getGlobalStyle (stylesheet : string) : Res StyleTable :=
  '(res, _) <- fold_left styleStep (Js.split " " stylesheet) (Ok ([], 0)) ;;
  Ok res.

(** The loop of [parseRes] over the segments [str.split('`')]: a non-empty
    segment that is a non-zero number [num] consumes the next segment and
    appends [style[num][0] + next + style[num][1]]; nothing else is
    appended. *)
Fixpoint parseSegs (segs : list string) (style : StyleTable) : Res string :=
  match segs with
  | [] => Ok ""
  | s :: rest =>
      if String.eqb s "" then parseSegs rest style
      else match Js.Number s with
           | Js.NumOther => Unmodelled
           | Js.NaN => parseSegs rest style
           | Js.Int n =>
               if n =? 0 then parseSegs rest style
               else match at_ style n with
                    | Some (Some entry) =>
                        let piece nxt :=
                          Js.show (nth_error entry 0) ++ Js.show nxt
                          ++ Js.show (nth_error entry 1) in
                        match rest with
                        | nxt :: rest' =>
                            r <- parseSegs rest' style ;;
                            Ok (piece (Some nxt) ++ r)
                        | [] => Ok (piece None)
                        end
                    | _ => Throw TypeError
                    end
           end
  end.

Definition parseRes (str : string) (style : StyleTable) : Res string :=
  parseSegs (Js.split "`" str) style.

(** ** The text decoder

    [new TextDecoder(label)] strips the ASCII white space around the label,
    compares it without regard to ASCII case with the labels of the
    Encoding Standard and throws a RangeError when it is none of them.  The
    embedding follows the decoders of UTF-8 and of UTF-16LE under the labels
    every runtime has for them; for the other labels of the standard, whose
    support varies with the runtime, it declines. *)

Module TextDecoder.

Inductive t : Type := Utf8 | Utf16le.

Definition isAsciiSpace (c : ascii) : bool :=
  let n := Js.code c in
  ((n =? 9) || (n =? 10) || (n =? 12) || (n =? 13) || (n =? 32))%nat.

Fixpoint stripStart (s : string) : string :=
  match s with
  | EmptyString => EmptyString
  | String c r => if isAsciiSpace c then stripStart r else s
  end.

Fixpoint stripEnd (s : string) : string :=
  match s with
  | EmptyString => EmptyString
  | String c r =>
      match stripEnd r with
      | EmptyString =>
          if isAsciiSpace c then EmptyString else String c EmptyString
      | r' => String c r'
      end
  end.

Definition asciiLowerChar (c : ascii) : ascii :=
  let n := Js.code c in
  if ((65 <=? n) && (n <=? 90))%nat then ascii_of_nat (n + 32) else c.

Fixpoint asciiLower (s : string) : string :=
  match s with
  | EmptyString => EmptyString
  | String c r => String (asciiLowerChar c) (asciiLower r)
  end.

Definition among (s : string) (l : list string) : bool :=
  existsb (String.eqb s) l.

Definition utf8Labels : list string := ["unicode-1-1-utf-8"; "utf-8"; "utf8"].

Definition utf16leLabels : list string := ["utf-16"; "utf-16le"].

(** The labels of the other encodings, and the later aliases of the two
    above. *)
Definition otherLabels : list string :=
  ["866"; "cp866"; "csibm866"; "ibm866"; "csisolatin2"; "iso-8859-2";
   "iso-ir-101"; "iso8859-2"; "iso88592"; "iso_8859-2"; "iso_8859-2:1987";
   "l2"; "latin2"; "csisolatin3"; "iso-8859-3"; "iso-ir-109"; "iso8859-3";
   "iso88593"; "iso_8859-3"; "iso_8859-3:1988"; "l3"; "latin3";
   "csisolatin4"; "iso-8859-4"; "iso-ir-110"; "iso8859-4"; "iso88594";
   "iso_8859-4"; "iso_8859-4:1988"; "l4"; "latin4"; "csisolatincyrillic";
   "cyrillic"; "iso-8859-5"; "iso-ir-144"; "iso8859-5"; "iso88595";
   "iso_8859-5"; "iso_8859-5:1988"; "arabic"; "asmo-708"; "csiso88596e";
   "csiso88596i"; "csisolatinarabic"; "ecma-114"; "iso-8859-6";
   "iso-8859-6-e"; "iso-8859-6-i"; "iso-ir-127"; "iso8859-6"; "iso88596";
   "iso_8859-6"; "iso_8859-6:1987"; "csisolatingreek"; "ecma-118";
   "elot_928"; "greek"; "greek8"; "iso-8859-7"; "iso-ir-126"; "iso8859-7";
   "iso88597"; "iso_8859-7"; "iso_8859-7:1987"; "sun_eu_greek";
   "csiso88598e"; "csisolatinhebrew"; "hebrew"; "iso-8859-8"; "iso-8859-8-e";
   "iso-ir-138"; "iso8859-8"; "iso88598"; "iso_8859-8"; "iso_8859-8:1988";
   "visual"; "csiso88598i"; "iso-8859-8-i"; "logical"; "csisolatin6";
   "iso-8859-10"; "iso-ir-157"; "iso8859-10"; "iso885910"; "l6"; "latin6";
   "iso-8859-13"; "iso8859-13"; "iso885913"; "iso-8859-14"; "iso8859-14";
   "iso885914"; "csisolatin9"; "iso-8859-15"; "iso8859-15"; "iso885915";
   "iso_8859-15"; "l9"; "iso-8859-16"; "cskoi8r"; "koi"; "koi8"; "koi8-r";
   "koi8_r"; "koi8-ru"; "koi8-u"; "csmacintosh"; "mac"; "macintosh";
   "x-mac-roman"; "dos-874"; "iso-8859-11"; "iso8859-11"; "iso885911";
   "tis-620"; "windows-874"; "cp1250"; "windows-1250"; "x-cp1250"; "cp1251";
   "windows-1251"; "x-cp1251"; "ansi_x3.4-1968"; "ascii"; "cp1252"; "cp819";
   "csisolatin1"; "ibm819"; "iso-8859-1"; "iso-ir-100"; "iso8859-1";
   "iso88591"; "iso_8859-1"; "iso_8859-1:1987"; "l1"; "latin1"; "us-ascii";
   "windows-1252"; "x-cp1252"; "cp1253"; "windows-1253"; "x-cp1253";
   "cp1254"; "csisolatin5"; "iso-8859-9"; "iso-ir-148"; "iso8859-9";
   "iso88599"; "iso_8859-9"; "iso_8859-9:1989"; "l5"; "latin5";
   "windows-1254"; "x-cp1254"; "cp1255"; "windows-1255"; "x-cp1255";
   "cp1256"; "windows-1256"; "x-cp1256"; "cp1257"; "windows-1257";
   "x-cp1257"; "cp1258"; "windows-1258"; "x-cp1258"; "x-mac-cyrillic";
   "x-mac-ukrainian"; "chinese"; "csgb2312"; "csiso58gb231280"; "gb2312";
   "gb_2312"; "gb_2312-80"; "gbk"; "iso-ir-58"; "x-gbk"; "gb18030"; "big5";
   "big5-hkscs"; "cn-big5"; "csbig5"; "x-x-big5"; "cseucpkdfmtjapanese";
   "euc-jp"; "x-euc-jp"; "csiso2022jp"; "iso-2022-jp"; "csshiftjis"; "ms932";
   "ms_kanji"; "shift-jis"; "shift_jis"; "sjis"; "windows-31j"; "x-sjis";
   "cseuckr"; "csksc56011987"; "euc-kr"; "iso-ir-149"; "korean";
   "ks_c_5601-1987"; "ks_c_5601-1989"; "ksc5601"; "ksc_5601"; "windows-949";
   "csiso2022kr"; "hz-gb-2312"; "iso-2022-cn"; "iso-2022-cn-ext";
   "iso-2022-kr"; "replacement"; "unicodefffe"; "utf-16be"; "csunicode";
   "iso-10646-ucs-2"; "ucs-2"; "unicode"; "unicodefeff"; "unicode11utf8";
   "unicode20utf8"; "x-unicode20utf8"; "x-user-defined"].

Definition create (label : string) : Res t :=
  let l := asciiLower (stripEnd (stripStart label)) in
  if among l utf8Labels then Ok Utf8
  else if among l utf16leLabels then Ok Utf16le
  else if among l otherLabels then Unmodelled
  else Throw RangeError.

(** [decode] on the part of its domain that lands below 256: ASCII bytes
    for UTF-8, and little-endian units with a zero high byte for
    UTF-16LE. *)
Fixpoint decode1 (bs : list byte) : Res string :=
  match bs with
  | [] => Ok ""
  | b :: r =>
      if (Byte.to_N b <? 128)%N
      then s <- decode1 r ;; Ok (String (ascii_of_byte b) s)
      else Unmodelled
  end.

Fixpoint decode2 (bs : list byte) : Res string :=
  match bs with
  | [] => Ok ""
  | lo :: hi :: r =>
      if (Byte.to_N hi =? 0)%N
      then s <- decode2 r ;; Ok (String (ascii_of_byte lo) s)
      else Unmodelled
  | [_] => Unmodelled
  end.

Definition decode (d : t) (bs : list byte) : Res string :=
  match d with Utf8 => decode1 bs | Utf16le => decode2 bs end.

End TextDecoder.

(** ** The scanner *)

Module Scan.

(** What [attrs.Encoding] made of the scanner, for the two configurations
    the embedding follows.  [Utf16]: the string 'UTF-16' itself, which is
    the only value that gives units of two bytes, and its decoder is
    UTF-16LE.  [Utf8]: a label of UTF-8, units of one byte.  A label of
    UTF-16LE other than 'UTF-16' gives a scanner that looks for a zero byte
    and decodes the bytes before it two by two; the constructor of the
    embedding declines it. *)
Inductive Charset : Type := Utf16 | Utf8.

Record t : Type := {
  v2 : bool;
  enc : Charset;
  tail : Z;
  buf : list byte;
  offset : Z
}.

(** [this.bpu] and [this.decoder]. *)
Definition bpu (s : t) : Z :=
  match enc s with Utf16 => 2 | Utf8 => 1 end.

Definition decoder (s : t) : TextDecoder.t :=
  match enc s with Utf16 => TextDecoder.Utf16le | Utf8 => TextDecoder.Utf8 end.

(** The constructor: [Encoding] defaults to 'UTF-16', the decoder is
    created from it, and the engine version selects the profile.  (The
    comparison of the version with 2 is the same on the double that
    [parseInt] returns as on the integer it stands for.) *)
Definition new (attrs : HeaderSection) : Res t :=
  let label :=
    match Encoding attrs with
    | Some e => if String.eqb e "" then "UTF-16" else e
    | None => "UTF-16"
    end in
  d <- TextDecoder.create label ;;
  cs <- (if String.eqb label "UTF-16" then Ok Utf16
         else match d with
              | TextDecoder.Utf8 => Ok Utf8
              | TextDecoder.Utf16le => Unmodelled
              end) ;;
  let v2 :=
    match Js.parseInt10 (GeneratedByEngineVersion attrs) with
    | Some v => 2 <=? v
    | None => false
    end in
  Ok {| v2 := v2; enc := cs;
        tail := if v2 then (match cs with Utf16 => 2 | Utf8 => 1 end) else 0;
        buf := []; offset := 0 |}.

Definition init (b : list byte) (s : t) : t :=
  {| v2 := v2 s; enc := enc s; tail := tail s; buf := b; offset := 0 |}.

Definition forward (len : Z) (s : t) : t :=
  {| v2 := v2 s; enc := enc s; tail := tail s; buf := buf s;
     offset := offset s + len |}.

Definition byteAt (b : list byte) (i : Z) : option Z :=
  option_map (fun x => Z.of_N (Byte.to_N x)) (at_ b i).

(** [DataView.prototype.getUintN] reads big-endian and throws a
    RangeError outside the buffer. *)
Definition getUint8 (b : list byte) (i : Z) : Res Z :=
  match byteAt b i with
  | Some x => Ok x
  | None => Throw RangeError
  end.

Definition getUint16 (b : list byte) (i : Z) : Res Z :=
  match byteAt b i, byteAt b (i + 1) with
  | Some x0, Some x1 => Ok (Z.lor (Z.shiftl x0 8) x1)
  | _, _ => Throw RangeError
  end.

Definition getUint32 (b : list byte) (i : Z) : Res Z :=
  match byteAt b i, byteAt b (i + 1), byteAt b (i + 2), byteAt b (i + 3) with
  | Some x0, Some x1, Some x2, Some x3 =>
      Ok (Z.lor (Z.shiftl x0 24)
            (Z.lor (Z.shiftl x1 16) (Z.lor (Z.shiftl x2 8) x3)))
  | _, _, _, _ => Throw RangeError
  end.

Definition readInt (s : t) : Res (Z * t) :=
  v <- getUint32 (buf s) (offset s) ;; Ok (v, forward 4 s).

Definition readUint16 (s : t) : Res (Z * t) :=
  v <- getUint16 (buf s) (offset s) ;; Ok (v, forward 2 s).

Definition readUint8 (s : t) : Res (Z * t) :=
  v <- getUint8 (buf s) (offset s) ;; Ok (v, forward 1 s).

(** [readNum]: for version >= 2 the constructor installs
    [() => { this.forward(4); return this.readInt(); }]. *)
Definition readNum (s : t) : Res (Z * t) :=
  if v2 s then readInt (forward 4 s) else readInt s.

Definition readShort (s : t) : Res (Z * t) :=
  if v2 s then readUint16 s else readUint8 s.

(** The four bytes that [readNum] steps over in a version 2 file. *)
Definition highWord (s : t) : list byte :=
  firstn 4 (sliceFrom (buf s) (offset s)).

End Scan.

(** ** The record block table *)

Record Block : Type := {
  block_no : Z;
  comp_offset : Z;
  comp_size : Z;
  decomp_offset : Z;
  decomp_size : Z
}.

Module RecordBlockTable.

(** [arr] is [undefined] until [alloc]; its elements are 32-bit unsigned. *)
Record t : Type := { pos : Z; arr : option (list Z) }.

Definition create : t := {| pos := 0; arr := None |}.

Definition alloc (len : Z) (tb : t) : Res t :=
  if len <? 0 then Throw RangeError
  else Ok {| pos := pos tb; arr := Some (repeat 0 (Z.to_nat (len * 2))) |}.

Fixpoint store (l : list Z) (i : nat) (v : Z) : list Z :=
  match l, i with
  | [], _ => []
  | _ :: r, O => v :: r
  | x :: r, S i' => x :: store r i' v
  end.

(** A write past the end of a typed array is ignored; a stored value is
    reduced modulo 2^32. *)
Definition setU32 (l : list Z) (i : Z) (v : Z) : list Z :=
  if i <? 0 then l else store l (Z.to_nat i) (v mod 2 ^ 32).

Definition put (offset_comp offset_decomp : Z) (tb : t) : Res t :=
  match arr tb with
  | None => Throw TypeError
  | Some a =>
      let a1 := setU32 a (pos tb) offset_comp in
      let a2 := setU32 a1 (pos tb + 1) offset_decomp in
      Ok {| pos := pos tb + 2; arr := Some a2 |}
  end.

(** Comparison with a possibly [undefined] element is false. *)
Definition gtU (a : Z) (b : option Z) : bool :=
  match b with Some b' => b' <? a | None => false end.
Definition ltU (a : Z) (b : option Z) : bool :=
  match b with Some b' => a <? b' | None => false end.

Definition descriptor (a : list Z) (i : Z) : Res (option Block) :=
  let j := Z.shiftl i 1 in
  match at_ a j, at_ a (j + 2), at_ a (j + 1), at_ a (j + 3) with
  | Some c0, Some c1, Some d0, Some d1 =>
      Ok (Some {| block_no := i; comp_offset := c0; comp_size := c1 - c0;
                  decomp_offset := d0; decomp_size := d1 - d0 |})
  | _, _, _, _ => Unmodelled
  end.

(** The [while (true)] loop of [find]; the interval [hi - lo] shrinks at
    every turn, the budget is only there to make the recursion
    structural. *)
Fixpoint findLoop (fuel : nat) (a : list Z) (keyAt lo hi i : Z)
  (val : option Z) : Res (option Block) :=
  if hi - lo <=? 1 then
    if i <? hi then descriptor a i else Ok None
  else
    match fuel with
    | O => Unmodelled
    | S fuel' =>
        let lo' := if ltU keyAt val then lo else i in
        let hi' := if ltU keyAt val then i else hi in
        let i' := Z.shiftr (lo' + hi') 1 in
        findLoop fuel' a keyAt lo' hi' i' (at_ a (Z.shiftl i' 1 + 1))
    end.

Definition find (keyAt : Z) (tb : t) : Res (option Block) :=
  match arr tb with
  | None => Throw TypeError
  | Some a =>
      let hi := Z.shiftr (Z.of_nat (List.length a)) 1 - 1 in
      let lo := 0 in
      let i := Z.shiftr (lo + hi) 1 in
      let val := at_ a (Z.shiftl i 1 + 1) in
      if (gtU keyAt (at_ a (Z.shiftl hi 1 + 1)) || (keyAt <? 0))%bool
      then Ok None
      else findLoop (List.length a) a keyAt lo hi i val
  end.

(** The pairs held by a table [a]: [compAt a i] and [decompAt a i]. *)
Definition compAt (a : list Z) (i : Z) : Z := nth (Z.to_nat (2 * i)) a 0.
Definition decompAt (a : list Z) (i : Z) : Z :=
  nth (Z.to_nat (2 * i + 1)) a 0.

End RecordBlockTable.

(** ** mdict-parser.ts *)

(** [attrs[item.nodeName] = item.nodeValue] over the attributes of the root
    element: a later assignment wins. *)
Fixpoint attr (name : string) (xml : list (string * string)) : option string :=
  match xml with
  | [] => None
  | (n, v) :: r =>
      match attr name r with
      | Some v' => Some v'
      | None => if String.eqb n name then Some v else None
      end
  end.

Definition attrOr (name : string) (xml : list (string * string)) (d : string)
  : string :=
  match attr name xml with Some v => v | None => d end.

(** [receiver] is the [this] that the arrow function installed as
    [this.adaptKey] has captured. *)
Record ParserState : Type := {
  headerSection : HeaderSection;
  scan : Scan.t;
  keywordIndexDecryptor : bool;   (* [decrypt] installed, or left undefined *)
  receiver : option Receiver;
  StyleSheet : StyleTable;
  ext : Ext
}.

(** The function installed as [this.adaptKey].  [getAdaptKey(attrs,
    this.ext)] is a plain call of a function imported from util, and the
    build decides what that function sees as [this]: a CommonJS emit of the
    form [util_1.getAdaptKey(...)] passes the exports object of util
    ([Some utilExports]); ES-module semantics, and an emit of the form
    [(0, util_1.getAdaptKey)(...)], pass [undefined] ([None]). *)
Definition adaptKeyOf (this : option Receiver) (attrs : HeaderSection)
  (e : Ext) : string -> Res string :=
  getAdaptKey this attrs e.

(** [read_header_sect], from the attributes of the root element found by
    [getElementsByTagName] ([None] when there is no 'Dictionary' and no
    'Library_Data' element); [this] is what the build passes to the plain
    calls of imported functions.  The scanner is constructed before the
    style sheet is parsed. *)
Definition read_header_sect (this : option Receiver) (e : Ext)
  (xml : option (list (string * string))) (len : Z)
  : Res (Z * ParserState) :=
  match xml with
  | None => Throw TypeError
  | Some x =>
      enc <- match Js.parseInt10 (attrOr "Encrypted" x "0") with
             | Some v => Js.exact v
             | None => Ok 0
             end ;;
      let attrs :=
        {| GeneratedByEngineVersion := attrOr "GeneratedByEngineVersion" x "";
           Encrypted := enc;
           KeyCaseSensitive := attrOr "KeyCaseSensitive" x "";
           StyleSheetAttr := attrOr "StyleSheet" x "";
           StripKey := attrOr "StripKey" x "";
           Encoding := attr "Encoding" x |} in
      sc <- Scan.new attrs ;;
      style <- getGlobalStyle (StyleSheetAttr attrs) ;;
      Ok (len + 4,
          {| headerSection := attrs;
             scan := sc;
             keywordIndexDecryptor := negb (Z.land enc 2 =? 0);
             receiver := this;
             StyleSheet := style;
             ext := e |})
  end.

(** [read_record_block]: [num_blocks] pairs (comp_size, decomp_size) are
    read with [readNum] and accumulated into the table, then the closing
    pair is stored. *)
Fixpoint recordLoop (n : nat) (sc : Scan.t) (p0 p1 : Z)
  (tb : RecordBlockTable.t) : Res (Z * Z * RecordBlockTable.t) :=
  match n with
  | O => Ok (p0, p1, tb)
  | S n' =>
      '(csz, sc1) <- Scan.readNum sc ;;
      '(dsz, sc2) <- Scan.readNum sc1 ;;
      tb' <- RecordBlockTable.put p0 p1 tb ;;
      recordLoop n' sc2 (p0 + csz) (p1 + dsz) tb'
  end.

Definition read_record_block (sc : Scan.t) (input : list byte)
  (num_blocks block_pos : Z) : Res RecordBlockTable.t :=
  tb0 <- RecordBlockTable.alloc (num_blocks + 1) RecordBlockTable.create ;;
  '(p0, p1, tb) <- recordLoop (Z.to_nat num_blocks) (Scan.init input sc)
                     block_pos 0 tb0 ;;
  RecordBlockTable.put p0 p1 tb.

(** ** Text reading of the scanner *)

Module ScanText.
Import Scan.

(** [searchTextLen]: the distance to the terminating NUL, a zero 16-bit
    unit for UTF-16 (the test [attrs.Encoding === 'UTF-16'], the one that
    sets [bpu] to 2) and a zero byte otherwise; running off the buffer is
    the RangeError of the DataView. *)
Fixpoint searchTextLen (fuel : nat) (s : t) (off : Z) : Res Z :=
  match fuel with
  | O => Throw RangeError
  | S fuel' =>
      if bpu s =? 2 then
        u <- getUint16 (buf s) off ;;
        if u =? 0 then Ok (off - offset s)
        else searchTextLen fuel' s (off + bpu s)
      else
        u <- getUint8 (buf s) off ;;
        if u =? 0 then Ok (off + 1 - offset s - 1)
        else searchTextLen fuel' s (off + 1)
  end.

(** [this.decoder.decode(...)]. *)
Definition decode (s : t) (bs : list byte) : Res string :=
  TextDecoder.decode (decoder s) bs.

(** [readText]: the text up to the NUL, the cursor moved past it. *)
Definition readText (s : t) : Res (string * t) :=
  len <- searchTextLen (S (List.length (buf s))) s (offset s) ;;
  txt <- decode s (firstn (Z.to_nat len) (sliceFrom (buf s) (offset s))) ;;
  Ok (txt, forward (len + bpu s) s).

End ScanText.

(** ** mdict.ts: the lookup engine *)

Module Kdx.
(** One element of KEY_INDEX. *)
Record t : Type := {
  num_entries : Z;
  first_word : string;
  last_word : string;
  comp_size : Z;
  decomp_size : Z;
  offset : Z;
  index : Z
}.
End Kdx.

Module Key.
(** One element of a decoded key block; [size] stays [undefined] on the
    last entry of a block. *)
Record t : Type := { word : string; offset : Z; size : option Z }.
End Key.

Module Trail.
Record t : Type := {
  phrase : string;
  block : Z;
  offset : Z;
  pos : Z;
  count : Z;
  total : Z;
  exhausted : bool
}.

Definition setOffset (v : Z) (r : t) : t :=
  {| phrase := phrase r; block := block r; offset := v; pos := pos r;
     count := count r; total := total r; exhausted := exhausted r |}.
Definition setBlock (v : Z) (r : t) : t :=
  {| phrase := phrase r; block := v; offset := offset r; pos := pos r;
     count := count r; total := total r; exhausted := exhausted r |}.
Definition setPos (v : Z) (r : t) : t :=
  {| phrase := phrase r; block := block r; offset := offset r; pos := v;
     count := count r; total := total r; exhausted := exhausted r |}.
Definition setCount (v : Z) (r : t) : t :=
  {| phrase := phrase r; block := block r; offset := offset r; pos := pos r;
     count := v; total := total r; exhausted := exhausted r |}.
Definition setTotal (v : Z) (r : t) : t :=
  {| phrase := phrase r; block := block r; offset := offset r; pos := pos r;
     count := count r; total := v; exhausted := exhausted r |}.
Definition setExhausted (r : t) : t :=
  {| phrase := phrase r; block := block r; offset := offset r; pos := pos r;
     count := count r; total := total r; exhausted := true |}.
End Trail.

(** What stays fixed once the constructor has run.  The two block areas
    are given by what [readBlock] leaves under the scanner: the bytes of a
    key block by its [offset] in the key-block area, those of a record block
    by its [comp_offset] in the file. *)
Record Mdict : Type := {
  parser : ParserState;
  KEY_INDEX : list Kdx.t;
  keyBlocks : list (Z * list byte);
  RECORD_BLOCK_TABLE : RecordBlockTable.t;
  recordBlocks : list (Z * list byte)
}.

Definition adaptKey (m : Mdict) : string -> Res string :=
  adaptKeyOf (receiver (parser m)) (headerSection (parser m)) (ext (parser m)).

Fixpoint blockAt (area : list (Z * list byte)) (off : Z) : option (list byte) :=
  match area with
  | [] => None
  | (o, bs) :: r => if o =? off then Some bs else blockAt r off
  end.

(** The mutable fields of the instance. *)
Record CachedKeys : Type := { keys : list Key.t; pilot : string }.

Record State : Type := {
  cached_keys : option CachedKeys;
  mutual_ticket : Z;
  trail : option Trail.t
}.

Definition fresh : State :=
  {| cached_keys := None; mutual_ticket := 0; trail := None |}.

Definition M (A : Type) : Type := State -> Res (A * State).

Definition ret {A : Type} (a : A) : M A := fun st => Ok (a, st).

Definition mbind {A B : Type} (c : M A) (k : A -> M B) : M B :=
  fun st =>
    match c st with
    | Ok (a, st') => k a st'
    | Throw e => Throw e
    | Unmodelled => Unmodelled
    end.

Definition lift {A : Type} (r : Res A) : M A :=
  fun st => match r with
            | Ok a => Ok (a, st)
            | Throw e => Throw e
            | Unmodelled => Unmodelled
            end.

Definition throw {A : Type} (e : Exn) : M A := fun _ => Throw e.

Declare Scope m_scope.
Delimit Scope m_scope with M.
Notation "x <-- c ;; k" := (mbind c (fun x => k))
  (at level 61, c at next level, right associativity) : m_scope.
Notation "' p <-- c ;; k" := (mbind c (fun x => let p := x in k))
  (at level 61, p pattern, c at next level, right associativity) : m_scope.
Local Open Scope m_scope.

Definition getTrail : M Trail.t :=
  fun st => match trail st with
            | Some t => Ok (t, st)
            | None => Throw TypeError
            end.

Definition putTrail (t : option Trail.t) : M unit :=
  fun st => Ok (tt, {| cached_keys := cached_keys st;
                       mutual_ticket := mutual_ticket st; trail := t |}).

Definition updTrail (f : Trail.t -> Trail.t) : M unit :=
  t <-- getTrail ;; putTrail (Some (f t)).

Section Engine.

Variable m : Mdict.

(** [reduce(arr, phrase)]: halve KEY_INDEX on the adapted [last_word]. *)
Fixpoint reduce (fuel : nat) (arr : list Kdx.t) (phrase : string)
  : Res (option Kdx.t) :=
  if (1 <? List.length arr)%nat then
    match fuel with
    | O => Unmodelled
    | S fuel' =>
        let len := Nat.div2 (List.length arr) in
        match nth_error arr (len - 1) with
        | None => Throw TypeError
        | Some k =>
            key <- adaptKey m (Kdx.last_word k) ;;
            if Js.gt phrase key
            then reduce fuel' (skipn len arr) phrase
            else reduce fuel' (firstn len arr) phrase
        end
    end
  else Ok (nth_error arr 0).

(** [shrink(arr, phrase)]; [pos] is the property carried by the slices
    ([undefined] on the whole list, read as 0). *)
Fixpoint shrink (fuel : nat) (arr : list Key.t) (pos : nat) (phrase : string)
  : Res nat :=
  if (1 <? List.length arr)%nat then
    match fuel with
    | O => Unmodelled
    | S fuel' =>
        let len := Nat.div2 (List.length arr) in
        match nth_error arr len with
        | None => Throw TypeError
        | Some e =>
            key <- adaptKey m (Key.word e) ;;
            if Js.lt phrase key
            then shrink fuel' (firstn len arr) pos phrase
            else shrink fuel' (skipn len arr) (pos + len) phrase
        end
    end
  else
    match nth_error arr 0 with
    | None => Throw TypeError
    | Some e =>
        key <- adaptKey m (Key.word e) ;;
        Ok (pos + (if Js.le phrase key then 0 else 1))%nat
    end.

(** The entries of one key block: [kdx.num_entries] times [readNum] then
    [readText], each entry but the last receiving its [size]. *)
Fixpoint keyLoop (n : nat) (sc : Scan.t) : Res (list (string * Z)) :=
  match n with
  | O => Ok []
  | S n' =>
      '(off, sc1) <- Scan.readNum sc ;;
      '(w, sc2) <- ScanText.readText sc1 ;;
      r <- keyLoop n' sc2 ;;
      Ok ((w, off) :: r)
  end.

Fixpoint withSizes (raw : list (string * Z)) : list Key.t :=
  match raw with
  | [] => []
  | (w, off) :: r =>
      {| Key.word := w; Key.offset := off;
         Key.size := match r with
                     | (_, off') :: _ => Some (off' - off)
                     | [] => None
                     end |} :: withSizes r
  end.

Definition decodeKeys (kdx : Kdx.t) : Res (list Key.t) :=
  if Kdx.num_entries kdx <? 0 then Throw RangeError
  else match blockAt (keyBlocks m) (Kdx.offset kdx) with
       | None => Unmodelled
       | Some bs =>
           raw <- keyLoop (Z.to_nat (Kdx.num_entries kdx))
                    (Scan.init bs (scan (parser m))) ;;
           Ok (withSizes raw)
       end.

(** [loadKeys(kdx)]: one cached block, recognised by its [first_word]. *)
Definition loadKeys (kdx : Kdx.t) : M (list Key.t) :=
  fun st =>
    match cached_keys st with
    | Some c =>
        if String.eqb (pilot c) (Kdx.first_word kdx) then Ok (keys c, st)
        else
          l <- decodeKeys kdx ;;
          Ok (l, {| cached_keys :=
                      Some {| keys := l; pilot := Kdx.first_word kdx |};
                    mutual_ticket := mutual_ticket st; trail := trail st |})
    | None =>
        l <- decodeKeys kdx ;;
        Ok (l, {| cached_keys :=
                    Some {| keys := l; pilot := Kdx.first_word kdx |};
                  mutual_ticket := mutual_ticket st; trail := trail st |})
    end.

(** [while (prev = this.KEY_INDEX[index])] of [seekVanguard], with
    [n = index + 1]: the walk stops below index 0. *)
Fixpoint lookBackBlocks (kdx : Kdx.t) (n : nat) : Res Kdx.t :=
  match n with
  | O => Ok kdx
  | S i =>
      match nth_error (KEY_INDEX m) i with
      | None => Ok kdx
      | Some prev =>
          a <- adaptKey m (Kdx.last_word prev) ;;
          b <- adaptKey m (Kdx.last_word kdx) ;;
          if negb (String.eqb a b) then Ok kdx
          else lookBackBlocks prev i
      end
  end.

(** [while (idx > 0)] of [seekVanguard]. *)
Fixpoint lookBackKeys (l : list Key.t) (phrase : string) (idx : nat)
  : Res nat :=
  match idx with
  | O => Ok O
  | S i =>
      match nth_error l i with
      | None => Throw TypeError
      | Some e =>
          a <- adaptKey m (Key.word e) ;;
          b <- adaptKey m phrase ;;
          if negb (String.eqb a b) then Ok (S i)
          else lookBackKeys l phrase i
      end
  end.

Definition seekVanguard (phrase0 : string) : M (Kdx.t * Z * list Key.t) :=
  phrase <-- lift (adaptKey m phrase0) ;;
  r <-- lift (reduce (List.length (KEY_INDEX m)) (KEY_INDEX m) phrase) ;;
  match r with
  | None => throw TypeError
  | Some kdx0 =>
      kl <-- lift (adaptKey m (Kdx.last_word kdx0)) ;;
      kdx <-- (if Js.le phrase kl
               then lift (lookBackBlocks kdx0 (Z.to_nat (Kdx.index kdx0)))
               else ret kdx0) ;;
      l <-- loadKeys kdx ;;
      i0 <-- lift (shrink (List.length l) l 0 phrase) ;;
      idx <-- lift (lookBackKeys l phrase i0) ;;
      ret (kdx, Z.min (Z.of_nat idx) (Z.of_nat (List.length l) - 1), l)
  end.

End Engine.

(** ** Wildcards of [matchKeys] *)

Module Wildcard.

Definition isWild (c : ascii) : bool := (Ascii.eqb c "?" || Ascii.eqb c "*")%bool.

Fixpoint run (s : string) : string * string :=
  match s with
  | String c r =>
      if isWild c then (EmptyString, s)
      else let '(a, b) := run r in (String c a, b)
  | EmptyString => (EmptyString, EmptyString)
  end.

Fixpoint dropWild (s : string) : string :=
  match s with
  | String c r => if isWild c then dropWild r else s
  | EmptyString => EmptyString
  end.

(** [/([^?*]+)[?*]+/.exec(str)]: the first capture of the leftmost match
    is the first run of ordinary characters, provided a wildcard follows
    it. *)
Definition prefix (str : string) : option string :=
  match run (dropWild str) with
  | (EmptyString, _) => None
  | (_, EmptyString) => None
  | (w, _) => Some w
  end.

Inductive tok : Type := Lit (c : ascii) | AnyChar | AnyStar.

(** The pattern text after the three [replace] calls, token by token:
    an escaped or ordinary character stands for itself, [?] becomes [.]
    and a run of [*] becomes [.*].  The characters that stay regular
    expression operators ([{], [}], [|]) are outside the fragment. *)
Fixpoint compile (s : string) : option (list tok) :=
  match s with
  | EmptyString => Some []
  | String c r =>
      if (Ascii.eqb c "{" || Ascii.eqb c "}" || Ascii.eqb c "|")%bool then None
      else
        match compile r with
        | None => None
        | Some p =>
            if Ascii.eqb c "?" then Some (AnyChar :: p)
            else if Ascii.eqb c "*" then
                   match p with
                   | AnyStar :: _ => Some p
                   | _ => Some (AnyStar :: p)
                   end
                 else Some (Lit c :: p)
        end
  end.

(** [.] matches any code unit but a line terminator. *)
Definition dot (c : ascii) : bool :=
  negb (Ascii.eqb c "010" || Ascii.eqb c "013")%bool.

(** [new RegExp('^' + pattern + '$').test(s)]. *)
Fixpoint test (p : list tok) (s : string) : bool :=
  match p with
  | [] => match s with EmptyString => true | _ => false end
  | Lit c :: p' =>
      match s with
      | String d r => Ascii.eqb c d && test p' r
      | EmptyString => false
      end
  | AnyChar :: p' =>
      match s with
      | String d r => dot d && test p' r
      | EmptyString => false
      end
  | AnyStar :: p' =>
      (fix star (s : string) : bool :=
         test p' s
         || match s with
            | String d r => dot d && star r
            | EmptyString => false
            end) s
  end.

End Wildcard.

(** The argument of [getWordList]: a string, or an object whose properties
    may be absent. *)
Record QueryObj : Type := {
  q_phrase : option string;
  q_word : option string;
  q_max : option Z;
  q_follow : bool
}.

Inductive Query : Type :=
| QString (q : string)
| QObject (o : QueryObj).

(** What [getDefinition] resolves to: [redirects] passes a definition
    through, or hands back whatever [mdx] resolves to. *)
Inductive Resolved : Type :=
| Text (s : string)
| WordList (l : list Key.t).

Section Queries.

Variable m : Mdict.

(** [String(el)] for an entry [{word, offset}]: an entry is a plain
    object. *)
Definition entryToString (_ : Key.t) : string := "[object Object]".

(** [tester]: the wildcard test, and the ban on spaces unless the phrase
    ends with one; it is applied to the elements of the key list. *)
Definition tester (wildcard : list Wildcard.tok) (phrase : string)
  (s : Key.t) : bool :=
  match Js.last phrase with
  | Some " "%char => Wildcard.test wildcard (entryToString s)
  | _ => Wildcard.test wildcard (entryToString s)
         && negb (Js.contains " " (entryToString s))
  end.

(** [list.filter(filter, this.trail)]: the callback counts its hits in
    the trail of the instance. *)
Fixpoint filterFrom (expectedSize : Z) (t : Key.t -> bool)
  (l : list Key.t) (i : Z) (tr : Trail.t) : list Key.t * Trail.t :=
  match l with
  | [] => ([], tr)
  | s :: r =>
      if (Trail.count tr <? expectedSize) && t s then
        let tr' := Trail.setPos (i + 1)
                     (Trail.setTotal (Trail.total tr + 1)
                        (Trail.setCount (Trail.count tr + 1) tr)) in
        let '(r', tr'') := filterFrom expectedSize t r (i + 1) tr' in
        (s :: r', tr'')
      else filterFrom expectedSize t r (i + 1) tr
  end.

Definition applyFilter (expectedSize : Z) (t : Key.t -> bool)
  (l : list Key.t) : M (list Key.t) :=
  tr <-- getTrail ;;
  let '(l', tr') := filterFrom expectedSize t l 0 tr in
  _ <-- putTrail (Some tr') ;;
  ret l'.

(** [appendMore]; [fuel] bounds the number of blocks visited. *)
Fixpoint appendMore (fuel : nat) (word : string) (l : list Key.t)
  (nextKdx : option Kdx.t) (expectedSize : Z)
  (filter : option (Key.t -> bool)) (ticket : Z) : M (list Key.t) :=
  fun st =>
    if negb (ticket =? mutual_ticket st) then Throw ForceTerminated
    else
      match filter with
      | Some f =>
          (tr <-- getTrail ;;
           match nextKdx with
           | Some nk =>
               if (Trail.count tr <? expectedSize)
                  && String.eqb
                       (Js.substrTo (String.length word) (Kdx.first_word nk))
                       word
               then
                 match fuel with
                 | O => fun _ => Unmodelled
                 | S fuel' =>
                     more <-- loadKeys m nk ;;
                     _ <-- updTrail (Trail.setOffset 0) ;;
                     _ <-- updTrail (Trail.setBlock (Kdx.index nk)) ;;
                     hits <-- applyFilter expectedSize f more ;;
                     appendMore fuel' word (l ++ hits)%list
                       (at_ (KEY_INDEX m) (Kdx.index nk + 1))
                       expectedSize filter ticket
                 end
               else
                 _ <-- (if (List.length l =? 0)%nat
                        then updTrail Trail.setExhausted else ret tt) ;;
                 ret l
           | None =>
               _ <-- (if (List.length l =? 0)%nat
                      then updTrail Trail.setExhausted else ret tt) ;;
               ret l
           end) st
      | None =>
          let shortage := expectedSize - Z.of_nat (List.length l) in
          match nextKdx with
          | Some nk =>
              if 0 <? shortage then
                match fuel with
                | O => Unmodelled
                | S fuel' =>
                    (_ <-- updTrail (Trail.setBlock (Kdx.index nk)) ;;
                     more <-- loadKeys m nk ;;
                     _ <-- updTrail (Trail.setOffset 0) ;;
                     _ <-- updTrail
                             (Trail.setPos
                                (Z.min shortage (Z.of_nat (List.length more)))) ;;
                     appendMore fuel' word (l ++ sliceTo more shortage)%list
                       (at_ (KEY_INDEX m) (Kdx.index nk + 1))
                       expectedSize filter ticket) st
                end
              else
                (_ <-- updTrail (fun tr =>
                         if expectedSize <? Trail.pos tr
                         then Trail.setPos expectedSize tr else tr) ;;
                 let l' := sliceTo l expectedSize in
                 _ <-- updTrail (Trail.setCount (Z.of_nat (List.length l'))) ;;
                 _ <-- updTrail (fun tr =>
                         Trail.setTotal (Trail.total tr + Trail.count tr) tr) ;;
                 ret l') st
          | None =>
              (_ <-- updTrail (fun tr =>
                       if expectedSize <? Trail.pos tr
                       then Trail.setPos expectedSize tr else tr) ;;
               let l' := sliceTo l expectedSize in
               _ <-- updTrail (Trail.setCount (Z.of_nat (List.length l'))) ;;
               _ <-- updTrail (fun tr =>
                       Trail.setTotal (Trail.total tr + Trail.count tr) tr) ;;
               ret l') st
          end
      end.

Definition followUp : M (Kdx.t * Z * list Key.t) :=
  tr <-- getTrail ;;
  match at_ (KEY_INDEX m) (Trail.block tr) with
  | None => throw TypeError
  | Some kdx =>
      l <-- loadKeys m kdx ;;
      tr' <-- getTrail ;;
      ret (kdx,
           Z.min (Trail.offset tr' + Trail.pos tr')
             (Z.of_nat (List.length l) - 1),
           l)
  end.

Definition bumpTicket : M Z :=
  fun st =>
    let t := mutual_ticket st + 1 in
    Ok (t, {| cached_keys := cached_keys st; mutual_ticket := t;
              trail := trail st |}).

(** [matchKeys(phrase, expectedSize = 0, follow)]; [phrase] is
    [undefined] when the caller passes an absent property. *)
Definition matchKeys (phrase0 : option string) (max : option Z)
  (follow0 : bool) : M (list Key.t) :=
  let expectedSize := Z.max (match max with Some x => x | None => 0 end) 10 in
  match phrase0 with
  | None => throw TypeError
  | Some phrase =>
      let str := Js.toLowerCase (Js.trim phrase) in
      wf <-- lift
               (match Wildcard.prefix str with
                | Some w =>
                    match Wildcard.compile str with
                    | Some wildcard => Ok (w, Some (tester wildcard phrase))
                    | None => Unmodelled
                    end
                | None => Ok (Js.trim phrase, None)
                end) ;;
      let '(word, filter) := wf in
      fun st =>
        let follow :=
          match trail st with
          | Some tr =>
              if negb (String.eqb (Trail.phrase tr) phrase) then false
              else follow0
          | None => follow0
          end in
        let resuming :=
          match trail st with Some _ => follow | None => false end in
        let spent :=
          match trail st with
          | Some tr => follow && Trail.exhausted tr
          | None => false
          end in
        if spent then Ok ([], st)
        else
          ('(kdx, idx, l0) <-- (if resuming then followUp
                                else seekVanguard m word) ;;
           let l := sliceFrom l0 idx in
           old <-- (fun s => Ok (trail s, s)) ;;
           _ <-- putTrail
                   (Some {| Trail.phrase := phrase;
                            Trail.block := Kdx.index kdx;
                            Trail.offset := idx;
                            Trail.pos := Z.of_nat (List.length l);
                            Trail.count := 0;
                            Trail.total :=
                              if follow then
                                match old with
                                | Some tr => Trail.total tr
                                | None => 0
                                end
                              else 0;
                            Trail.exhausted := false |}) ;;
           l1 <-- match filter with
                  | Some f => applyFilter expectedSize f l
                  | None => ret l
                  end ;;
           ticket <-- bumpTicket ;;
           result <-- appendMore (S (List.length (KEY_INDEX m))) word l1
                        (at_ (KEY_INDEX m) (Kdx.index kdx + 1))
                        expectedSize filter ticket ;;
           tr <-- getTrail ;;
           _ <-- (if Trail.block tr =? Z.of_nat (List.length (KEY_INDEX m)) - 1
                  then
                    match at_ (KEY_INDEX m) (Trail.block tr) with
                    | None => throw TypeError
                    | Some k =>
                        if Kdx.num_entries k <=? Trail.offset tr + Trail.pos tr
                        then updTrail Trail.setExhausted
                        else ret tt
                    end
                  else ret tt) ;;
           ret result) st
  end.

(** [matchOffset(list, offset)]: the callback of [some] is a block body
    without a [return], so it yields [undefined] for every element; its
    assignment to [list] is the only effect. *)
Definition someCallback (offset : Z) (l : list Key.t) (el : Key.t)
  : bool * list Key.t :=
  (false, if Key.offset el =? offset then [el] else l).

Fixpoint someLoop (offset : Z) (l : list Key.t) (els : list Key.t)
  : bool * list Key.t :=
  match els with
  | [] => (false, l)
  | el :: r =>
      let '(hit, l') := someCallback offset l el in
      if hit then (true, l') else someLoop offset l' r
  end.

Definition matchOffset (l : list Key.t) (offset : Z) : list Key.t :=
  let '(hit, l') := someLoop offset l l in
  if hit then l' else [].

(** [mdx(query, offset?)]; [if (offset)] skips an absent or zero offset. *)
Definition mdx (query : Query) (offset : option Z) : M (list Key.t) :=
  match query with
  | QString q =>
      _ <-- putTrail None ;;
      let word := Js.toLowerCase (Js.trim q) in
      '(_, idx, l0) <-- seekVanguard m word ;;
      let l := sliceFrom l0 idx in
      ret (match offset with
           | Some o => if o =? 0 then l else matchOffset l o
           | None => l
           end)
  | QObject o => matchKeys (q_word o) (q_max o) (q_follow o)
  end.

(** [mdd(query)]: the candidates are filtered with [e.toLowerCase()],
    which an entry object does not have. *)
Definition mdd (query : Query) : M (list byte) :=
  match query with
  | QObject _ => throw TypeError
  | QString q =>
      let word0 := Js.toLowerCase (Js.trim q) in
      let word1 :=
        match word0 with
        | String c r =>
            if (Ascii.eqb c "/" || Ascii.eqb c "\")%bool then r
            else match Js.last word0 with
                 | Some "/"%char =>
                     Js.substrTo (String.length word0 - 1) word0
                 | _ => word0
                 end
        | EmptyString => word0
        end in
      let word :=
        (fix slashes (s : string) : string :=
           match s with
           | String c r =>
               String (if Ascii.eqb c "/" then "\"%char else c) (slashes r)
           | EmptyString => EmptyString
           end) (String "\" word1) in
      '(_, idx, l0) <-- seekVanguard m word ;;
      match sliceFrom l0 idx with
      | [] => throw ResourceNotFound
      | _ :: _ => throw TypeError
      end
  end.

Inductive Answer : Type :=
| Words (l : list Key.t)
| Resource (b : list byte).

Definition getWordList (query : Query) (offset : option Z) : M Answer :=
  match ext (parser m) with
  | Mdx => l <-- mdx query offset ;; ret (Words l)
  | Mdd => b <-- mdd query ;; ret (Resource b)
  end.

(** [readDefinition(input, block, offset)]. *)
Definition readDefinition (block : Block) (offset : Z) : Res string :=
  match blockAt (recordBlocks m) (comp_offset block) with
  | None => Unmodelled
  | Some bs =>
      let sc := Scan.forward (offset - decomp_offset block)
                  (Scan.init bs (scan (parser m))) in
      '(txt, _) <- ScanText.readText sc ;;
      Ok txt
  end.

Definition redirects (definition : string) : M Resolved :=
  if negb (String.eqb (Js.substrTo 8 definition) "@@@LINK=")
  then ret (Text definition)
  else l <-- mdx (QString (Js.substringFrom 8 definition)) None ;;
       ret (WordList l).

Definition getDefinition (offset : Z) : M Resolved :=
  b <-- lift (RecordBlockTable.find offset (RECORD_BLOCK_TABLE m)) ;;
  match b with
  | None => throw TypeError
  | Some block =>
      d0 <-- lift (readDefinition block offset) ;;
      d <-- (if (0 <? List.length (StyleSheet (parser m)))%nat
             then lift (parseRes d0 (StyleSheet (parser m)))
             else ret d0) ;;
      redirects d
  end.

End Queries.

(** ** A small dictionary

    A version 2, UTF-8 dictionary with two key blocks, (apple, apply) and
    (cat, feline), and one record block; the record of cat is a link to
    feline. *)

Module Demo.

Definition u32be (z : Z) : list byte :=
  map (fun k => match Byte.of_N (Z.to_N (Z.land (Z.shiftr z k) 255)) with
                | Some b => b
                | None => x00
                end) [24; 16; 8; 0].

(** A number as version 2 stores it: eight bytes, the high four zero. *)
Definition num (z : Z) : list byte := (u32be 0 ++ u32be z)%list.

Definition text (s : string) : list byte :=
  (list_byte_of_string s ++ [x00])%list.

Definition entry (off : Z) (w : string) : list byte :=
  (num off ++ text w)%list.

Definition xml : list (string * string) :=
  [("GeneratedByEngineVersion", "2.0"); ("Encoding", "UTF-8");
   ("KeyCaseSensitive", "No"); ("StripKey", "Yes")].

Definition header : HeaderSection :=
  {| GeneratedByEngineVersion := "2.0"; Encrypted := 0;
     KeyCaseSensitive := "No"; StyleSheetAttr := ""; StripKey := "Yes";
     Encoding := Some "UTF-8" |}.

(** The scanner that [new Scan] makes of this header. *)
Definition scanner : Scan.t :=
  {| Scan.v2 := true; Scan.enc := Scan.Utf8; Scan.tail := 1;
     Scan.buf := []; Scan.offset := 0 |}.

Definition state : ParserState :=
  {| headerSection := header; scan := scanner;
     keywordIndexDecryptor := false; receiver := Some utilExports;
     StyleSheet := []; ext := Mdx |}.

Definition records : list byte :=
  (text "fruit" ++ text "to put on" ++ text "@@@LINK=feline"
   ++ text "a cat")%list.

Definition table : RecordBlockTable.t :=
  {| RecordBlockTable.pos := 4;
     RecordBlockTable.arr := Some [2048; 0; 2093; 37] |}.

Definition index : list Kdx.t :=
  [ {| Kdx.num_entries := 2; Kdx.first_word := "apple";
       Kdx.last_word := "apply"; Kdx.comp_size := 36;
       Kdx.decomp_size := 28; Kdx.offset := 0; Kdx.index := 0 |};
    {| Kdx.num_entries := 2; Kdx.first_word := "cat";
       Kdx.last_word := "feline"; Kdx.comp_size := 35;
       Kdx.decomp_size := 27; Kdx.offset := 36; Kdx.index := 1 |} ].

Definition dict : Mdict :=
  {| parser := state;
     KEY_INDEX := index;
     keyBlocks := [ (0, (entry 0 "apple" ++ entry 6 "apply")%list);
                    (36, (entry 16 "cat" ++ entry 31 "feline")%list) ];
     RECORD_BLOCK_TABLE := table;
     recordBlocks := [ (2048, records) ] |}.

Definition key (w : string) (off : Z) (sz : option Z) : Key.t :=
  {| Key.word := w; Key.offset := off; Key.size := sz |}.

(** The header and the record block index of the file yield [state] and
    [table]. *)
Lemma scanner_made : Scan.new header = Ok scanner.
Proof. reflexivity. Qed.

Lemma header_parsed :
  read_header_sect (Some utilExports) Mdx (Some xml) 1024 = Ok (1028, state).
Proof. reflexivity. Qed.

Lemma table_read :
  read_record_block (scan state) (num 45 ++ num 37)%list 1 2048 = Ok table.
Proof. reflexivity. Qed.

End Demo.

(** ** The order on strings *)

Module Order.

Lemma lt_iff (a b : string) : Js.lt a b = true <-> String_as_OT.lt a b.
Proof.
  unfold Js.lt, String_as_OT.lt.
  destruct (String_as_OT.compare a b); split; congruence.
Qed.

Lemma le_iff (a b : string) :
  Js.le a b = true <-> a = b \/ String_as_OT.lt a b.
Proof.
  unfold Js.le. destruct (String_as_OT.compare_spec a b) as [E|L|G].
  - split; [now left | reflexivity].
  - split; [now right | reflexivity].
  - split; [discriminate|]. intros [E|L].
    + subst. exfalso. exact (StrictOrder_Irreflexive _ G).
    + exfalso. apply (StrictOrder_Irreflexive a).
      exact (StrictOrder_Transitive _ _ _ L G).
Qed.

Lemma le_refl (a : string) : Js.le a a = true.
Proof. apply le_iff. now left. Qed.

Lemma le_trans (a b c : string) :
  Js.le a b = true -> Js.le b c = true -> Js.le a c = true.
Proof.
  rewrite !le_iff. intros [->|L1] [->|L2]; auto.
  right. exact (StrictOrder_Transitive _ _ _ L1 L2).
Qed.

Lemma le_antisym (a b : string) :
  Js.le a b = true -> Js.le b a = true -> a = b.
Proof.
  rewrite !le_iff. intros [E|L1] [E'|L2]; auto.
  exfalso. apply (StrictOrder_Irreflexive a).
  exact (StrictOrder_Transitive _ _ _ L1 L2).
Qed.

Lemma not_lt_le (a b : string) : Js.lt a b = false -> Js.le b a = true.
Proof.
  intros H. apply le_iff.
  destruct (String_as_OT.compare_spec a b) as [E|L|G]; auto.
  apply lt_iff in L. congruence.
Qed.

Lemma lt_not_le (a b : string) : Js.lt a b = true -> Js.le b a = false.
Proof.
  intros H. apply lt_iff in H.
  destruct (Js.le b a) eqn:E; [|reflexivity].
  apply le_iff in E. destruct E as [->|L].
  - exfalso. exact (StrictOrder_Irreflexive _ H).
  - exfalso. apply (StrictOrder_Irreflexive a).
    exact (StrictOrder_Transitive _ _ _ H L).
Qed.

Lemma lt_le_trans (a b c : string) :
  Js.lt a b = true -> Js.le b c = true -> Js.lt a c = true.
Proof.
  rewrite !lt_iff, le_iff. intros L [->|L2]; auto.
  exact (StrictOrder_Transitive _ _ _ L L2).
Qed.

Lemma le_lt_trans (a b c : string) :
  Js.le a b = true -> Js.lt b c = true -> Js.lt a c = true.
Proof.
  rewrite !lt_iff, le_iff. intros [->|L] L2; auto.
  exact (StrictOrder_Transitive _ _ _ L L2).
Qed.

Lemma lt_irrefl (a : string) : Js.lt a a = false.
Proof.
  destruct (Js.lt a a) eqn:E; [|reflexivity].
  apply lt_iff in E. exfalso. exact (StrictOrder_Irreflexive _ E).
Qed.

End Order.

(** ** Lists kept in ascending order of a key *)

Section Ascending.

Variables (X : Type) (g : X -> string).

Definition below (x y : X) : Prop := Js.le (g x) (g y) = true.

(** The executable check: each element is at most its successor. *)
Fixpoint ascendingBy (l : list X) : bool :=
  match l with
  | x :: (y :: _) as r => Js.le (g x) (g y) && ascendingBy r
  | _ => true
  end.

Lemma ascendingBy_sorted (l : list X) :
  ascendingBy l = true -> StronglySorted below l.
Proof.
  intros H. apply Sorted_StronglySorted.
  - intros x y z. unfold below. apply Order.le_trans.
  - induction l as [|x [|y r] IH]; constructor.
    + constructor.
    + constructor.
    + apply IH. simpl in H. apply andb_prop in H. tauto.
    + constructor. simpl in H. apply andb_prop in H. unfold below. tauto.
Qed.

Lemma sorted_app (l1 l2 : list X) :
  StronglySorted below (l1 ++ l2) ->
  StronglySorted below l1 /\ StronglySorted below l2
  /\ forall x y, In x l1 -> In y l2 -> below x y.
Proof.
  induction l1 as [|a l1 IH]; simpl; intros H.
  - repeat split; [constructor | assumption | intros ? ? []].
  - inversion H as [|? ? Hs Hf]; subst.
    destruct (IH Hs) as (S1 & S2 & C).
    rewrite Forall_app in Hf. destruct Hf as [F1 F2].
    repeat split; [constructor; assumption | assumption |].
    intros x y [->|Hx] Hy.
    + rewrite Forall_forall in F2. now apply F2.
    + now apply C.
Qed.

(** A test that holds below every element on which it holds cuts a sorted
    list in two. *)
Lemma sorted_cut (t : X -> bool) (l : list X) :
  (forall x y, below x y -> t y = true -> t x = true) ->
  StronglySorted below l ->
  exists A B, l = (A ++ B)%list
              /\ Forall (fun x => t x = true) A
              /\ Forall (fun x => t x = false) B.
Proof.
  intros Hdown Hs. induction Hs as [|a l Hs IH Hf].
  - exists [], []. repeat split; constructor.
  - destruct (t a) eqn:Ta.
    + destruct IH as (A & B & -> & FA & FB).
      exists (a :: A), B. repeat split; [constructor|]; assumption.
    + exists [], (a :: l). repeat split; [constructor|].
      constructor; [assumption|].
      rewrite Forall_forall in *. intros y Hy.
      destruct (t y) eqn:Ty; [|reflexivity].
      rewrite (Hdown a y (Hf y Hy) Ty) in Ta. discriminate.
Qed.

End Ascending.

Arguments below {X} g x y.
Arguments ascendingBy {X} g l.

(** A second dictionary, case sensitive: KeyCaseSensitive="Yes", no
    StripKey, one key block holding Apple and apple in code-unit order. *)

Module CaseDemo.

Definition xml : list (string * string) :=
  [("GeneratedByEngineVersion", "2.0"); ("Encoding", "UTF-8");
   ("KeyCaseSensitive", "Yes")].

Definition header : HeaderSection :=
  {| GeneratedByEngineVersion := "2.0"; Encrypted := 0;
     KeyCaseSensitive := "Yes"; StyleSheetAttr := ""; StripKey := "";
     Encoding := Some "UTF-8" |}.

Definition state : ParserState :=
  {| headerSection := header; scan := Demo.scanner;
     keywordIndexDecryptor := false; receiver := Some utilExports;
     StyleSheet := []; ext := Mdx |}.

Definition index : list Kdx.t :=
  [ {| Kdx.num_entries := 2; Kdx.first_word := "Apple";
       Kdx.last_word := "apple"; Kdx.comp_size := 36;
       Kdx.decomp_size := 28; Kdx.offset := 0; Kdx.index := 0 |} ].

Definition dict : Mdict :=
  {| parser := state;
     KEY_INDEX := index;
     keyBlocks := [ (0, (Demo.entry 0 "Apple" ++ Demo.entry 6 "apple")%list) ];
     RECORD_BLOCK_TABLE :=
       {| RecordBlockTable.pos := 4;
          RecordBlockTable.arr := Some [2048; 0; 2068; 12] |};
     recordBlocks := [ (2048, (Demo.text "Fruit" ++ Demo.text "fruit")%list) ] |}.

Lemma case_header_parsed :
  read_header_sect (Some utilExports) Mdx (Some xml) 1024 = Ok (1028, state).
Proof. reflexivity. Qed.

End CaseDemo.

(** ** What an opened dictionary satisfies

    The invariants of the format that the search relies on, all
    executable: the [index] fields number KEY_INDEX from 0, every key block
    decodes, is not empty and ends on the [last_word] of its index entry,
    and the keywords ascend, block after block, under the normal form. *)

Fixpoint decodeAll (m : Mdict) (ks : list Kdx.t) : Res (list (list Key.t)) :=
  match ks with
  | [] => Ok []
  | k :: r =>
      b <- decodeKeys m k ;;
      bs <- decodeAll m r ;;
      Ok (b :: bs)
  end.

Fixpoint indexedFrom (i : Z) (ks : list Kdx.t) : bool :=
  match ks with
  | [] => true
  | k :: r => (Kdx.index k =? i) && indexedFrom (i + 1) r
  end.

Fixpoint lastKey (b : list Key.t) : option Key.t :=
  match b with
  | [] => None
  | [e] => Some e
  | _ :: r => lastKey r
  end.

Fixpoint lastWordsAgree (ks : list Kdx.t) (bs : list (list Key.t)) : bool :=
  match ks, bs with
  | [], [] => true
  | k :: ks', b :: bs' =>
      match lastKey b with
      | Some e => String.eqb (Kdx.last_word k) (Key.word e)
      | None => false
      end && lastWordsAgree ks' bs'
  | _, _ => false
  end.

Definition wellFormed (m : Mdict) (f : string -> string)
  (bs : list (list Key.t)) : bool :=
  indexedFrom 0 (KEY_INDEX m)
  && lastWordsAgree (KEY_INDEX m) bs
  && ascendingBy (fun e => f (Key.word e)) (List.concat bs).

(** The cached block, if any, is the block of every index entry that its
    [pilot] can stand for. *)
Definition cacheCoherent (m : Mdict) (st : State) : Prop :=
  forall c, cached_keys st = Some c ->
            forall k, In k (KEY_INDEX m) ->
                      pilot c = Kdx.first_word k ->
                      decodeKeys m k = Ok (keys c).

(** ** Vocabulary of the statements *)

(** The big-endian value of four bytes. *)
Definition be32 (b0 b1 b2 b3 : byte) : Z :=
  let z (b : byte) := Z.of_N (Byte.to_N b) in
  Z.lor (Z.shiftl (z b0) 24)
    (Z.lor (Z.shiftl (z b1) 16) (Z.lor (Z.shiftl (z b2) 8) (z b3))).

(** The descriptor of block [i] of a table [a], its sizes taken from the
    next pair. *)
Definition blockOf (a : list Z) (i : Z) : Block :=
  {| block_no := i;
     comp_offset := RecordBlockTable.compAt a i;
     comp_size := RecordBlockTable.compAt a (i + 1) - RecordBlockTable.compAt a i;
     decomp_offset := RecordBlockTable.decompAt a i;
     decomp_size :=
       RecordBlockTable.decompAt a (i + 1) - RecordBlockTable.decompAt a i |}.

(** An index entry ends below the phrase; an entry lies beyond it. *)
Definition behind (f : string -> string) (phrase : string) (k : Kdx.t) : bool :=
  Js.lt (f (Kdx.last_word k)) phrase.

Definition beyond (f : string -> string) (phrase : string) (e : Key.t) : bool :=
  Js.lt phrase (f (Key.word e)).

(** An index entry and its block: the block decodes and ends on the
    [last_word] of the entry. *)
Definition holds (m : Mdict) (k : Kdx.t) (b : list Key.t) : Prop :=
  decodeKeys m k = Ok b
  /\ exists b0 z, b = (b0 ++ [z])%list /\ Kdx.last_word k = Key.word z.

(** A string that does not start with a blank keeps its first character
    under [trimEnd]. *)
Definition startsClean (s : string) : bool :=
  match s with
  | String c _ => negb (Js.isSpace c)
  | EmptyString => true
  end.

(** * More of the reader *)

(** ** util.js: the extension of a file name *)

(** [/(?:\.([^.]+))?$/.exec(filename)[1]]: the text after the last dot when
    that text is not empty, [undefined] otherwise (the pattern then matches
    the empty string at the end). *)
Fixpoint getExtension (filename : string) : option string :=
  match filename with
  | EmptyString => None
  | String c r =>
      match getExtension r with
      | Some e => Some e
      | None =>
          if (Ascii.eqb c "." && negb (Js.contains "." r))%bool
          then match r with
               | EmptyString => None
               | _ => Some r
               end
          else None
      end
  end.

(** ** crypt: the keyword-index decryptor *)

Module Crypt.

Definition byteZ (b : byte) : Z := Z.of_N (Byte.to_N b).

(** A store into a Uint8Array keeps the low eight bits. *)
Definition zByte (z : Z) : byte :=
  match Byte.of_N (Z.to_N (z mod 256)) with
  | Some b => b
  | None => x00
  end.

(** The loop of [decrypt] over the bytes still to do; [key] is the digest,
    [prev] the previous byte of the source and [i] the index.  A digest
    element that does not exist reads as [undefined], 0 under [^]. *)
Fixpoint decryptLoop (key : list byte) (prev : Z) (i : Z) (buf : list byte)
  : list byte :=
  match buf with
  | [] => []
  | b :: r =>
      let byte0 := Z.lor (Z.shiftr (byteZ b) 4) (Z.shiftl (byteZ b) 4) in
      let k :=
        match at_ key (i mod Z.of_nat (List.length key)) with
        | Some kb => byteZ kb
        | None => 0
        end in
      let byte1 := Z.lxor (Z.lxor (Z.lxor byte0 prev) (Z.land i 255)) k in
      zByte byte1 :: decryptLoop key (byteZ b) (i + 1) r
  end.

Section Digest.

(** [ripemd128] is an external library. *)
Variable ripemd128 : list byte -> list byte.

Definition decrypt (buf key : list byte) : list byte :=
  decryptLoop (ripemd128 key) 54 0 buf.

End Digest.

End Crypt.

(** ** The scanner: sized text and blocks *)

Module ScanBlock.
Import Scan.

(** [new Uint8Array(this.buf, this.offset, len)] throws a RangeError when
    the view does not fit the buffer. *)
Definition view (s : t) (len : Z) : Res (list byte) :=
  if ((len <? 0) || (offset s <? 0)
      || (Z.of_nat (List.length (buf s)) <? offset s + len))%bool
  then Throw RangeError
  else Ok (firstn (Z.to_nat len) (skipn (Z.to_nat (offset s)) (buf s))).

(** [readTextSized(len)]: [len] units of text, then the tail of the
    profile. *)
Definition readTextSized (len : Z) (s : t) : Res (string * t) :=
  let n := len * bpu s in
  bs <- view s n ;;
  txt <- ScanText.decode s bs ;;
  Ok (txt, forward (n + tail s) s).

(** [checksumV2] is only installed by the constructor for version >= 2;
    calling it on another scanner calls [undefined]. *)
Definition checksumV2 (s : t) : Res t :=
  if v2 s then Ok (forward 4 s) else Throw TypeError.

Section Codecs.

(** The decompressors and the digest are external libraries:
    [pako.inflate(tmp)], [lzo.decompress(tmp, expectedBufSize, 1308672)]
    (the expected size is [false] when a version 1 summary supplies it) and
    [ripemd128]. *)
Variable inflate : list byte -> Res (list byte).
Variable lzo : list byte -> option Z -> Res (list byte).
Variable ripemd128 : list byte -> list byte.

(** [readBlock(len, expectedBufSize, decryptor)]. *)
Definition readBlock (len : Z) (expectedBufSize : option Z) (decryptor : bool)
  (s : t) : Res t :=
  comp_type <- getUint8 (buf s) (offset s) ;;
  if comp_type =? 0 then Ok (if v2 s then forward 8 s else s)
  else
    let s8 := forward 8 s in
    let len' := len - 8 in
    tmp <- view s8 len' ;;
    tmp' <- (if decryptor then
               passkey4 <- view (forward 4 s) 4 ;;
               Ok (Crypt.decrypt ripemd128 tmp
                     (passkey4 ++ [x95; x36; x00; x00])%list)
             else Ok tmp) ;;
    out <- (if comp_type =? 2 then inflate tmp' else lzo tmp' expectedBufSize) ;;
    Ok (init out (forward len' s8)).

End Codecs.

End ScanBlock.

(** ** mdict-parser.ts: the summaries and the keyword index *)

Module Keyword.
Record t : Type := {
  num_blocks : Z;
  num_entries : Z;
  key_index_decomp_len : option Z;   (* [false] below version 2 *)
  key_index_comp_len : Z;
  key_blocks_len : Z;
  len : Z
}.
End Keyword.

(** [read_keyword_summary(input, offset)]; the fields are read in the order
    of the object literal. *)
Definition read_keyword_summary (sc : Scan.t) (input : list byte) (offset : Z)
  : Res Keyword.t :=
  let s0 := Scan.forward offset (Scan.init input sc) in
  '(nb, s1) <- Scan.readNum s0 ;;
  '(ne, s2) <- Scan.readNum s1 ;;
  '(dl, s3) <- (if Scan.v2 s2
                then '(v, s) <- Scan.readNum s2 ;; Ok (Some v, s)
                else Ok (None, s2)) ;;
  '(cl, s4) <- Scan.readNum s3 ;;
  '(bl, s5) <- Scan.readNum s4 ;;
  s6 <- ScanBlock.checksumV2 s5 ;;
  Ok {| Keyword.num_blocks := nb; Keyword.num_entries := ne;
        Keyword.key_index_decomp_len := dl;
        Keyword.key_index_comp_len := cl; Keyword.key_blocks_len := bl;
        Keyword.len := Scan.offset s6 - offset |}.

(** The body of the loop of [read_keyword_index], [n] entries from index
    [i] on, [offset] being the running sum of the [comp_size] fields. *)
Fixpoint keywordIndexLoop (n : nat) (i offset : Z) (s : Scan.t)
  : Res (list Kdx.t) :=
  match n with
  | O => Ok []
  | S n' =>
      '(ne, s1) <- Scan.readNum s ;;
      '(size1, s2) <- Scan.readShort s1 ;;
      '(first, s3) <- ScanBlock.readTextSized size1 s2 ;;
      '(size2, s4) <- Scan.readShort s3 ;;
      '(last, s5) <- ScanBlock.readTextSized size2 s4 ;;
      '(csize, s6) <- Scan.readNum s5 ;;
      '(dsize, s7) <- Scan.readNum s6 ;;
      r <- keywordIndexLoop n' (i + 1) (offset + csize) s7 ;;
      Ok ({| Kdx.num_entries := ne; Kdx.first_word := first;
             Kdx.last_word := last; Kdx.comp_size := csize;
             Kdx.decomp_size := dsize; Kdx.offset := offset;
             Kdx.index := i |} :: r)
  end.

Section KeywordIndex.

Variable inflate : list byte -> Res (list byte).
Variable lzo : list byte -> option Z -> Res (list byte).
Variable ripemd128 : list byte -> list byte.

(** [read_keyword_index(input, keyword_summary)]. *)
Definition read_keyword_index (ps : ParserState) (input : list byte)
  (ks : Keyword.t) : Res (list Kdx.t) :=
  s <- ScanBlock.readBlock inflate lzo ripemd128
         (Keyword.key_index_comp_len ks) (Keyword.key_index_decomp_len ks)
         (keywordIndexDecryptor ps) (Scan.init input (scan ps)) ;;
  if Keyword.num_blocks ks <? 0 then Throw RangeError
  else keywordIndexLoop (Z.to_nat (Keyword.num_blocks ks)) 0 0 s.

End KeywordIndex.

Module RecordSummary.
Record t : Type := {
  num_blocks : Z;
  num_entries : Z;
  index_len : Z;
  blocks_len : Z;
  len : Z;
  block_pos : Z
}.
End RecordSummary.

(** [read_record_summary(input, pos)]. *)
Definition read_record_summary (sc : Scan.t) (input : list byte) (pos : Z)
  : Res RecordSummary.t :=
  let s0 := Scan.init input sc in
  '(nb, s1) <- Scan.readNum s0 ;;
  '(ne, s2) <- Scan.readNum s1 ;;
  '(il, s3) <- Scan.readNum s2 ;;
  '(bl, s4) <- Scan.readNum s3 ;;
  Ok {| RecordSummary.num_blocks := nb; RecordSummary.num_entries := ne;
        RecordSummary.index_len := il; RecordSummary.blocks_len := bl;
        RecordSummary.len := Scan.offset s4;
        RecordSummary.block_pos := pos + il + Scan.offset s4 |}.

(** ** The byte layout of the fields

    How a file stores what the scanner reads: a number as four big-endian
    bytes, preceded by four zero bytes from version 2 on, and a text by its
    code units followed by a zero unit. *)

Module Wire.

Definition u32be (z : Z) : list byte :=
  [Crypt.zByte (Z.shiftr z 24); Crypt.zByte (Z.shiftr z 16);
   Crypt.zByte (Z.shiftr z 8); Crypt.zByte z].

Definition num (v2 : bool) (z : Z) : list byte :=
  if v2 then (u32be 0 ++ u32be z)%list else u32be z.

Definition units (wide : bool) (s : string) : list byte :=
  flat_map (fun b => if wide then [b; x00] else [b]) (list_byte_of_string s).

Definition text (wide : bool) (s : string) : list byte :=
  (units wide s ++ (if wide then [x00; x00] else [x00]))%list.

Definition entry (v2 wide : bool) (e : string * Z) : list byte :=
  (num v2 (snd e) ++ text wide (fst e))%list.

(** A size as [readShort] reads it, and a text preceded by its size in
    units and followed by the tail of the profile. *)
Definition short (v2 : bool) (z : Z) : list byte :=
  if v2 then [Crypt.zByte (Z.shiftr z 8); Crypt.zByte z] else [Crypt.zByte z].

Definition sized (v2 wide : bool) (s : string) : list byte :=
  (short v2 (Z.of_nat (String.length s)) ++ units wide s
   ++ (if v2 then (if wide then [x00; x00] else [x00]) else []))%list.

(** One entry of the keyword index. *)
Definition kdx (v2 wide : bool) (k : Kdx.t) : list byte :=
  (num v2 (Kdx.num_entries k) ++ sized v2 wide (Kdx.first_word k)
   ++ sized v2 wide (Kdx.last_word k) ++ num v2 (Kdx.comp_size k)
   ++ num v2 (Kdx.decomp_size k))%list.

(** A text the decoders of the model handle and a terminator cannot cut:
    ASCII (below 256 when the units are wide) and free of NUL. *)
Definition plain (wide : bool) (s : string) : bool :=
  forallb (fun b => negb (Byte.to_N b =? 0)%N
                    && (wide || (Byte.to_N b <? 128)%N))
    (list_byte_of_string s).

End Wire.

(** ** Vocabulary of the round trips

    What the statements on stored bytes speak of: the bytes ahead of the
    cursor, the widths of the fields, and the sections as a writer lays
    them out. *)

(** [ahead s l]: the bytes [l] start at the cursor of [s]. *)
Definition ahead (s : Scan.t) (l : list byte) : Prop :=
  exists pre post,
    Scan.buf s = (pre ++ l ++ post)%list
    /\ Scan.offset s = Z.of_nat (List.length pre).

(** The width of a number in a file of the given version. *)
Definition numWidth (v2 : bool) : Z := if v2 then 8 else 4.

Module Layout.

Definition spread (wide : bool) (l : list byte) : list byte :=
  flat_map (fun b => if wide then [b; x00] else [b]) l.

Definition stop (wide : bool) : list byte :=
  if wide then [x00; x00] else [x00].

Definition unit (wide : bool) : Z := if wide then 2 else 1.

Definition shortWidth (v2 : bool) : Z := if v2 then 2 else 1.

Definition shortBound (v2 : bool) : Z := if v2 then 2 ^ 16 else 2 ^ 8.

Definition tailBytes (v2 wide : bool) : list byte :=
  if v2 then (if wide then [x00; x00] else [x00]) else [].

End Layout.

(** What a key block may hold for the round trip: words the decoder
    handles, record offsets that fit in 32 bits. *)
Definition storable (wide : bool) (e : string * Z) : Prop :=
  Wire.plain wide (fst e) = true /\ 0 <= snd e < 2 ^ 32.

Definition keyBlockBytes (v2 wide : bool) (raw : list (string * Z))
  : list byte :=
  List.concat (map (Wire.entry v2 wide) raw).

(** The record block index as the file stores it: for every block its
    compressed and its decompressed size. *)
Definition recordIndexBytes (v2 : bool) (szs : list (Z * Z)) : list byte :=
  List.concat (map (fun p => (Wire.num v2 (fst p) ++ Wire.num v2 (snd p))%list)
                 szs).

(** The offsets the sizes add up to, from the pair ([p0], [p1]) on and
    with the closing pair, as 32-bit unsigned values. *)
Fixpoint offsetsFrom (p0 p1 : Z) (szs : list (Z * Z)) : list Z :=
  match szs with
  | [] => [p0 mod 2 ^ 32; p1 mod 2 ^ 32]
  | (c, d) :: r => p0 mod 2 ^ 32 :: p1 mod 2 ^ 32 :: offsetsFrom (p0 + c) (p1 + d) r
  end.

Definition sizesFit (p : Z * Z) : Prop :=
  0 <= fst p < 2 ^ 32 /\ 0 <= snd p < 2 ^ 32.

(** The [offset] fields of an index are the running sums of the
    [comp_size] fields, from [off] on. *)
Fixpoint chainedFrom (off : Z) (ks : list Kdx.t) : bool :=
  match ks with
  | [] => true
  | k :: r => (Kdx.offset k =? off) && chainedFrom (off + Kdx.comp_size k) r
  end.

(** What an index entry may hold for the round trip. *)
Definition kdxFits (v2 wide : bool) (k : Kdx.t) : Prop :=
  0 <= Kdx.num_entries k < 2 ^ 32
  /\ 0 <= Kdx.comp_size k < 2 ^ 32
  /\ 0 <= Kdx.decomp_size k < 2 ^ 32
  /\ Wire.plain wide (Kdx.first_word k) = true
  /\ Wire.plain wide (Kdx.last_word k) = true
  /\ Z.of_nat (String.length (Kdx.first_word k)) < Layout.shortBound v2
  /\ Z.of_nat (String.length (Kdx.last_word k)) < Layout.shortBound v2.

Definition keywordIndexBytes (v2 wide : bool) (ks : list Kdx.t) : list byte :=
  List.concat (map (Wire.kdx v2 wide) ks).

(** ** The writer's side of the keyword-index cipher *)

Module Cipher.
Import Crypt.

(** The nibble swap of [decrypt], on a byte and before the store cuts it to
    eight bits. *)
Definition swap (x : Z) : Z := Z.lor (Z.shiftr x 4) (Z.shiftl x 4).

Definition keyAt (key : list byte) (i : Z) : Z :=
  match at_ key (i mod Z.of_nat (List.length key)) with
  | Some kb => byteZ kb
  | None => 0
  end.

(** The writer's side of the cipher: each plain byte is mixed with the
    previous cipher byte, the index and the digest, then its nibbles are
    swapped. *)
Fixpoint encryptLoop (key : list byte) (prev : Z) (i : Z) (plain : list byte)
  : list byte :=
  match plain with
  | [] => []
  | p :: r =>
      let x := Z.lxor (Z.lxor (Z.lxor (byteZ p) prev) (Z.land i 255))
                 (keyAt key i) in
      let c := zByte (swap x) in
      c :: encryptLoop key (byteZ c) (i + 1) r
  end.

Definition encrypt (ripemd128 : list byte -> list byte) (buf key : list byte)
  : list byte :=
  encryptLoop (ripemd128 key) 54 0 buf.

End Cipher.

(** ** Pages of [matchKeys] *)

(** What the steps of a page keep: a coherent cache, the ticket of the
    call, and a trail. *)
Definition steady (m : Mdict) (ticket : Z) (st : State) : Prop :=
  cacheCoherent m st
  /\ mutual_ticket st = ticket
  /\ exists tr, trail st = Some tr.

(** What [matchKeys] runs for a phrase without wildcards once it knows
    where to start: [start] is what [seekVanguard] or [followUp] resolved
    to. *)
Definition pageRest (m : Mdict) (phrase : string) (es : Z) (follow : bool)
  (start : Kdx.t * Z * list Key.t) : M (list Key.t) :=
  let '(kdx, idx, l0) := start in
  (let l := sliceFrom l0 idx in
   old <-- (fun s => Ok (trail s, s)) ;;
   _ <-- putTrail
           (Some {| Trail.phrase := phrase;
                    Trail.block := Kdx.index kdx;
                    Trail.offset := idx;
                    Trail.pos := Z.of_nat (List.length l);
                    Trail.count := 0;
                    Trail.total :=
                      if follow then
                        match old with
                        | Some tr => Trail.total tr
                        | None => 0
                        end
                      else 0;
                    Trail.exhausted := false |}) ;;
   l1 <-- ret l ;;
   ticket <-- bumpTicket ;;
   result <-- appendMore m (S (List.length (KEY_INDEX m))) (Js.trim phrase) l1
                (at_ (KEY_INDEX m) (Kdx.index kdx + 1)) es None ticket ;;
   tr <-- getTrail ;;
   _ <-- (if Trail.block tr =? Z.of_nat (List.length (KEY_INDEX m)) - 1
          then
            match at_ (KEY_INDEX m) (Trail.block tr) with
            | None => throw TypeError
            | Some k =>
                if Kdx.num_entries k <=? Trail.offset tr + Trail.pos tr
                then updTrail Trail.setExhausted
                else ret tt
            end
          else ret tt) ;;
   ret result)%M.

Definition expected (max : option Z) : Z :=
  Z.max (match max with Some x => x | None => 0 end) 10.

(** ** Sample inputs *)

Module Samples.

(** A version 1 header without attributes beyond the version. *)
Definition v1 : HeaderSection :=
  {| GeneratedByEngineVersion := "1.2"; Encrypted := 0;
     KeyCaseSensitive := ""; StyleSheetAttr := ""; StripKey := "";
     Encoding := None |}.

(** The scanner that [new Scan] makes of it: no Encoding, hence
    'UTF-16'. *)
Definition scanner1 : Scan.t :=
  {| Scan.v2 := false; Scan.enc := Scan.Utf16; Scan.tail := 0;
     Scan.buf := []; Scan.offset := 0 |}.

Lemma v1_scanner : Scan.new v1 = Ok scanner1.
Proof. reflexivity. Qed.




(** A version 1 scanner two bytes into a buffer that holds a number. *)
Definition onNumber : Scan.t :=
  Scan.forward 2
    (Scan.init ([xff; xfe] ++ Wire.num false 70000 ++ [x07])%list scanner1).

(** The small dictionary with a style sheet in its header. *)
Definition styled : Mdict :=
  {| parser :=
       {| headerSection := Demo.header; scan := scan Demo.state;
          keywordIndexDecryptor := false; receiver := Some utilExports;
          StyleSheet := [None; Some [" <b>"; "</b>"]]; ext := Mdx |};
     KEY_INDEX := Demo.index;
     keyBlocks := keyBlocks Demo.dict;
     RECORD_BLOCK_TABLE := Demo.table;
     recordBlocks := recordBlocks Demo.dict |}.

(** The keyword summary of the small dictionary, and stand-ins for the
    external codecs, which an uncompressed index never calls. *)
Definition summary : Keyword.t :=
  {| Keyword.num_blocks := 2; Keyword.num_entries := 4;
     Keyword.key_index_decomp_len := Some 74;
     Keyword.key_index_comp_len := 82; Keyword.key_blocks_len := 71;
     Keyword.len := 44 |}.

Definition noInflate (_ : list byte) : Res (list byte) := Unmodelled.
Definition noLzo (_ : list byte) (_ : option Z) : Res (list byte) := Unmodelled.
Definition noDigest (_ : list byte) : list byte := [].

(** The same blocks read as a resource file. *)
Definition resources : Mdict :=
  {| parser :=
       {| headerSection := Demo.header; scan := scan Demo.state;
          keywordIndexDecryptor := false; receiver := Some utilExports;
          StyleSheet := []; ext := Mdd |};
     KEY_INDEX := Demo.index;
     keyBlocks := keyBlocks Demo.dict;
     RECORD_BLOCK_TABLE := Demo.table;
     recordBlocks := recordBlocks Demo.dict |}.

(** Fourteen one-letter words in two key blocks, twelve in the first: a
    page of ten ends inside the first block or on its end. *)
Definition letters : Mdict :=
  {| parser := Demo.state;
     KEY_INDEX :=
       [ {| Kdx.num_entries := 12; Kdx.first_word := "a";
            Kdx.last_word := "l"; Kdx.comp_size := 120;
            Kdx.decomp_size := 120; Kdx.offset := 0; Kdx.index := 0 |};
         {| Kdx.num_entries := 2; Kdx.first_word := "m";
            Kdx.last_word := "n"; Kdx.comp_size := 20;
            Kdx.decomp_size := 20; Kdx.offset := 120; Kdx.index := 1 |} ];
     keyBlocks :=
       [ (0, keyBlockBytes true false
               [("a", 0); ("b", 2); ("c", 4); ("d", 6); ("e", 8); ("f", 10);
                ("g", 12); ("h", 14); ("i", 16); ("j", 18); ("k", 20);
                ("l", 22)]);
         (120, keyBlockBytes true false [("m", 24); ("n", 26)]) ];
     RECORD_BLOCK_TABLE := Demo.table;
     recordBlocks := [] |}.

Definition lettersKeys : list (list Key.t) :=
  [[Demo.key "a" 0 (Some 2); Demo.key "b" 2 (Some 2);
    Demo.key "c" 4 (Some 2); Demo.key "d" 6 (Some 2);
    Demo.key "e" 8 (Some 2); Demo.key "f" 10 (Some 2);
    Demo.key "g" 12 (Some 2); Demo.key "h" 14 (Some 2);
    Demo.key "i" 16 (Some 2); Demo.key "j" 18 (Some 2);
    Demo.key "k" 20 (Some 2); Demo.key "l" 22 None];
   [Demo.key "m" 24 (Some 2); Demo.key "n" 26 None]].

(** A query of [matchKeys] for a phrase and the default page size. *)
Definition page (phrase : string) (follow : bool) : Query :=
  QObject {| q_phrase := None; q_word := Some phrase; q_max := None;
             q_follow := follow |}.

End Samples.

(** * Properties *)

(** ** Elementary facts about outcomes and arrays *)

Lemma at_app_r {A : Type} (pre l : list A) (k : nat) :
  at_ (pre ++ l)%list (Z.of_nat (List.length pre) + Z.of_nat k) = nth_error l k.
Proof.
  unfold at_.
  destruct (Z.ltb_spec (Z.of_nat (List.length pre) + Z.of_nat k) 0) as [H|H];
    [lia|].
  replace (Z.to_nat (Z.of_nat (List.length pre) + Z.of_nat k))
    with (List.length pre + k)%nat by lia.
  rewrite nth_error_app2 by lia.
  f_equal; lia.
Qed.

Lemma append_empty_r (s : string) : s ++ "" = s.
Proof. induction s as [|c s IH]; simpl; [reflexivity | now rewrite IH]. Qed.

(** ** The key normal form (C2) *)

Section AdaptKey.

Variables (attrs : HeaderSection) (e : Ext).

(** A case-insensitive header without [StripKey] makes the normal form
    read [this.v2]; where the build passes no receiver, that read throws. *)
Lemma adaptKey_without_receiver_throws (key : string) :
  isTrue (KeyCaseSensitive attrs) = false ->
  StripKey attrs = "" ->
  adaptKeyOf None attrs e key = Throw TypeError.
Proof.
  intros Hcs Hsk. unfold adaptKeyOf, getAdaptKey.
  rewrite Hcs. unfold stripKeyOrDefault. rewrite Hsk. reflexivity.
Qed.


(** With [StripKey] present the receiver is never consulted. *)
Lemma adaptKey_with_StripKey (this : option Receiver) (key : string) :
  isTrue (KeyCaseSensitive attrs) = false ->
  StripKey attrs <> "" ->
  adaptKeyOf this attrs e key
  = Ok (if isTrue (StripKey attrs) then REGEXP_STRIPKEY e (Js.toLowerCase key)
        else Js.toLowerCase key).
Proof.
  intros Hcs Hsk. unfold adaptKeyOf, getAdaptKey.
  rewrite Hcs. unfold stripKeyOrDefault.
  destruct (String.eqb_spec (StripKey attrs) "") as [E|E]; [contradiction|].
  reflexivity.
Qed.

Lemma adaptKey_case_sensitive (this : option Receiver) (key : string) :
  isTrue (KeyCaseSensitive attrs) = true ->
  adaptKeyOf this attrs e key
  = Ok (if isTrue (StripKey attrs) then REGEXP_STRIPKEY e key else key).
Proof.
  intros Hcs. unfold adaptKeyOf, getAdaptKey. rewrite Hcs. reflexivity.
Qed.

End AdaptKey.

(** What a header that was read holds. *)
Lemma read_header_sect_Ok (this : option Receiver) (e : Ext)
  (x : list (string * string)) (len n : Z) (ps : ParserState) :
  read_header_sect this e (Some x) len = Ok (n, ps) ->
  n = len + 4
  /\ receiver ps = this
  /\ ext ps = e
  /\ GeneratedByEngineVersion (headerSection ps)
     = attrOr "GeneratedByEngineVersion" x ""
  /\ KeyCaseSensitive (headerSection ps) = attrOr "KeyCaseSensitive" x ""
  /\ StripKey (headerSection ps) = attrOr "StripKey" x ""
  /\ Encoding (headerSection ps) = attr "Encoding" x
  /\ Scan.new (headerSection ps) = Ok (scan ps)
  /\ getGlobalStyle (attrOr "StyleSheet" x "") = Ok (StyleSheet ps)
  /\ keywordIndexDecryptor ps
     = negb (Z.land (Encrypted (headerSection ps)) 2 =? 0).
Proof.
  unfold read_header_sect. intros H.
  destruct (match Js.parseInt10 (attrOr "Encrypted" x "0") with
            | Some v => Js.exact v
            | None => Ok 0
            end) as [enc| |]; cbn [bind] in H; try discriminate.
  match type of H with
  | context [Scan.new ?a] => destruct (Scan.new a) as [sc| |] eqn:Hsc
  end; cbn [bind] in H; try discriminate.
  cbn [StyleSheetAttr] in H.
  destruct (getGlobalStyle (attrOr "StyleSheet" x "")) as [style| |];
    cbn [bind] in H; try discriminate.
  injection H as <- <-.
  cbn [receiver ext headerSection scan StyleSheet keywordIndexDecryptor
       GeneratedByEngineVersion KeyCaseSensitive StripKey Encoding Encrypted].
  repeat split; try reflexivity. exact Hsc.
Qed.



(** ** Numbers of a version 2 file (C3) *)

Lemma byte_range (b : byte) : 0 <= Z.of_N (Byte.to_N b) < 256.
Proof. pose proof (Byte.to_N_bounded b). lia. Qed.

Lemma lor_below (n a b : Z) :
  0 <= n -> 0 <= a < 2 ^ n -> 0 <= b < 2 ^ n -> 0 <= Z.lor a b < 2 ^ n.
Proof.
  intros Hn Ha Hb. split; [apply Z.lor_nonneg; lia|].
  destruct (Z.eq_dec (Z.lor a b) 0) as [E|E]; [rewrite E; lia|].
  assert (0 < Z.lor a b) by (pose proof (Z.lor_nonneg a b); lia).
  apply Z.log2_lt_pow2; [lia|].
  rewrite Z.log2_lor by lia.
  assert (Hn0 : 0 < n).
  { destruct (Z.eq_dec n 0) as [->|]; [|lia].
    change (2 ^ 0) with 1 in *.
    assert (a = 0) by lia. assert (b = 0) by lia. subst. discriminate. }
  assert (La : Z.log2 a < n).
  { destruct (Z.eq_dec a 0) as [->|]; [exact Hn0|apply Z.log2_lt_pow2; lia]. }
  assert (Lb : Z.log2 b < n).
  { destruct (Z.eq_dec b 0) as [->|]; [exact Hn0|apply Z.log2_lt_pow2; lia]. }
  lia.
Qed.

Lemma be32_range (b0 b1 b2 b3 : byte) : 0 <= be32 b0 b1 b2 b3 < 2 ^ 32.
Proof.
  unfold be32.
  pose proof (byte_range b0). pose proof (byte_range b1).
  pose proof (byte_range b2). pose proof (byte_range b3).
  assert (S1 : forall x k, 0 <= x < 256 -> 0 <= k <= 24 ->
                           0 <= Z.shiftl x k < 2 ^ 32).
  { intros x k Hx Hk. rewrite Z.shiftl_mul_pow2 by lia. split; [nia|].
    replace (2 ^ 32) with (256 * 2 ^ 24) by reflexivity.
    assert (2 ^ k <= 2 ^ 24) by (apply Z.pow_le_mono_r; lia).
    assert (0 < 2 ^ k) by (apply Z.pow_pos_nonneg; lia). nia. }
  repeat apply lor_below; try lia; try (apply S1; lia).
Qed.

(** C3 (as amended).  For a version 2 scanner with eight bytes under the
    cursor, [readNum] returns the big-endian value of the last four and moves
    the cursor by eight, whatever the first four bytes are: the high word is
    stepped over, not inspected. *)
Theorem C3_readNum_v2_keeps_low_word :
  forall (sc : Scan.t) (pre post : list byte) (h0 h1 h2 h3 b0 b1 b2 b3 : byte),
    Scan.v2 sc = true ->
    Scan.buf sc = (pre ++ [h0; h1; h2; h3; b0; b1; b2; b3] ++ post)%list ->
    Scan.offset sc = Z.of_nat (List.length pre) ->
    Scan.readNum sc
    = Ok (be32 b0 b1 b2 b3, Scan.forward 4 (Scan.forward 4 sc))
    /\ 0 <= be32 b0 b1 b2 b3 < 2 ^ 32.
Proof.
  intros sc pre post h0 h1 h2 h3 b0 b1 b2 b3 Hv Hb Ho.
  split; [|apply be32_range].
  unfold Scan.readNum. rewrite Hv.
  unfold Scan.readInt, Scan.getUint32, Scan.byteAt.
  cbn [Scan.forward Scan.buf Scan.offset]. rewrite Hb, Ho.
  replace (Z.of_nat (List.length pre) + 4)
    with (Z.of_nat (List.length pre) + Z.of_nat 4) by lia.
  replace (Z.of_nat (List.length pre) + Z.of_nat 4 + 1)
    with (Z.of_nat (List.length pre) + Z.of_nat 5) by lia.
  replace (Z.of_nat (List.length pre) + Z.of_nat 4 + 2)
    with (Z.of_nat (List.length pre) + Z.of_nat 6) by lia.
  replace (Z.of_nat (List.length pre) + Z.of_nat 4 + 3)
    with (Z.of_nat (List.length pre) + Z.of_nat 7) by lia.
  rewrite !at_app_r. reflexivity.
Qed.

Lemma C3_readNum_v2_keeps_low_word_witness :
  Scan.readNum (Scan.init [xff; xff; xff; xff; x00; x00; x01; x02]
                  Demo.scanner)
  = Ok (258, Scan.forward 4
               (Scan.forward 4
                  (Scan.init [xff; xff; xff; xff; x00; x00; x01; x02]
                     Demo.scanner))).
Proof.
  exact (proj1 (C3_readNum_v2_keeps_low_word
                  (Scan.init [xff; xff; xff; xff; x00; x00; x01; x02]
                     Demo.scanner)
                  [] [] xff xff xff xff x00 x00 x01 x02
                  eq_refl eq_refl eq_refl)).
Defined.

(** C3 (as stated) fails: with high word 00 00 00 01 a version 2 scanner
    returns 5 instead of rejecting the field. *)
Lemma C3_nonzero_high_word_is_accepted :
  let sc := Scan.init [x00; x00; x00; x01; x00; x00; x00; x05]
              Demo.scanner in
  Scan.v2 sc = true
  /\ Scan.highWord sc = [x00; x00; x00; x01]
  /\ Scan.readNum sc = Ok (5, Scan.forward 8 sc).
Proof. repeat split; reflexivity. Qed.

(** ** The header (C4) *)

(** A later attribute of the same name wins. *)
Lemma attr_last (name : string) (x : list (string * string)) (n v : string) :
  attr name (x ++ [(n, v)])
  = if String.eqb n name then Some v else attr name x.
Proof.
  induction x as [|[n0 v0] x IH]; cbn [app attr].
  - reflexivity.
  - rewrite IH. destruct (String.eqb n name); [reflexivity|].
    reflexivity.
Qed.

Lemma attrOr_last (name : string) (x : list (string * string)) (n v d : string) :
  attrOr name (x ++ [(n, v)]) d
  = if String.eqb n name then v else attrOr name x d.
Proof.
  unfold attrOr. rewrite attr_last. now destruct (String.eqb n name).
Qed.

(** The scanner depends on the version and on the encoding only. *)
Lemma new_scanner_same (a b : HeaderSection) :
  GeneratedByEngineVersion a = GeneratedByEngineVersion b ->
  Encoding a = Encoding b ->
  Scan.new a = Scan.new b.
Proof. intros Hv He. unfold Scan.new. now rewrite Hv, He. Qed.

Lemma bit_of_value_2 (v : Z) : negb (Z.land v 2 =? 0) = Z.testbit v 1.
Proof.
  change 2 with (2 ^ 1). rewrite Z.land_comm.
  destruct (Z.testbit v 1) eqn:T.
  - destruct (Z.eqb_spec (Z.land (2 ^ 1) v) 0) as [E|E]; [|reflexivity].
    exfalso. assert (B : Z.testbit (Z.land (2 ^ 1) v) 1 = true).
    { rewrite Z.land_spec, Z.pow2_bits_true by lia. now rewrite T. }
    rewrite E in B. rewrite Z.bits_0 in B. discriminate.
  - destruct (Z.eqb_spec (Z.land (2 ^ 1) v) 0) as [E|E]; [reflexivity|].
    exfalso. apply E. apply Z.bits_inj'. intros n Hn.
    rewrite Z.land_spec, Z.bits_0.
    destruct (Z.eq_dec n 1) as [->|Hn1].
    + now rewrite T, andb_false_r.
    + rewrite Z.pow2_bits_false by lia. reflexivity.
Qed.

(** C4 (as amended).  The Encrypted attribute never makes header parsing
    fail.  When a header is read, the same header with Encrypted set to any
    text is read too, "1" and "3" included (the number that [parseInt]
    makes of the text, 0 for a text that is no number, being at most 2^53
    in magnitude, where a double holds it exactly): the scanner and the
    style sheet are the same, and the keyword-index decryptor is installed
    exactly when the bit of value 2 of that number is set. *)
Theorem C4_header_parsing_ignores_header_encryption :
  forall (this : option Receiver) (e : Ext) (x : list (string * string))
         (len n0 : Z) (ps0 : ParserState) (s : string),
    read_header_sect this e (Some x) len = Ok (n0, ps0) ->
    Z.abs (match Js.parseInt10 s with Some z => z | None => 0 end)
    <= 2 ^ 53 ->
    exists ps,
      read_header_sect this e (Some (x ++ [("Encrypted", s)])%list) len
      = Ok (len + 4, ps)
      /\ Encrypted (headerSection ps)
         = match Js.parseInt10 s with Some z => z | None => 0 end
      /\ keywordIndexDecryptor ps = Z.testbit (Encrypted (headerSection ps)) 1
      /\ scan ps = scan ps0
      /\ StyleSheet ps = StyleSheet ps0.
Proof.
  intros this e x len n0 ps0 s Hread Hv.
  destruct (read_header_sect_Ok _ _ _ _ _ _ Hread)
    as (_ & _ & _ & Hgv & _ & _ & Hen & Hsc & Hst & _).
  set (v := match Js.parseInt10 s with Some z => z | None => 0 end) in *.
  unfold read_header_sect.
  rewrite !attrOr_last, attr_last. cbn [String.eqb Ascii.eqb Bool.eqb].
  assert (Hp : match Js.parseInt10 s with
               | Some z => Js.exact z
               | None => Ok 0
               end = Ok v).
  { unfold v in *. destruct (Js.parseInt10 s) as [z|]; [|reflexivity].
    unfold Js.exact. destruct (Z.leb_spec (Z.abs z) (2 ^ 53)); [reflexivity|].
    lia. }
  rewrite Hp. cbn [bind].
  match goal with
  | |- context [Scan.new ?a] =>
      rewrite (new_scanner_same a (headerSection ps0))
        by (cbn [GeneratedByEngineVersion Encoding]; congruence)
  end.
  rewrite Hsc. cbn [bind StyleSheetAttr]. rewrite Hst. cbn [bind].
  eexists. split; [reflexivity|].
  cbn [headerSection Encrypted keywordIndexDecryptor scan StyleSheet].
  repeat split. apply bit_of_value_2.
Qed.

Lemma C4_header_parsing_ignores_header_encryption_witness :
  exists ps,
    read_header_sect (Some utilExports) Mdx
      (Some (Demo.xml ++ [("Encrypted", "3")])%list) 1024
    = Ok (1024 + 4, ps)
    /\ Encrypted (headerSection ps)
       = match Js.parseInt10 "3" with Some z => z | None => 0 end
    /\ keywordIndexDecryptor ps = Z.testbit (Encrypted (headerSection ps)) 1
    /\ scan ps = scan Demo.state
    /\ StyleSheet ps = StyleSheet Demo.state.
Proof.
  apply (C4_header_parsing_ignores_header_encryption (Some utilExports) Mdx
           Demo.xml 1024 1028 Demo.state "3").
  - reflexivity.
  - vm_compute. discriminate.
Defined.

(** C4 (as stated) fails: with Encrypted="1", and with Encrypted="3", the
    header is accepted. *)
Lemma C4_encrypted_header_is_accepted :
  (exists ps, read_header_sect (Some utilExports) Mdx
                (Some [("Encrypted", "1")]) 100
              = Ok (104, ps)
              /\ Encrypted (headerSection ps) = 1
              /\ keywordIndexDecryptor ps = false)
  /\ (exists ps, read_header_sect (Some utilExports) Mdx
                   (Some [("Encrypted", "3")]) 100
                 = Ok (104, ps)
                 /\ Encrypted (headerSection ps) = 3
                 /\ keywordIndexDecryptor ps = true).
Proof. split; eexists; repeat split; reflexivity. Qed.

(** What does stop the header: an Encoding that no decoder has is the
    RangeError of [new Scan], raised before the style sheet is looked at.
    A label of UTF-16LE other than 'UTF-16', and an Encrypted number beyond
    2^53, are where the embedding declines. *)
Example unknown_encoding_is_a_RangeError :
  forall (this : option Receiver) (e : Ext) (len : Z),
    read_header_sect this e
      (Some [("Encoding", "FOO"); ("Encrypted", "2")]) len
    = Throw RangeError.
Proof. reflexivity. Qed.

Example other_encodings_are_declined :
  read_header_sect None Mdx (Some [("Encoding", "UTF-16LE")]) 100
  = Unmodelled
  /\ read_header_sect None Mdx (Some [("Encoding", "latin1")]) 100
     = Unmodelled
  /\ read_header_sect None Mdx
       (Some [("Encrypted", "18446744073709551618")]) 100
     = Unmodelled.
Proof. repeat split; reflexivity. Qed.

(** ** Style sheets (C6) *)

Lemma split_without_separator (sep : ascii) (s : string) :
  Js.contains sep s = false -> Js.split sep s = [s].
Proof.
  induction s as [|c s IH]; simpl; [reflexivity|].
  intros H. apply orb_false_elim in H. destruct H as [Hc Hs].
  rewrite Hc, (IH Hs). reflexivity.
Qed.

Lemma split_at_separator (sep : ascii) (a b : string) :
  Js.contains sep a = false ->
  Js.split sep (a ++ String sep b) = a :: Js.split sep b.
Proof.
  induction a as [|c a IH]; simpl.
  - intros _. now rewrite Ascii.eqb_refl.
  - intros H. apply orb_false_elim in H. destruct H as [Hc Ha].
    rewrite Hc, (IH Ha). reflexivity.
Qed.

(** C6 (as amended).  The style sheet "1 <b> 2 <i> /i /b" gives entry 1 the
    single element " <b>" (a prefix with its leading space, no suffix) and
    entry 2 the elements " <i>", "/i", "/b".  For a table whose entry N
    starts with a prefix p and a part s, the span `N`text expands to
    p + text + s. *)
Theorem C6_style_table_and_tagged_span :
  getGlobalStyle "1 <b> 2 <i> /i /b"
  = Ok [None; Some [" <b>"]; Some [" <i>"; "/i"; "/b"]]
  /\ forall (style : StyleTable) (tag text p s : string) (parts : list string)
            (n : Z),
      Js.Number tag = Js.Int n ->
      n <> 0 ->
      Js.contains "`" tag = false ->
      Js.contains "`" text = false ->
      at_ style n = Some (Some (p :: s :: parts)) ->
      parseRes (String "`" (tag ++ String "`" text)) style
      = Ok (p ++ text ++ s).
Proof.
  split; [reflexivity|].
  intros style tag text p s parts n Hnum Hn Htag Htext Hent.
  unfold parseRes.
  change (String "`" (tag ++ String "`" text))
    with ("" ++ String "`" (tag ++ String "`" text)).
  rewrite split_at_separator by reflexivity.
  rewrite (split_at_separator _ _ _ Htag).
  rewrite (split_without_separator _ _ Htext).
  cbn [parseSegs String.eqb].
  assert (Hne : String.eqb tag "" = false).
  { destruct tag; [|reflexivity].
    cbv in Hnum. inversion Hnum. congruence. }
  rewrite Hne, Hnum.
  destruct (Z.eqb_spec n 0) as [|_]; [contradiction|].
  rewrite Hent. cbn [parseSegs bind nth_error Js.show].
  now rewrite append_empty_r.
Qed.

Lemma C6_style_table_and_tagged_span_witness :
  parseRes "`1`bold" [None; Some [" <b>"; "</b>"]] = Ok " <b>bold</b>".
Proof.
  exact (proj2 C6_style_table_and_tagged_span
           [None; Some [" <b>"; "</b>"]] "1" "bold" " <b>" "</b>" [] 1
           eq_refl ltac:(discriminate) eq_refl eq_refl eq_refl).
Defined.

(** C6 (as stated) fails: entry 1 of the table is not the pair
    ('<b>', '</b>'), and the definition expands to text in which "see " is
    gone and the missing suffix reads "undefined". *)
Lemma C6_scenario_output_differs :
  getGlobalStyle "1 <b> 2 <i> /i /b"
  = Ok [None; Some [" <b>"]; Some [" <i>"; "/i"; "/b"]]
  /\ parseRes "see `1`bold`1` word"
       [None; Some [" <b>"]; Some [" <i>"; "/i"; "/b"]]
     = Ok " <b>boldundefined <b> wordundefined"
  /\ " <b>boldundefined <b> wordundefined" <> "see <b>bold</b> word".
Proof. repeat split; try reflexivity. discriminate. Qed.

(** ** Filtering by offset (C5) *)

Lemma someLoop_never_hits (offset : Z) (els l : list Key.t) :
  fst (someLoop offset l els) = false.
Proof.
  revert l. induction els as [|el r IH]; intros l; simpl; [reflexivity|].
  apply IH.
Qed.

(** [matchOffset] returns the empty list on every input. *)
Lemma matchOffset_is_empty (l : list Key.t) (offset : Z) :
  matchOffset l offset = [].
Proof.
  unfold matchOffset.
  pose proof (someLoop_never_hits offset l l) as H.
  destruct (someLoop offset l l) as [hit l']. simpl in H. now rewrite H.
Qed.

(** C5.  In the demo dictionary the tail matched by "cat" holds the entry
    of offset 16, and [getWordList("cat", 16)] resolves to the empty list
    where the specification expects that one entry. *)
Theorem C5_explicit_offset_yields_empty_list :
  exists st st',
    getWordList Demo.dict (QString "cat") None fresh
    = Ok (Words [Demo.key "cat" 16 (Some 15); Demo.key "feline" 31 None], st)
    /\ getWordList Demo.dict (QString "cat") (Some 16) fresh
       = Ok (Words [], st').
Proof. do 2 eexists. split; reflexivity. Qed.

(** ** Links (C1) *)

(** A definition that starts with the link marker resolves to what [mdx]
    resolves to, a list of entries. *)
Lemma redirects_link_gives_entries (m : Mdict) (d : string) (st st' : State)
  (r : Resolved) :
  Js.substrTo 8 d = "@@@LINK=" ->
  redirects m d st = Ok (r, st') ->
  exists l, r = WordList l.
Proof.
  intros Hp. unfold redirects. rewrite Hp, String.eqb_refl. cbn [negb].
  unfold mbind, ret.
  destruct (mdx m (QString (Js.substringFrom 8 d)) None st) as [[l s]| |];
    intros H; inversion H. now exists l.
Qed.

(** C1.  In the demo dictionary the record of cat (offset 16) is
    "@@@LINK=feline" and the record of feline (offset 31) is "a cat":
    [getDefinition(16)] resolves to the list of entries from feline
    onward, where the specification expects the text "a cat". *)
Theorem C1_link_resolves_to_word_entries :
  exists st,
    getDefinition Demo.dict 16 fresh
    = Ok (WordList [Demo.key "feline" 31 None], st)
    /\ getDefinition Demo.dict 31 fresh = Ok (Text "a cat", fresh)
    /\ readDefinition Demo.dict
         {| block_no := 0; comp_offset := 2048; comp_size := 45;
            decomp_offset := 0; decomp_size := 37 |} 16
       = Ok "@@@LINK=feline".
Proof. eexists. repeat split; reflexivity. Qed.

(** ** Paged enumeration (C9) *)

(** C9.  The demo dictionary stores apple and apply.  With the query object
    {phrase: "app*", follow: true} [mdx] passes the absent property [word]
    to [matchKeys], which throws a TypeError; with the pattern supplied as
    [word], the filter tests the entry objects instead of their words, no
    entry passes, and the call resolves to the empty list with the trail
    marked exhausted.  The specification expects the page (apple, apply). *)
Theorem C9_wildcard_pages_miss_the_matches :
  getWordList Demo.dict
    (QObject {| q_phrase := Some "app*"; q_word := None; q_max := None;
                q_follow := true |}) None fresh
  = Throw TypeError
  /\ exists st tr,
      getWordList Demo.dict
        (QObject {| q_phrase := None; q_word := Some "app*"; q_max := None;
                    q_follow := true |}) None fresh
      = Ok (Words [], st)
      /\ trail st = Some tr
      /\ Trail.exhausted tr = true
      /\ Trail.total tr = 0
      /\ decodeKeys Demo.dict
           {| Kdx.num_entries := 2; Kdx.first_word := "apple";
              Kdx.last_word := "apply"; Kdx.comp_size := 36;
              Kdx.decomp_size := 28; Kdx.offset := 0; Kdx.index := 0 |}
         = Ok [Demo.key "apple" 0 (Some 6); Demo.key "apply" 6 None].
Proof. split; [reflexivity|]. do 2 eexists. repeat split; reflexivity. Qed.

(** ** Searching the record block table (C7) *)

Module FindProof.
Import RecordBlockTable.

Lemma at_inside (a : list Z) (k : Z) :
  0 <= k < Z.of_nat (List.length a) ->
  at_ a k = Some (nth (Z.to_nat k) a 0).
Proof.
  intros H. unfold at_.
  destruct (Z.ltb_spec k 0); [lia|].
  apply nth_error_nth'. lia.
Qed.

Lemma half (x : Z) : Z.shiftr x 1 = x / 2.
Proof. now rewrite Z.shiftr_div_pow2 by lia. Qed.

Lemma twice (x : Z) : Z.shiftl x 1 = 2 * x.
Proof. rewrite Z.shiftl_mul_pow2 by lia. change (2 ^ 1) with 2. lia. Qed.

Section Table.

Variables (a : list Z) (N : Z) (p : Z).
Hypothesis Hlen : Z.of_nat (List.length a) = 2 * (N + 1).
Hypothesis Hasc :
  forall i, 0 <= i < N -> decompAt a i <= decompAt a (i + 1).

Lemma decomp_monotone (i j : Z) :
  0 <= i -> i <= j -> j <= N -> decompAt a i <= decompAt a j.
Proof.
  intros Hi Hij Hj.
  replace j with (i + Z.of_nat (Z.to_nat (j - i))) in * by lia.
  induction (Z.to_nat (j - i)) as [|k IH].
  - replace (i + Z.of_nat 0) with i by lia. lia.
  - replace (i + Z.of_nat (S k)) with (i + Z.of_nat k + 1) in * by lia.
    etransitivity; [apply IH; lia|]. apply Hasc. lia.
Qed.

Lemma val_inside (i : Z) :
  0 <= i <= N -> at_ a (Z.shiftl i 1 + 1) = Some (decompAt a i).
Proof.
  intros Hi. rewrite twice, at_inside by lia. reflexivity.
Qed.

Lemma descriptor_inside (i : Z) :
  0 <= i < N -> descriptor a i = Ok (Some (blockOf a i)).
Proof.
  intros Hi. unfold descriptor. rewrite twice.
  rewrite !at_inside by lia.
  unfold blockOf, compAt, decompAt.
  replace (Z.to_nat (2 * i + 2)) with (Z.to_nat (2 * (i + 1))) by lia.
  replace (Z.to_nat (2 * i + 3)) with (Z.to_nat (2 * (i + 1) + 1)) by lia.
  reflexivity.
Qed.

(** The loop keeps [decomp lo <= p] and [p < decomp hi] (or [hi = N])
    and ends on the block [lo] with [hi = lo + 1]. *)
Lemma findLoop_lands (fuel : nat) :
  forall lo hi,
    0 <= lo -> lo < hi -> hi <= N ->
    decompAt a lo <= p ->
    (hi = N \/ p < decompAt a hi) ->
    hi - lo <= Z.of_nat fuel ->
    exists i,
      0 <= i < N /\ decompAt a i <= p
      /\ (i + 1 = N \/ p < decompAt a (i + 1))
      /\ findLoop fuel a p lo hi (Z.shiftr (lo + hi) 1)
           (at_ a (Z.shiftl (Z.shiftr (lo + hi) 1) 1 + 1))
         = Ok (Some (blockOf a i)).
Proof.
  induction fuel as [|fuel IH]; intros lo hi Hlo Hlt Hhi Hd Hu Hf.
  - lia.
  - set (i := Z.shiftr (lo + hi) 1).
    assert (Ei : i = (lo + hi) / 2) by apply half.
    cbn [findLoop].
    destruct (Z.leb_spec (hi - lo) 1) as [L|L].
    + assert (hi = lo + 1) by lia. subst hi.
      assert (i = lo).
      { rewrite Ei. replace (lo + (lo + 1)) with (1 + lo * 2) by lia.
        rewrite Z.div_add by lia. reflexivity. }
      destruct (Z.ltb_spec i (lo + 1)); [|lia].
      exists lo. split; [lia|]. split; [exact Hd|]. split; [exact Hu|].
      replace i with lo by lia. apply descriptor_inside. lia.
    + assert (Bi : lo < i < hi).
      { rewrite Ei.
        pose proof (Z.div_mod (lo + hi) 2 ltac:(lia)).
        pose proof (Z.mod_pos_bound (lo + hi) 2 ltac:(lia)). lia. }
      rewrite (val_inside i) by lia. cbn [ltU].
      destruct (Z.ltb_spec p (decompAt a i)) as [C|C].
      * apply IH; try lia.
      * apply IH; try lia.
Qed.

End Table.

End FindProof.

(** C7 (as amended).  For a table of [N >= 1] record blocks and the closing
    pair, with non-decreasing decompressed offsets starting at 0, and every
    integer [p]: [find(p)] is none exactly when [p] is negative or above the
    last decompressed offset; otherwise it is the descriptor of the largest
    block index [i < N] with [decomp_offset[i] <= p], its sizes taken from
    the next pair (so the last offset itself belongs to block [N - 1]). *)
Theorem C7_find_locates_the_enclosing_block :
  forall (tb : RecordBlockTable.t) (a : list Z) (N p : Z),
    RecordBlockTable.arr tb = Some a ->
    Z.of_nat (List.length a) = 2 * (N + 1) ->
    1 <= N ->
    RecordBlockTable.decompAt a 0 = 0 ->
    (forall i, 0 <= i < N ->
               RecordBlockTable.decompAt a i
               <= RecordBlockTable.decompAt a (i + 1)) ->
    (RecordBlockTable.find p tb = Ok None
     <-> p < 0 \/ RecordBlockTable.decompAt a N < p)
    /\ (0 <= p <= RecordBlockTable.decompAt a N ->
        exists i,
          0 <= i < N
          /\ RecordBlockTable.decompAt a i <= p
          /\ (forall j, 0 <= j < N ->
                        RecordBlockTable.decompAt a j <= p -> j <= i)
          /\ RecordBlockTable.find p tb
             = Ok (Some (blockOf a i))).
Proof.
  intros tb a N p Harr Hlen HN H0 Hasc.
  assert (Hhi : Z.shiftr (Z.of_nat (List.length a)) 1 - 1 = N).
  { rewrite FindProof.half, Hlen.
    replace (2 * (N + 1)) with ((N + 1) * 2) by lia.
    rewrite Z.div_mul by lia. lia. }
  assert (Inside :
            0 <= p <= RecordBlockTable.decompAt a N ->
            exists i,
              0 <= i < N
              /\ RecordBlockTable.decompAt a i <= p
              /\ (forall j, 0 <= j < N ->
                            RecordBlockTable.decompAt a j <= p -> j <= i)
              /\ RecordBlockTable.find p tb
                 = Ok (Some (blockOf a i))).
  { intros Hp. unfold RecordBlockTable.find. rewrite Harr, Hhi.
    rewrite (FindProof.val_inside a N Hlen N) by lia.
    cbn [RecordBlockTable.gtU].
    destruct (Z.ltb_spec (RecordBlockTable.decompAt a N) p); [lia|].
    destruct (Z.ltb_spec p 0); [lia|]. cbn [orb].
    destruct (FindProof.findLoop_lands a N p Hlen (List.length a) 0 N)
      as (i & Hi & Hd & Hu & Hf); try lia.
    exists i. repeat split; try lia.
    - intros j Hj Hdj.
      destruct (Z.le_gt_cases j i) as [|G]; [assumption|].
      destruct Hu as [Hu|Hu]; [lia|].
      pose proof (FindProof.decomp_monotone a N Hasc (i + 1) j). lia.
    - exact Hf. }
  split; [|exact Inside].
  split.
  - intros Hn.
    destruct (Z.lt_ge_cases p 0) as [|Hp0]; [now left|].
    destruct (Z.lt_ge_cases (RecordBlockTable.decompAt a N) p) as [|HpN];
      [now right|].
    destruct Inside as (i & _ & _ & _ & Hf); [lia|].
    rewrite Hf in Hn. discriminate.
  - intros Hout. unfold RecordBlockTable.find. rewrite Harr, Hhi.
    rewrite (FindProof.val_inside a N Hlen N) by lia.
    cbn [RecordBlockTable.gtU].
    destruct (Z.ltb_spec (RecordBlockTable.decompAt a N) p);
      destruct (Z.ltb_spec p 0); cbn [orb]; try reflexivity. lia.
Qed.

Lemma C7_find_locates_the_enclosing_block_witness :
  (RecordBlockTable.find 16 Demo.table = Ok None
   <-> 16 < 0 \/ RecordBlockTable.decompAt [2048; 0; 2093; 37] 1 < 16)
  /\ (0 <= 16 <= RecordBlockTable.decompAt [2048; 0; 2093; 37] 1 ->
      exists i,
        0 <= i < 1
        /\ RecordBlockTable.decompAt [2048; 0; 2093; 37] i <= 16
        /\ (forall j, 0 <= j < 1 ->
                      RecordBlockTable.decompAt [2048; 0; 2093; 37] j <= 16 ->
                      j <= i)
        /\ RecordBlockTable.find 16 Demo.table
           = Ok (Some (blockOf [2048; 0; 2093; 37] i))).
Proof.
  apply (C7_find_locates_the_enclosing_block
           Demo.table [2048; 0; 2093; 37] 1 16 eq_refl eq_refl).
  - lia.
  - reflexivity.
  - intros i Hi. assert (i = 0) by lia. subst i. vm_compute. discriminate.
Defined.

(** C7 (as stated) fails for a file without record blocks: the table holds
    the closing pair alone, position 0 is neither negative nor above the
    last decompressed offset 0, and [find(0)] is none.  (In the demo table
    the last offset, 37, is found in block 0 although the largest index [i]
    with [decomp_offset[i] <= 37] is that of the closing pair.) *)
Lemma C7_empty_table_finds_nothing :
  read_record_block Demo.scanner [] 0 2048
  = Ok {| RecordBlockTable.pos := 2; RecordBlockTable.arr := Some [2048; 0] |}
  /\ RecordBlockTable.decompAt [2048; 0] 0 = 0
  /\ RecordBlockTable.find 0
       {| RecordBlockTable.pos := 2; RecordBlockTable.arr := Some [2048; 0] |}
     = Ok None
  /\ RecordBlockTable.decompAt [2048; 0; 2093; 37] 1 = 37
  /\ RecordBlockTable.find 37 Demo.table
     = Ok (Some (blockOf [2048; 0; 2093; 37] 0)).
Proof. repeat split; reflexivity. Qed.

(** ** The two-tier search *)

Lemma div2_bounds (n : nat) :
  (1 < n)%nat -> (1 <= Nat.div2 n)%nat /\ (Nat.div2 n < n)%nat.
Proof.
  intros H. rewrite Nat.div2_div.
  pose proof (Nat.div_mod_eq n 2).
  pose proof (Nat.mod_upper_bound n 2 ltac:(lia)). lia.
Qed.

Lemma Forall_skipn_keep {A : Type} (P : A -> Prop) (n : nat) (l : list A) :
  Forall P l -> Forall P (skipn n l).
Proof.
  intros H. rewrite <- (firstn_skipn n l) in H.
  apply Forall_app in H. tauto.
Qed.

Lemma Forall_firstn_keep {A : Type} (P : A -> Prop) (n : nat) (l : list A) :
  Forall P l -> Forall P (firstn n l).
Proof.
  intros H. rewrite <- (firstn_skipn n l) in H.
  apply Forall_app in H. tauto.
Qed.

Lemma Forall_nth_error {A : Type} (P : A -> Prop) (l : list A) (n : nat) (x : A) :
  Forall P l -> nth_error l n = Some x -> P x.
Proof.
  intros H E. rewrite Forall_forall in H. apply H.
  eapply nth_error_In; eassumption.
Qed.

Section SearchProof.

Variable m : Mdict.
Variable f : string -> string.
Hypothesis Hf : forall k, adaptKey m k = Ok (f k).
Variable phrase : string.

Lemma reduce_step (fuel : nat) (arr : list Kdx.t) :
  reduce m (S fuel) arr phrase
  = if (1 <? List.length arr)%nat then
      match nth_error arr (Nat.div2 (List.length arr) - 1) with
      | None => Throw TypeError
      | Some k =>
          key <- adaptKey m (Kdx.last_word k) ;;
          if Js.gt phrase key
          then reduce m fuel (skipn (Nat.div2 (List.length arr)) arr) phrase
          else reduce m fuel (firstn (Nat.div2 (List.length arr)) arr) phrase
      end
    else Ok (nth_error arr 0).
Proof. reflexivity. Qed.

(** [reduce] returns the first block whose adapted [last_word] is not
    below the phrase. *)
Lemma reduce_lands (fuel : nat) :
  forall (A : list Kdx.t) (k : Kdx.t) (B : list Kdx.t),
    (List.length (A ++ k :: B) <= fuel)%nat ->
    Forall (fun x => behind f phrase x = true) A ->
    behind f phrase k = false ->
    Forall (fun x => behind f phrase x = false) B ->
    reduce m fuel (A ++ k :: B)%list phrase = Ok (Some k).
Proof.
  induction fuel as [|fuel IH]; intros A k B Hlen HA Hk HB.
  - rewrite length_app in Hlen. simpl in Hlen. lia.
  - rewrite reduce_step.
    destruct (Nat.ltb_spec 1 (List.length (A ++ k :: B))) as [L|L].
    + destruct (div2_bounds _ L) as [H1 H2].
      set (h := Nat.div2 (List.length (A ++ k :: B))) in *.
      rewrite length_app in Hlen, H2. simpl in Hlen, H2.
      destruct (Nat.lt_ge_cases (h - 1) (List.length A)) as [C|C].
      * rewrite nth_error_app1 by exact C.
        destruct (nth_error A (h - 1)) as [x|] eqn:Ex;
          [|apply nth_error_None in Ex; lia].
        rewrite Hf. cbn [bind]. unfold Js.gt.
        pose proof (Forall_nth_error _ _ _ _ HA Ex) as Px.
        unfold behind in Px. rewrite Px.
        rewrite skipn_app.
        replace (h - List.length A)%nat with 0%nat by lia.
        cbn [skipn]. apply IH; try assumption.
        -- rewrite length_app, length_skipn. simpl. lia.
        -- now apply Forall_skipn_keep.
      * rewrite nth_error_app2 by exact C.
        destruct (nth_error (k :: B) (h - 1 - List.length A)) as [y|] eqn:Ey;
          [|apply nth_error_None in Ey; simpl in Ey; lia].
        rewrite Hf. cbn [bind]. unfold Js.gt.
        assert (Py : behind f phrase y = false).
        { eapply (Forall_nth_error (fun x => behind f phrase x = false));
            [|exact Ey]. now constructor. }
        unfold behind in Py. rewrite Py.
        rewrite firstn_app, firstn_all2 by lia.
        destruct (h - List.length A)%nat as [|j] eqn:Ej; [lia|].
        cbn [firstn]. apply IH; try assumption.
        -- rewrite length_app. simpl. rewrite length_firstn. lia.
        -- now apply Forall_firstn_keep.
    + rewrite length_app in L. simpl in L.
      destruct A as [|a A]; [|simpl in L; lia].
      destruct B as [|b B]; [|simpl in L; lia].
      reflexivity.
Qed.

Lemma shrink_step (fuel : nat) (arr : list Key.t) (pos : nat) :
  shrink m (S fuel) arr pos phrase
  = if (1 <? List.length arr)%nat then
      match nth_error arr (Nat.div2 (List.length arr)) with
      | None => Throw TypeError
      | Some e =>
          key <- adaptKey m (Key.word e) ;;
          if Js.lt phrase key
          then shrink m fuel (firstn (Nat.div2 (List.length arr)) arr) pos phrase
          else shrink m fuel (skipn (Nat.div2 (List.length arr)) arr)
                 (pos + Nat.div2 (List.length arr)) phrase
      end
    else
      match nth_error arr 0 with
      | None => Throw TypeError
      | Some e =>
          key <- adaptKey m (Key.word e) ;;
          Ok (pos + (if Js.le phrase key then 0 else 1))%nat
      end.
Proof. reflexivity. Qed.

(** On a block cut as [A ++ z :: B], with [A] and [z] not beyond the
    phrase, [z] adapting to the phrase and [B] beyond it, [shrink] returns
    the position of [z]. *)
Lemma shrink_lands (fuel : nat) :
  forall (A : list Key.t) (z : Key.t) (B : list Key.t) (pos : nat),
    (List.length (A ++ z :: B) <= S fuel)%nat ->
    Forall (fun x => beyond f phrase x = false) A ->
    f (Key.word z) = phrase ->
    Forall (fun x => beyond f phrase x = true) B ->
    shrink m (S fuel) (A ++ z :: B)%list pos phrase
    = Ok (pos + List.length A)%nat.
Proof.
  induction fuel as [|fuel IH]; intros A z B pos Hlen HA Hz HB.
  - rewrite length_app in Hlen. simpl in Hlen.
    destruct A as [|a A]; [|simpl in Hlen; lia].
    destruct B as [|b B]; [|simpl in Hlen; lia].
    rewrite shrink_step. cbn [List.length app Nat.ltb Nat.leb nth_error].
    rewrite Hf, Hz. cbn [bind]. rewrite Order.le_refl.
    reflexivity.
  - rewrite shrink_step.
    destruct (Nat.ltb_spec 1 (List.length (A ++ z :: B))) as [L|L].
    + destruct (div2_bounds _ L) as [H1 H2].
      set (h := Nat.div2 (List.length (A ++ z :: B))) in *.
      rewrite length_app in Hlen, H2. simpl in Hlen, H2.
      destruct (Nat.le_gt_cases h (List.length A)) as [C|C].
      * assert (Hkey : exists x, nth_error (A ++ z :: B) h = Some x
                                 /\ beyond f phrase x = false).
        { destruct (Nat.eq_dec h (List.length A)) as [E|E].
          - exists z. rewrite nth_error_app2 by lia.
            replace (h - List.length A)%nat with 0%nat by lia.
            split; [reflexivity|]. unfold beyond. rewrite Hz.
            apply Order.lt_irrefl.
          - rewrite nth_error_app1 by lia.
            destruct (nth_error A h) as [x|] eqn:Ex;
              [|apply nth_error_None in Ex; lia].
            exists x. split; [reflexivity|].
            exact (Forall_nth_error _ _ _ _ HA Ex). }
        destruct Hkey as (x & Ex & Px). rewrite Ex, Hf. cbn [bind].
        unfold beyond in Px. rewrite Px.
        rewrite skipn_app.
        replace (h - List.length A)%nat with 0%nat by lia.
        cbn [skipn]. rewrite IH; try assumption.
        -- f_equal. rewrite length_skipn. lia.
        -- rewrite length_app, length_skipn. simpl. lia.
        -- now apply Forall_skipn_keep.
      * rewrite nth_error_app2 by lia.
        destruct (h - List.length A)%nat as [|j] eqn:Ej; [lia|].
        cbn [nth_error].
        destruct (nth_error B j) as [y|] eqn:Ey;
          [|apply nth_error_None in Ey; lia].
        rewrite Hf. cbn [bind].
        pose proof (Forall_nth_error _ _ _ _ HB Ey) as Py.
        unfold beyond in Py. rewrite Py.
        rewrite firstn_app, firstn_all2 by lia. rewrite Ej.
        cbn [firstn]. apply IH; try assumption.
        -- rewrite length_app. simpl. rewrite length_firstn. lia.
        -- now apply Forall_firstn_keep.
    + rewrite length_app in L. simpl in L.
      destruct A as [|a A]; [|simpl in L; lia].
      destruct B as [|b B]; [|simpl in L; lia].
      cbn [app nth_error List.length]. rewrite Hf, Hz. cbn [bind].
      rewrite Order.le_refl. reflexivity.
Qed.

(** The walk back over equal keys stays on an entry that adapts to the
    phrase. *)
Lemma lookBackKeys_keeps (l : list Key.t) :
  f phrase = phrase ->
  forall (idx : nat) (e : Key.t),
    nth_error l idx = Some e ->
    f (Key.word e) = phrase ->
    exists idx' e',
      lookBackKeys m l phrase idx = Ok idx'
      /\ nth_error l idx' = Some e'
      /\ f (Key.word e') = phrase.
Proof.
  intros Hid idx. induction idx as [|i IH]; intros e He Hw.
  - exists 0%nat, e. repeat split; assumption.
  - cbn [lookBackKeys].
    destruct (nth_error l i) as [p|] eqn:Ep.
    + rewrite !Hf. cbn [bind]. rewrite Hid.
      destruct (String.eqb_spec (f (Key.word p)) phrase) as [E|E]; cbn [negb].
      * exact (IH p eq_refl E).
      * exists (S i), e. repeat split; assumption.
    + apply nth_error_None in Ep.
      assert (nth_error l (S i) <> None) by congruence.
      apply nth_error_Some in H. lia.
Qed.

End SearchProof.

(** ** Case folding, trimming and stripping commute *)

Module Folding.

Ltac by_cases c := destruct c as [[] [] [] [] [] [] [] []]; reflexivity.

Lemma lowerChar_idem (c : ascii) :
  Js.lowerChar (Js.lowerChar c) = Js.lowerChar c.
Proof. by_cases c. Qed.

Lemma isSpace_lowerChar (c : ascii) : Js.isSpace (Js.lowerChar c) = Js.isSpace c.
Proof. by_cases c. Qed.

Lemma stripClass_lowerChar (c : ascii) :
  stripClass (Js.lowerChar c) = stripClass c.
Proof. by_cases c. Qed.

Lemma toLowerCase_idem (s : string) :
  Js.toLowerCase (Js.toLowerCase s) = Js.toLowerCase s.
Proof.
  induction s as [|c s IH]; simpl; [reflexivity|].
  now rewrite lowerChar_idem, IH.
Qed.

Lemma trimStart_toLowerCase (s : string) :
  Js.trimStart (Js.toLowerCase s) = Js.toLowerCase (Js.trimStart s).
Proof.
  induction s as [|c s IH]; simpl; [reflexivity|].
  rewrite isSpace_lowerChar. destruct (Js.isSpace c); [exact IH | reflexivity].
Qed.

Lemma trimEnd_toLowerCase (s : string) :
  Js.trimEnd (Js.toLowerCase s) = Js.toLowerCase (Js.trimEnd s).
Proof.
  induction s as [|c s IH]; simpl; [reflexivity|].
  rewrite IH, isSpace_lowerChar.
  destruct (Js.trimEnd s); simpl; [destruct (Js.isSpace c)|]; reflexivity.
Qed.

Lemma trim_toLowerCase (s : string) :
  Js.trim (Js.toLowerCase s) = Js.toLowerCase (Js.trim s).
Proof.
  unfold Js.trim. now rewrite trimStart_toLowerCase, trimEnd_toLowerCase.
Qed.

Lemma trimEnd_idem (s : string) : Js.trimEnd (Js.trimEnd s) = Js.trimEnd s.
Proof.
  induction s as [|c s IH]; simpl; [reflexivity|].
  destruct (Js.trimEnd s) as [|d r] eqn:E.
  - destruct (Js.isSpace c) eqn:Sc; simpl; [reflexivity|]. now rewrite Sc.
  - simpl in *. rewrite IH. reflexivity.
Qed.

Lemma trimStart_clean (s : string) : startsClean (Js.trimStart s) = true.
Proof.
  induction s as [|c s IH]; simpl; [reflexivity|].
  destruct (Js.isSpace c) eqn:Sc; [exact IH|]. simpl. now rewrite Sc.
Qed.

Lemma trimEnd_clean (s : string) :
  startsClean s = true -> startsClean (Js.trimEnd s) = true.
Proof.
  destruct s as [|c s]; simpl; [reflexivity|]. intros Hc.
  destruct (Js.trimEnd s); simpl; [|exact Hc].
  destruct (Js.isSpace c) eqn:Sc; [discriminate | simpl; now rewrite Sc].
Qed.

Lemma trimStart_of_clean (s : string) :
  startsClean s = true -> Js.trimStart s = s.
Proof.
  destruct s as [|c s]; simpl; [reflexivity|].
  destruct (Js.isSpace c); [discriminate | reflexivity].
Qed.

Lemma trim_idem (s : string) : Js.trim (Js.trim s) = Js.trim s.
Proof.
  unfold Js.trim.
  rewrite (trimStart_of_clean (Js.trimEnd (Js.trimStart s))).
  - apply trimEnd_idem.
  - apply trimEnd_clean, trimStart_clean.
Qed.

(** The word that [mdx] searches for is a fixed point of the preparation. *)
Lemma prepared_idem (q : string) :
  Js.toLowerCase (Js.trim (Js.toLowerCase (Js.trim q)))
  = Js.toLowerCase (Js.trim q).
Proof. now rewrite trim_toLowerCase, trim_idem, toLowerCase_idem. Qed.

Lemma stripMdx_idem (s : string) : stripMdx (stripMdx s) = stripMdx s.
Proof.
  induction s as [|c s IH]; simpl; [reflexivity|].
  destruct (stripClass c) eqn:Sc; [exact IH|]. simpl. now rewrite Sc, IH.
Qed.

Lemma stripMdx_toLowerCase (s : string) :
  Js.toLowerCase (stripMdx s) = stripMdx (Js.toLowerCase s).
Proof.
  induction s as [|c s IH]; simpl; [reflexivity|].
  rewrite stripClass_lowerChar.
  destruct (stripClass c); simpl; now rewrite IH.
Qed.

(** The normal form of an .mdx reader is idempotent. *)
Lemma adaptKey_idem (this : option Receiver) (attrs : HeaderSection)
  (k a : string) :
  adaptKeyOf this attrs Mdx k = Ok a -> adaptKeyOf this attrs Mdx a = Ok a.
Proof.
  unfold adaptKeyOf, getAdaptKey. cbn [REGEXP_STRIPKEY].
  destruct (isTrue (KeyCaseSensitive attrs)).
  - intros H. inversion H as [E]. destruct (isTrue (StripKey attrs)).
    + now rewrite stripMdx_idem.
    + reflexivity.
  - destruct (stripKeyOrDefault this attrs) as [v| |]; cbn [bind];
      try discriminate.
    intros H. inversion H as [E]. destruct (isTrue v).
    + now rewrite stripMdx_toLowerCase, toLowerCase_idem, stripMdx_idem.
    + now rewrite toLowerCase_idem.
Qed.

End Folding.

(** ** Case-sensitive readers *)

(** With KeyCaseSensitive true and no stripping the normal form is the
    identity. *)
Lemma adaptKey_identity (m : Mdict) (k : string) :
  isTrue (KeyCaseSensitive (headerSection (parser m))) = true ->
  isTrue (StripKey (headerSection (parser m))) = false ->
  adaptKey m k = Ok k.
Proof.
  intros Hcs Hsk. unfold adaptKey.
  rewrite adaptKey_case_sensitive by exact Hcs. now rewrite Hsk.
Qed.

(** ** The first hit of a stored keyword (C8) *)

Lemma lastKey_split (b : list Key.t) (e : Key.t) :
  lastKey b = Some e -> exists b0, b = (b0 ++ [e])%list.
Proof.
  induction b as [|x b IH]; [discriminate|].
  destruct b as [|y b].
  - intros H. inversion H. now exists [].
  - intros H. destruct (IH H) as [b0 E]. exists (x :: b0).
    simpl. now rewrite <- E.
Qed.

Lemma indexedFrom_app (A : list Kdx.t) (k : Kdx.t) (B : list Kdx.t) (i : Z) :
  indexedFrom i (A ++ k :: B) = true ->
  Kdx.index k = i + Z.of_nat (List.length A).
Proof.
  revert i. induction A as [|a A IH]; intros i H; simpl in H;
    apply andb_prop in H; destruct H as [H1 H2].
  - apply Z.eqb_eq in H1. simpl. lia.
  - rewrite (IH _ H2). simpl List.length. lia.
Qed.

Lemma Forall2_In_l {A B : Type} (R : A -> B -> Prop) (l : list A) (l' : list B)
  (x : A) :
  Forall2 R l l' -> In x l -> exists y, In y l' /\ R x y.
Proof.
  induction 1 as [|a b l l' Hab _ IH]; intros Hx; [contradiction|].
  destruct Hx as [->|Hx].
  - exists b. split; [now left | assumption].
  - destruct (IH Hx) as (y & Hy & Hr). exists y. split; [now right | assumption].
Qed.

Lemma Forall2_In_r {A B : Type} (R : A -> B -> Prop) (l : list A) (l' : list B)
  (y : B) :
  Forall2 R l l' -> In y l' -> exists x, In x l /\ R x y.
Proof.
  induction 1 as [|a b l l' Hab _ IH]; intros Hy; [contradiction|].
  destruct Hy as [->|Hy].
  - exists a. split; [now left | assumption].
  - destruct (IH Hy) as (x & Hx & Hr). exists x. split; [now right | assumption].
Qed.

Lemma skipn_nth_error {A : Type} (l : list A) (n : nat) (x : A) :
  nth_error l n = Some x -> exists r, skipn n l = x :: r.
Proof.
  revert l. induction n as [|n IH]; intros [|a l] H; try discriminate.
  - inversion H. now exists l.
  - exact (IH l H).
Qed.

Section Vanguard.

Variable m : Mdict.
Variable f : string -> string.
Hypothesis Hf : forall k, adaptKey m k = Ok (f k).

Let wkey (e : Key.t) : string := f (Key.word e).
Let lkey (k : Kdx.t) : string := f (Kdx.last_word k).

Lemma decoded_blocks (ks : list Kdx.t) :
  forall bs, decodeAll m ks = Ok bs ->
             lastWordsAgree ks bs = true ->
             Forall2 (holds m) ks bs.
Proof.
  induction ks as [|k ks IH]; intros bs Hd Hl.
  - simpl in Hd. inversion Hd. constructor.
  - simpl in Hd.
    destruct (decodeKeys m k) as [b| |] eqn:Ek; try discriminate.
    cbn [bind] in Hd.
    destruct (decodeAll m ks) as [bs'| |] eqn:Es; try discriminate.
    cbn [bind] in Hd. inversion Hd; subst bs.
    simpl in Hl. apply andb_prop in Hl. destruct Hl as [H1 H2].
    constructor; [|exact (IH bs' eq_refl H2)].
    split; [exact Ek|].
    destruct (lastKey b) as [z|] eqn:Ez; [|discriminate].
    destruct (lastKey_split _ _ Ez) as [b0 E].
    exists b0, z. split; [exact E | now apply String.eqb_eq].
Qed.

Lemma block_sorted (bs : list (list Key.t)) (b : list Key.t) :
  StronglySorted (below wkey) (List.concat bs) ->
  In b bs -> StronglySorted (below wkey) b.
Proof.
  induction bs as [|c bs IH]; intros Hs Hb; [contradiction|].
  simpl in Hs. apply sorted_app in Hs. destruct Hs as (S1 & S2 & _).
  destruct Hb as [->|Hb]; [exact S1 | exact (IH S2 Hb)].
Qed.

(** Within a block every entry is below the last one. *)
Lemma below_last (b0 : list Key.t) (z e : Key.t) :
  StronglySorted (below wkey) (b0 ++ [z]) ->
  In e (b0 ++ [z]) -> below wkey e z.
Proof.
  intros Hs He. apply sorted_app in Hs. destruct Hs as (_ & _ & C).
  apply in_app_or in He. destruct He as [He|[<-|[]]].
  - apply C; [exact He | now left].
  - apply Order.le_refl.
Qed.

Lemma index_sorted (ks : list Kdx.t) (bs : list (list Key.t)) :
  Forall2 (holds m) ks bs ->
  StronglySorted (below wkey) (List.concat bs) ->
  StronglySorted (below lkey) ks.
Proof.
  induction 1 as [|k b ks bs Hkb Hrest IH]; intros Hs; [constructor|].
  simpl in Hs. apply sorted_app in Hs. destruct Hs as (S1 & S2 & C).
  constructor; [exact (IH S2)|].
  rewrite Forall_forall. intros k' Hk'.
  destruct (Forall2_In_l _ _ _ _ Hrest Hk') as (b' & Hb' & _ & b0' & z' & E' & L').
  destruct Hkb as (_ & b0 & z & E & L).
  unfold below, lkey. rewrite L, L'. apply C.
  - rewrite E. apply in_or_app. right. now left.
  - apply in_concat. exists b'. split; [exact Hb'|].
    rewrite E'. apply in_or_app. right. now left.
Qed.

Variable phrase : string.

(** The walk back over the blocks stops at once: the block before the one
    [reduce] chose ends below the phrase. *)
Lemma lookBackBlocks_stays (A : list Kdx.t) (k : Kdx.t) (B : list Kdx.t) :
  KEY_INDEX m = (A ++ k :: B)%list ->
  Forall (fun x => behind f phrase x = true) A ->
  behind f phrase k = false ->
  lookBackBlocks m k (List.length A) = Ok k.
Proof.
  intros Hk HA Hb.
  destruct (rev A) as [|p A0] eqn:Er.
  - apply (f_equal (@rev _)) in Er. rewrite rev_involutive in Er.
    subst A. reflexivity.
  - apply (f_equal (@rev _)) in Er. rewrite rev_involutive in Er.
    simpl in Er. subst A. rewrite length_app. simpl List.length.
    replace (List.length (rev A0) + 1)%nat with (S (List.length (rev A0)))
      by lia.
    cbn [lookBackBlocks]. rewrite Hk.
    rewrite <- app_assoc. rewrite nth_error_app2 by lia.
    rewrite Nat.sub_diag. cbn [app nth_error].
    rewrite !Hf. cbn [bind].
    apply Forall_app in HA. destruct HA as [_ Hp].
    pose proof (Forall_inv Hp) as Pp.
    destruct (String.eqb_spec (f (Kdx.last_word p)) (f (Kdx.last_word k)))
      as [E|E]; [|reflexivity].
    unfold behind in Pp, Hb. rewrite E in Pp. congruence.
Qed.

Lemma loadKeys_decoded (k : Kdx.t) (b : list Key.t) (st : State) :
  cacheCoherent m st ->
  In k (KEY_INDEX m) ->
  decodeKeys m k = Ok b ->
  exists st', loadKeys m k st = Ok (b, st').
Proof.
  intros Hc Hk Hd. unfold loadKeys.
  destruct (cached_keys st) as [c|] eqn:Ec.
  - destruct (String.eqb_spec (pilot c) (Kdx.first_word k)) as [E|E].
    + pose proof (Hc c Ec k Hk E) as Hd'.
      rewrite Hd in Hd'. inversion Hd'. now eexists.
    + rewrite Hd. cbn [bind]. now eexists.
  - rewrite Hd. cbn [bind]. now eexists.
Qed.

End Vanguard.

Section FirstHit.

Variable m : Mdict.
Variable f : string -> string.
Hypothesis Hf : forall k, adaptKey m k = Ok (f k).

Let wkey (e : Key.t) : string := f (Key.word e).

Variable bs : list (list Key.t).
Hypothesis Hdec : Forall2 (holds m) (KEY_INDEX m) bs.
Hypothesis Hsorted : StronglySorted (below wkey) (List.concat bs).
Hypothesis Hindexed : indexedFrom 0 (KEY_INDEX m) = true.

Variable phrase : string.
Hypothesis Hfix : f phrase = phrase.

(** Some stored entry adapts to the phrase. *)
Variables (bq : list Key.t) (eq_ : Key.t).
Hypothesis Hbq : In bq bs.
Hypothesis Heq : In eq_ bq.
Hypothesis Hphrase : wkey eq_ = phrase.

(** The block that [reduce] chooses holds an entry adapting to the
    phrase. *)
Lemma chosen_block_has_hit (A : list Kdx.t) (k : Kdx.t) (B : list Kdx.t) :
  KEY_INDEX m = (A ++ k :: B)%list ->
  Forall (fun x => behind f phrase x = true) A ->
  behind f phrase k = false ->
  exists bk, decodeKeys m k = Ok bk
             /\ StronglySorted (below wkey) bk
             /\ exists e, In e bk /\ wkey e = phrase.
Proof.
  intros Hk HA Hb. pose proof Hdec as Hd. rewrite Hk in Hd.
  apply Forall2_app_inv_l in Hd.
  destruct Hd as (bA & bK & HdA & HdK & Ebs).
  destruct bK as [|bk bB]; [inversion HdK|].
  apply Forall2_cons_iff in HdK. destruct HdK as [Hkb HdB].
  destruct Hkb as (Dk & b0 & z & Ek & Lk).
  assert (Sk : StronglySorted (below wkey) bk).
  { apply (block_sorted f bs); [exact Hsorted|].
    rewrite Ebs. apply in_or_app. right. now left. }
  exists bk. split; [exact Dk|]. split; [exact Sk|].
  assert (Hz : Js.le phrase (wkey z) = true).
  { apply Order.not_lt_le. unfold behind in Hb. unfold wkey.
    now rewrite <- Lk. }
  rewrite Ebs in Hbq. apply in_app_or in Hbq.
  destruct Hbq as [Hq|[Hq|Hq]].
  - exfalso.
    destruct (Forall2_In_r _ _ _ _ HdA Hq)
      as (kA & HkA & _ & a0 & zA & Ea & La).
    rewrite Forall_forall in HA. pose proof (HA kA HkA) as Pa.
    unfold behind in Pa. rewrite La in Pa.
    assert (Sq : StronglySorted (below wkey) bq).
    { apply (block_sorted f bs); [exact Hsorted|].
      rewrite Ebs. apply in_or_app. now left. }
    rewrite Ea in Sq, Heq.
    pose proof (below_last f a0 zA eq_ Sq Heq) as Hle.
    pose proof Hphrase as Hp. unfold wkey in Hp.
    unfold below in Hle. cbv beta in Hle. rewrite Hp in Hle.
    apply Order.lt_not_le in Pa. congruence.
  - subst bq. exists eq_. split; assumption.
  - exists z. split; [rewrite Ek; apply in_or_app; right; now left|].
    pose proof Hsorted as Hs. rewrite Ebs, concat_app in Hs.
    apply sorted_app in Hs. destruct Hs as (_ & Hs & _).
    simpl in Hs. apply sorted_app in Hs. destruct Hs as (_ & _ & C).
    assert (Hle : below wkey z eq_).
    { apply C.
      - rewrite Ek. apply in_or_app. right. now left.
      - apply in_concat. exists bq. split; assumption. }
    unfold below in Hle. rewrite Hphrase in Hle.
    apply Order.le_antisym; assumption.
Qed.

(** In a sorted block with such an entry, the cut at the phrase ends on
    one. *)
Lemma block_cut (bk : list Key.t) :
  StronglySorted (below wkey) bk ->
  (exists e, In e bk /\ wkey e = phrase) ->
  exists A z B,
    bk = (A ++ z :: B)%list
    /\ Forall (fun x => beyond f phrase x = false) A
    /\ wkey z = phrase
    /\ Forall (fun x => beyond f phrase x = true) B.
Proof.
  intros Sk (e & He & Hw).
  destruct (sorted_cut _ wkey (fun x => negb (beyond f phrase x)) bk)
    as (A1 & B & E & FA & FB); [|exact Sk|].
  { intros x y Hxy Hy. unfold beyond in *. fold (wkey x). fold (wkey y) in Hy.
    destruct (Js.lt phrase (wkey x)) eqn:L; [|reflexivity].
    rewrite (Order.lt_le_trans _ _ _ L Hxy) in Hy. discriminate. }
  assert (FA' : Forall (fun x => beyond f phrase x = false) A1).
  { eapply Forall_impl; [|exact FA]. intros x Hx.
    now apply negb_true_iff in Hx. }
  assert (FB' : Forall (fun x => beyond f phrase x = true) B).
  { eapply Forall_impl; [|exact FB]. intros x Hx.
    now apply negb_false_iff in Hx. }
  assert (HeA : In e A1).
  { rewrite E in He. apply in_app_or in He. destruct He as [|HeB]; [assumption|].
    rewrite Forall_forall in FB'. pose proof (FB' e HeB) as Pb.
    unfold beyond in Pb. fold (wkey e) in Pb. rewrite Hw in Pb.
    rewrite Order.lt_irrefl in Pb. discriminate. }
  destruct (rev A1) as [|z A0] eqn:Er.
  - apply (f_equal (@rev _)) in Er. rewrite rev_involutive in Er.
    subst A1. contradiction.
  - apply (f_equal (@rev _)) in Er. rewrite rev_involutive in Er.
    simpl in Er. subst A1.
    exists (rev A0), z, B. rewrite <- app_assoc in E.
    split; [exact E|].
    apply Forall_app in FA'. destruct FA' as [FA0 Fz].
    split; [exact FA0|]. split; [|exact FB'].
    pose proof (Forall_inv Fz) as Pz.
    apply Order.le_antisym.
    + apply Order.not_lt_le. exact Pz.
    + rewrite <- Hw.
      assert (Sa : StronglySorted (below wkey) (rev A0 ++ [z])).
      { rewrite E in Sk. rewrite app_assoc in Sk.
        apply sorted_app in Sk. tauto. }
      exact (below_last f (rev A0) z e Sa HeA).
Qed.

End FirstHit.

(** C8 (as amended).  For an .mdx reader on which the normal form [f] is
    total, whose index and key blocks satisfy the invariants of the format
    ([wellFormed]) and whose cache is coherent, and for every stored keyword
    [Q] on which the preparation of [mdx] does not change the normal form
    ([f(toLowerCase(trim(Q))) = f(Q)], as for every trimmed keyword of a
    case-insensitive dictionary): [getWordList(Q)] resolves to a non-empty
    list whose first word adapts to [f(Q)]. *)
Theorem C8_first_word_adapts_like_the_query :
  forall (m : Mdict) (f : string -> string) (bs : list (list Key.t))
         (st : State) (Q : string) (bq : list Key.t) (e : Key.t),
    ext (parser m) = Mdx ->
    (forall k, adaptKey m k = Ok (f k)) ->
    decodeAll m (KEY_INDEX m) = Ok bs ->
    wellFormed m f bs = true ->
    cacheCoherent m st ->
    In bq bs -> In e bq -> Key.word e = Q ->
    f (Js.toLowerCase (Js.trim Q)) = f Q ->
    exists e' rest st',
      getWordList m (QString Q) None st = Ok (Words (e' :: rest), st')
      /\ f (Key.word e') = f Q.
Proof.
  intros m f bs st Q bq e Hext Hf Hall Hwf Hcache Hbq He HQ Hprep.
  set (w := Js.toLowerCase (Js.trim Q)) in *.
  set (phrase := f w).
  assert (Hfix : f phrase = phrase).
  { pose proof (Hf w) as H1. pose proof (Hf phrase) as H2.
    unfold adaptKey in H1, H2. rewrite Hext in H1, H2.
    apply Folding.adaptKey_idem in H1. fold phrase in H1.
    rewrite H1 in H2. now inversion H2. }
  unfold wellFormed in Hwf.
  apply andb_prop in Hwf. destruct Hwf as [Hwf Hasc].
  apply andb_prop in Hwf. destruct Hwf as [Hidx Hlast].
  pose proof (decoded_blocks m (KEY_INDEX m) bs Hall Hlast) as Hdec.
  pose proof (ascendingBy_sorted _ _ _ Hasc) as Hsorted.
  pose proof (index_sorted m f _ _ Hdec Hsorted) as Hks.
  assert (Hhit : f (Key.word e) = phrase).
  { unfold phrase. now rewrite HQ, Hprep. }
  (* the cut of KEY_INDEX at the phrase *)
  destruct (sorted_cut _ (fun k => f (Kdx.last_word k)) (behind f phrase)
              (KEY_INDEX m)) as (A & B0 & Eks & FA & FB); [|exact Hks|].
  { intros x y Hxy Hy. unfold behind in *.
    exact (Order.le_lt_trans _ _ _ Hxy Hy). }
  destruct (Forall2_In_r _ _ _ _ Hdec Hbq) as (kq & Hkq & _ & q0 & zq & Eq & Lq).
  assert (Bq : behind f phrase kq = false).
  { unfold behind. rewrite Lq.
    destruct (Js.lt (f (Key.word zq)) phrase) eqn:L; [|reflexivity].
    apply Order.lt_not_le in L.
    assert (Sq : StronglySorted (below (fun x => f (Key.word x))) bq)
      by exact (block_sorted f bs bq Hsorted Hbq).
    rewrite Eq in Sq, He.
    pose proof (below_last f q0 zq e Sq He) as Hle.
    unfold below in Hle. cbv beta in Hle. rewrite Hhit in Hle. congruence. }
  destruct B0 as [|k B].
  { exfalso. rewrite app_nil_r in Eks. rewrite Eks in Hkq.
    rewrite Forall_forall in FA. rewrite (FA kq Hkq) in Bq. discriminate. }
  pose proof (Forall_inv FB) as Bk. pose proof (Forall_inv_tail FB) as FB'.
  assert (Hred : reduce m (List.length (KEY_INDEX m)) (KEY_INDEX m) phrase
                 = Ok (Some k)).
  { rewrite Eks. apply (reduce_lands m f Hf phrase); auto. }
  assert (Hkin : In k (KEY_INDEX m)).
  { rewrite Eks. apply in_or_app. right. now left. }
  destruct (chosen_block_has_hit m f bs Hdec Hsorted phrase bq e Hbq He Hhit
              A k B Eks FA Bk) as (bk & Dk & Sk & Hin).
  destruct (block_cut f phrase bk Sk Hin) as (A1 & z & B1 & Ebk & FA1 & Hz & FB1).
  assert (Hshrink : shrink m (List.length bk) bk 0 phrase
                    = Ok (List.length A1)).
  { replace (List.length bk) with (S (List.length bk - 1))
      by (rewrite Ebk, length_app; simpl; lia).
    rewrite Ebk at 2.
    rewrite (shrink_lands m f Hf phrase _ A1 z B1 0); auto.
    rewrite Ebk, length_app. simpl. lia. }
  assert (Hnth : nth_error bk (List.length A1) = Some z).
  { rewrite Ebk, nth_error_app2, Nat.sub_diag by lia. reflexivity. }
  destruct (lookBackKeys_keeps m f Hf phrase bk Hfix _ z Hnth Hz)
    as (idx & e' & Hback & Hidx' & He').
  destruct (skipn_nth_error _ _ _ Hidx') as [rest Hskip].
  assert (Hlt : (idx < List.length bk)%nat).
  { apply nth_error_Some. congruence. }
  assert (Hstay : lookBackBlocks m k (Z.to_nat (Kdx.index k)) = Ok k).
  { pose proof Hidx as Hi. rewrite Eks in Hi.
    rewrite (indexedFrom_app _ _ _ _ Hi).
    replace (Z.to_nat (0 + Z.of_nat (List.length A))) with (List.length A)
      by lia.
    exact (lookBackBlocks_stays m f Hf phrase A k B Eks FA Bk). }
  set (st0 := {| cached_keys := cached_keys st;
                 mutual_ticket := mutual_ticket st; trail := None |}).
  assert (Hc0 : cacheCoherent m st0) by exact Hcache.
  destruct (loadKeys_decoded m k bk st0 Hc0 Hkin Dk) as [st1 Hload].
  exists e', rest, st1. split.
  - unfold getWordList. rewrite Hext.
    unfold mdx, mbind, putTrail, seekVanguard, mbind, lift, ret.
    fold w. fold st0. rewrite Hf. fold phrase. rewrite Hred.
    rewrite Hf. rewrite (Order.not_lt_le _ _ Bk). rewrite Hstay.
    rewrite Hload. rewrite Hshrink. rewrite Hback.
    replace (Z.min (Z.of_nat idx) (Z.of_nat (List.length bk) - 1))
      with (Z.of_nat idx) by lia.
    unfold sliceFrom.
    destruct (Z.ltb_spec (Z.of_nat idx) 0) as [|_]; [lia|].
    replace (Z.to_nat (Z.min (Z.of_nat idx) (Z.of_nat (List.length bk))))
      with idx by lia.
    rewrite Hskip. reflexivity.
  - rewrite He'. unfold phrase. exact Hprep.
Qed.

Lemma C8_first_word_adapts_like_the_query_witness :
  exists e' rest st',
    getWordList Demo.dict (QString "cat") None fresh
    = Ok (Words (e' :: rest), st')
    /\ stripMdx (Js.toLowerCase (Key.word e'))
       = stripMdx (Js.toLowerCase "cat").
Proof.
  apply (C8_first_word_adapts_like_the_query Demo.dict
           (fun k => stripMdx (Js.toLowerCase k))
           [[Demo.key "apple" 0 (Some 6); Demo.key "apply" 6 None];
            [Demo.key "cat" 16 (Some 15); Demo.key "feline" 31 None]]
           fresh "cat"
           [Demo.key "cat" 16 (Some 15); Demo.key "feline" 31 None]
           (Demo.key "cat" 16 (Some 15))).
  - reflexivity.
  - intros k. reflexivity.
  - reflexivity.
  - reflexivity.
  - intros c Hc. discriminate Hc.
  - simpl. tauto.
  - simpl. tauto.
  - reflexivity.
  - reflexivity.
Defined.

(** C8 (as stated) fails on a case-sensitive dictionary: Apple and apple are
    stored, in order; the query "Apple" is searched as "apple", and the
    first word returned is apple, whose normal form is not that of the
    query. *)
Lemma C8_case_sensitive_query_misses :
  decodeAll CaseDemo.dict (KEY_INDEX CaseDemo.dict)
  = Ok [[Demo.key "Apple" 0 (Some 6); Demo.key "apple" 6 None]]
  /\ wellFormed CaseDemo.dict (fun k => k)
       [[Demo.key "Apple" 0 (Some 6); Demo.key "apple" 6 None]] = true
  /\ (exists st, getWordList CaseDemo.dict (QString "Apple") None fresh
                 = Ok (Words [Demo.key "apple" 6 None], st))
  /\ adaptKey CaseDemo.dict "apple" = Ok "apple"
  /\ adaptKey CaseDemo.dict "Apple" = Ok "Apple"
  /\ "apple" <> "Apple".
Proof.
  repeat split; try reflexivity.
  - eexists. reflexivity.
  - discriminate.
Qed.

(** * Further properties *)

(** ** Bytes and numbers *)

Module Bytes.
Import Crypt.

Lemma byteZ_range (b : byte) : 0 <= byteZ b < 256.
Proof. unfold byteZ. pose proof (Byte.to_N_bounded b). lia. Qed.

Lemma byteZ_zByte (z : Z) : byteZ (zByte z) = z mod 256.
Proof.
  unfold byteZ, zByte.
  pose proof (Z.mod_pos_bound z 256 ltac:(lia)) as Hm.
  destruct (Byte.of_N (Z.to_N (z mod 256))) as [b|] eqn:E.
  - apply Byte.to_of_N in E. rewrite E. lia.
  - apply Byte.of_N_None_iff in E. lia.
Qed.

Lemma zByte_byteZ (b : byte) : zByte (byteZ b) = b.
Proof.
  unfold zByte. rewrite Z.mod_small by apply byteZ_range.
  unfold byteZ. rewrite N2Z.id, Byte.of_to_N. reflexivity.
Qed.

(** One byte of a number, put back in its place. *)
Lemma chunk_bit (z k n : Z) :
  0 <= k -> 0 <= n ->
  Z.testbit (Z.shiftl (Z.shiftr z k mod 2 ^ 8) k) n
  = ((k <=? n) && (n <? k + 8) && Z.testbit z n)%bool.
Proof.
  intros Hk Hn. rewrite Z.shiftl_spec by lia.
  destruct (Z.leb_spec k n) as [L|L]; cbn [andb].
  - destruct (Z.ltb_spec n (k + 8)) as [U|U]; cbn [andb].
    + rewrite Z.mod_pow2_bits_low by lia.
      rewrite Z.shiftr_spec by lia. f_equal. lia.
    + apply Z.mod_pow2_bits_high. lia.
  - apply Z.testbit_neg_r. lia.
Qed.

Lemma be32_u32be (z : Z) :
  0 <= z < 2 ^ 32 ->
  be32 (zByte (Z.shiftr z 24)) (zByte (Z.shiftr z 16))
    (zByte (Z.shiftr z 8)) (zByte z) = z.
Proof.
  intros Hz. unfold be32.
  change (fun b : byte => Z.of_N (Byte.to_N b)) with byteZ. cbv beta.
  change (Z.of_N (Byte.to_N (zByte (Z.shiftr z 24))))
    with (byteZ (zByte (Z.shiftr z 24))).
  change (Z.of_N (Byte.to_N (zByte (Z.shiftr z 16))))
    with (byteZ (zByte (Z.shiftr z 16))).
  change (Z.of_N (Byte.to_N (zByte (Z.shiftr z 8))))
    with (byteZ (zByte (Z.shiftr z 8))).
  change (Z.of_N (Byte.to_N (zByte z))) with (byteZ (zByte z)).
  rewrite !byteZ_zByte. change 256 with (2 ^ 8).
  replace (z mod 2 ^ 8) with (Z.shiftl (Z.shiftr z 0 mod 2 ^ 8) 0)
    by (now rewrite Z.shiftl_0_r, Z.shiftr_0_r).
  apply Z.bits_inj'. intros n Hn.
  rewrite !Z.lor_spec, !chunk_bit by lia.
  assert (Hhigh : 32 <= n -> Z.testbit z n = false).
  { intros H. rewrite <- (Z.mod_small z (2 ^ 32)) by lia.
    apply Z.mod_pow2_bits_high. lia. }
  destruct (Z.testbit z n) eqn:T.
  - assert (n < 32).
    { destruct (Z.lt_ge_cases n 32) as [|G]; [assumption|].
      specialize (Hhigh G). congruence. }
    destruct (Z.leb_spec 24 n), (Z.ltb_spec n (24 + 8)),
      (Z.leb_spec 16 n), (Z.ltb_spec n (16 + 8)),
      (Z.leb_spec 8 n), (Z.ltb_spec n (8 + 8)),
      (Z.leb_spec 0 n), (Z.ltb_spec n (0 + 8)); cbn; try reflexivity; lia.
  - now rewrite !andb_false_r.
Qed.

End Bytes.

(** ** What lies ahead of the cursor *)

Lemma ahead_forward (s : Scan.t) (x l : list byte) :
  ahead s (x ++ l) -> ahead (Scan.forward (Z.of_nat (List.length x)) s) l.
Proof.
  intros (pre & post & Hb & Ho). exists (pre ++ x)%list, post.
  cbn [Scan.forward Scan.buf Scan.offset].
  rewrite Hb, Ho, length_app, <- !app_assoc. split; [reflexivity | lia].
Qed.

Lemma ahead_shorter (s : Scan.t) (l r : list byte) :
  ahead s (l ++ r) -> ahead s l.
Proof.
  intros (pre & post & Hb & Ho). exists pre, (r ++ post)%list.
  now rewrite Hb, <- app_assoc.
Qed.

Lemma ahead_byteAt (s : Scan.t) (l : list byte) (k : nat) (b : byte) :
  ahead s l -> nth_error l k = Some b ->
  Scan.byteAt (Scan.buf s) (Scan.offset s + Z.of_nat k) = Some (Crypt.byteZ b).
Proof.
  intros (pre & post & Hb & Ho) Hk. unfold Scan.byteAt.
  rewrite Hb, Ho, at_app_r.
  rewrite nth_error_app1 by (apply nth_error_Some; congruence).
  now rewrite Hk.
Qed.

Lemma forward_forward (a b : Z) (s : Scan.t) :
  Scan.forward b (Scan.forward a s) = Scan.forward (a + b) s.
Proof. unfold Scan.forward. cbn. f_equal. lia. Qed.

Lemma readInt_ahead (s : Scan.t) (z : Z) (l : list byte) :
  0 <= z < 2 ^ 32 ->
  ahead s (Wire.u32be z ++ l) ->
  Scan.readInt s = Ok (z, Scan.forward 4 s).
Proof.
  intros Hz Ha. unfold Scan.readInt, Scan.getUint32.
  apply ahead_shorter in Ha.
  pose proof (ahead_byteAt s _ 0 _ Ha eq_refl) as H0.
  pose proof (ahead_byteAt s _ 1 _ Ha eq_refl) as H1.
  pose proof (ahead_byteAt s _ 2 _ Ha eq_refl) as H2.
  pose proof (ahead_byteAt s _ 3 _ Ha eq_refl) as H3.
  replace (Scan.offset s + Z.of_nat 0) with (Scan.offset s) in H0 by lia.
  change (Z.of_nat 1) with 1 in H1. change (Z.of_nat 2) with 2 in H2.
  change (Z.of_nat 3) with 3 in H3.
  rewrite H0, H1, H2, H3. cbn [bind].
  pose proof (Bytes.be32_u32be z Hz) as E. unfold be32 in E.
  unfold Crypt.byteZ. cbv beta in E. rewrite E. reflexivity.
Qed.

Lemma num_length (v2 : bool) (z : Z) :
  Z.of_nat (List.length (Wire.num v2 z)) = numWidth v2.
Proof. destruct v2; reflexivity. Qed.

Lemma readNum_ahead (s : Scan.t) (z : Z) (l : list byte) :
  0 <= z < 2 ^ 32 ->
  ahead s (Wire.num (Scan.v2 s) z ++ l) ->
  Scan.readNum s = Ok (z, Scan.forward (numWidth (Scan.v2 s)) s)
  /\ ahead (Scan.forward (numWidth (Scan.v2 s)) s) l.
Proof.
  intros Hz Ha. split.
  - unfold Scan.readNum, Wire.num, numWidth in *.
    destruct (Scan.v2 s) eqn:V.
    + rewrite <- app_assoc in Ha.
      apply (ahead_forward s (Wire.u32be 0)) in Ha.
      change (Z.of_nat (List.length (Wire.u32be 0))) with 4 in Ha.
      rewrite (readInt_ahead _ z l Hz Ha), forward_forward. reflexivity.
    + exact (readInt_ahead _ z l Hz Ha).
  - rewrite <- num_length with (z := z). now apply ahead_forward.
Qed.

(** X1.  A number stored as the format prescribes (four big-endian bytes,
    after four zero bytes from version 2 on) is read back by [readNum],
    which moves the cursor by the width of the field: 4 below version 2,
    8 from version 2 on. *)
Theorem X1_readNum_reads_back_a_stored_number :
  forall (s : Scan.t) (pre post : list byte) (z : Z),
    0 <= z < 2 ^ 32 ->
    Scan.buf s = (pre ++ Wire.num (Scan.v2 s) z ++ post)%list ->
    Scan.offset s = Z.of_nat (List.length pre) ->
    Scan.readNum s
    = Ok (z, Scan.forward (if Scan.v2 s then 8 else 4) s).
Proof.
  intros s pre post z Hz Hb Ho.
  apply (readNum_ahead s z []); [exact Hz|].
  exists pre, post. now rewrite app_nil_r.
Qed.

Lemma X1_readNum_reads_back_a_stored_number_witness :
  Scan.readNum Samples.onNumber = Ok (70000, Scan.forward 4 Samples.onNumber).
Proof.
  exact (X1_readNum_reads_back_a_stored_number Samples.onNumber
           [xff; xfe] [x07] 70000 ltac:(lia) eq_refl eq_refl).
Defined.

(** ** Texts *)

Module Texts.
Import Crypt Bytes Layout.

Lemma spread_app (wide : bool) (a b : list byte) :
  spread wide (a ++ b) = (spread wide a ++ spread wide b)%list.
Proof. apply flat_map_app. Qed.

Lemma spread_length (wide : bool) (l : list byte) :
  Z.of_nat (List.length (spread wide l)) = unit wide * Z.of_nat (List.length l).
Proof.
  induction l as [|b l IH]; [destruct wide; reflexivity|].
  change (spread wide (b :: l))
    with ((if wide then [b; x00] else [b]) ++ spread wide l)%list.
  rewrite length_app, Nat2Z.inj_add, IH.
  destruct wide; cbn [List.length unit]; lia.
Qed.

Lemma spread_narrow (l : list byte) : spread false l = l.
Proof.
  induction l as [|b l IH]; [reflexivity|].
  cbn [spread flat_map app]. f_equal. exact IH.
Qed.

Lemma nth_after {A : Type} (a : list A) (x : A) (r : list A) :
  nth_error (a ++ x :: r) (List.length a) = Some x.
Proof. now rewrite nth_error_app2, Nat.sub_diag by lia. Qed.

Lemma nth_after1 {A : Type} (a : list A) (x y : A) (r : list A) :
  nth_error (a ++ x :: y :: r) (List.length a + 1) = Some y.
Proof.
  rewrite nth_error_app2 by lia.
  now replace (List.length a + 1 - List.length a)%nat with 1%nat by lia.
Qed.

(** The search for the terminator runs over the units of the text and
    stops on the zero unit. *)
Lemma search_ahead (wide : bool) (s : Scan.t) (rest : list byte) :
  Scan.bpu s = unit wide ->
  forall (todo done : list byte) (fuel : nat),
    Forall (fun b => byteZ b <> 0) todo ->
    ahead s (spread wide done ++ spread wide todo ++ stop wide ++ rest) ->
    (List.length todo < fuel)%nat ->
    ScanText.searchTextLen fuel s
      (Scan.offset s + Z.of_nat (List.length (spread wide done)))
    = Ok (Z.of_nat (List.length (spread wide done))
          + Z.of_nat (List.length (spread wide todo))).
Proof.
  intros Hbpu todo.
  induction todo as [|b todo IH]; intros done fuel Hnz Ha Hfuel;
    (destruct fuel as [|fuel]; [simpl in Hfuel; lia|]).
  - cbn [ScanText.searchTextLen spread flat_map List.length app] in *.
    rewrite Hbpu. destruct wide; cbn [unit Z.eqb Pos.eqb stop] in *.
    + unfold Scan.getUint16.
      rewrite (ahead_byteAt s _ _ x00 Ha (nth_after _ _ _)).
      replace (Scan.offset s + Z.of_nat (List.length (spread true done)) + 1)
        with (Scan.offset s
              + Z.of_nat (List.length (spread true done) + 1)) by lia.
      rewrite (ahead_byteAt s _ _ x00 Ha (nth_after1 _ _ _ _)).
      cbn. f_equal. lia.
    + unfold Scan.getUint8.
      rewrite (ahead_byteAt s _ _ x00 Ha (nth_after _ _ _)).
      cbn. f_equal. lia.
  - pose proof (Forall_inv Hnz) as Hb. pose proof (Forall_inv_tail Hnz) as Hnz'.
    pose proof (byteZ_range b) as Rb.
    assert (Ha' : ahead s (spread wide (done ++ [b]) ++ spread wide todo
                           ++ stop wide ++ rest)).
    { rewrite spread_app, <- app_assoc.
      change (b :: todo) with ([b] ++ todo)%list in Ha.
      now rewrite spread_app, <- app_assoc in Ha. }
    specialize (IH (done ++ [b])%list fuel Hnz' Ha' ltac:(simpl in Hfuel; lia)).
    rewrite spread_app, length_app in IH.
    cbn [ScanText.searchTextLen]. rewrite Hbpu.
    change (spread wide (b :: todo))
      with ((if wide then [b; x00] else [b]) ++ spread wide todo)%list in *.
    destruct wide; cbn [unit Z.eqb Pos.eqb stop spread flat_map app] in *.
    + unfold Scan.getUint16.
      rewrite (ahead_byteAt s _ _ b Ha (nth_after _ _ _)).
      replace (Scan.offset s + Z.of_nat (List.length (spread true done)) + 1)
        with (Scan.offset s
              + Z.of_nat (List.length (spread true done) + 1)) by lia.
      rewrite (ahead_byteAt s _ _ x00 Ha (nth_after1 _ _ _ _)).
      cbn [bind]. change (byteZ x00) with 0. rewrite Z.lor_0_r.
      rewrite Z.shiftl_mul_pow2 by lia.
      destruct (Z.eqb_spec (byteZ b * 2 ^ 8) 0) as [E|_]; [lia|].
      cbn [List.length] in IH |- *.
      replace (Scan.offset s + Z.of_nat (List.length (spread true done)) + 2)
        with (Scan.offset s
              + Z.of_nat (List.length (spread true done) + 2)) by lia.
      rewrite IH. f_equal. lia.
    + unfold Scan.getUint8.
      rewrite (ahead_byteAt s _ _ b Ha (nth_after _ _ _)).
      cbn [bind].
      destruct (Z.eqb_spec (byteZ b) 0) as [E|_]; [contradiction|].
      cbn [List.length] in IH |- *.
      replace (Scan.offset s + Z.of_nat (List.length (spread false done)) + 1)
        with (Scan.offset s
              + Z.of_nat (List.length (spread false done) + 1)) by lia.
      rewrite IH. f_equal. lia.
Qed.

Lemma ahead_view (s : Scan.t) (x r : list byte) :
  ahead s (x ++ r) ->
  firstn (List.length x) (sliceFrom (Scan.buf s) (Scan.offset s)) = x.
Proof.
  intros (pre & post & Hb & Ho). unfold sliceFrom. rewrite Hb, Ho.
  destruct (Z.ltb_spec (Z.of_nat (List.length pre)) 0); [lia|].
  rewrite Z.min_l by (rewrite length_app; lia).
  rewrite Nat2Z.id, skipn_app, skipn_all, Nat.sub_diag.
  cbn [skipn app]. rewrite <- app_assoc.
  rewrite (firstn_app (List.length x) x), firstn_all, Nat.sub_diag.
  rewrite firstn_O. now rewrite app_nil_r.
Qed.

Lemma decode1_ascii (t : string) :
  forallb (fun b => (Byte.to_N b <? 128)%N) (list_byte_of_string t) = true ->
  TextDecoder.decode1 (list_byte_of_string t) = Ok t.
Proof.
  induction t as [|c t IH]; [reflexivity|].
  change (list_byte_of_string (String c t))
    with (byte_of_ascii c :: list_byte_of_string t).
  cbn [forallb TextDecoder.decode1]. intros H. apply andb_prop in H.
  destruct H as [Hc Ht]. rewrite Hc, (IH Ht). cbn [bind].
  now rewrite ascii_of_byte_of_ascii.
Qed.

Lemma decode2_units (t : string) :
  TextDecoder.decode2 (spread true (list_byte_of_string t)) = Ok t.
Proof.
  induction t as [|c t IH]; [reflexivity|].
  change (list_byte_of_string (String c t))
    with (byte_of_ascii c :: list_byte_of_string t).
  cbn [spread flat_map app TextDecoder.decode2].
  change (flat_map (fun b : byte => [b; x00]) (list_byte_of_string t))
    with (spread true (list_byte_of_string t)).
  rewrite IH. cbn. now rewrite ascii_of_byte_of_ascii.
Qed.

Lemma plain_nonzero (wide : bool) (t : string) :
  Wire.plain wide t = true ->
  Forall (fun b => byteZ b <> 0) (list_byte_of_string t).
Proof.
  unfold Wire.plain. rewrite forallb_forall, Forall_forall.
  intros H b Hb. specialize (H b Hb). apply andb_prop in H.
  destruct H as [H _]. apply negb_true_iff, N.eqb_neq in H.
  unfold byteZ. lia.
Qed.

Lemma plain_ascii (t : string) :
  Wire.plain false t = true ->
  forallb (fun b => (Byte.to_N b <? 128)%N) (list_byte_of_string t) = true.
Proof.
  unfold Wire.plain. rewrite !forallb_forall.
  intros H b Hb. specialize (H b Hb). apply andb_prop in H. tauto.
Qed.

Lemma text_length (wide : bool) (t : string) :
  Z.of_nat (List.length (Wire.text wide t))
  = unit wide * Z.of_nat (String.length t) + unit wide.
Proof.
  unfold Wire.text, Wire.units. fold (spread wide (list_byte_of_string t)).
  rewrite length_app, Nat2Z.inj_add, spread_length.
  unfold list_byte_of_string. rewrite length_map.
  assert (L : List.length (list_ascii_of_string t) = String.length t).
  { induction t as [|c t IH]; simpl; [reflexivity | now rewrite IH]. }
  rewrite L. destruct wide; cbn [List.length unit]; lia.
Qed.

(** The unit width tells the decoder, and the configuration both. *)
Lemma decoder_of_width (wide : bool) (s : Scan.t) :
  Scan.bpu s = unit wide ->
  Scan.decoder s = if wide then TextDecoder.Utf16le else TextDecoder.Utf8.
Proof.
  unfold Scan.bpu, Scan.decoder, unit.
  destruct (Scan.enc s), wide; intros H; try reflexivity; discriminate.
Qed.

Lemma width_of_enc (wide : bool) (s : Scan.t) :
  Scan.enc s = (if wide then Scan.Utf16 else Scan.Utf8) ->
  Scan.bpu s = (if wide then 2 else 1).
Proof. unfold Scan.bpu. intros ->. now destruct wide. Qed.

(** [readText] over a stored text. *)
Lemma readText_ahead (wide : bool) (s : Scan.t) (t : string) (rest : list byte) :
  Scan.bpu s = unit wide ->
  Wire.plain wide t = true ->
  ahead s (Wire.text wide t ++ rest) ->
  ScanText.readText s
  = Ok (t, Scan.forward (Z.of_nat (List.length (Wire.text wide t))) s)
  /\ ahead (Scan.forward (Z.of_nat (List.length (Wire.text wide t))) s) rest.
Proof.
  intros Hbpu Hplain Ha. split; [|now apply ahead_forward].
  unfold ScanText.readText.
  assert (Ha0 : ahead s (spread wide [] ++ spread wide (list_byte_of_string t)
                         ++ stop wide ++ rest)).
  { cbn [spread flat_map app]. unfold Wire.text, Wire.units in Ha.
    now rewrite <- app_assoc in Ha. }
  pose proof (search_ahead wide s rest Hbpu (list_byte_of_string t) []
                (S (List.length (Scan.buf s))) (plain_nonzero _ _ Hplain) Ha0)
    as Hs.
  cbn [spread flat_map List.length] in Hs.
  replace (Scan.offset s + Z.of_nat 0) with (Scan.offset s) in Hs by lia.
  rewrite Hs; cycle 1.
  { destruct Ha0 as (pre & post & Hb & _). rewrite Hb.
    cbn [spread flat_map app]. rewrite !length_app.
    pose proof (spread_length wide (list_byte_of_string t)).
    unfold spread in *. destruct wide; cbn [unit] in *; lia. }
  cbn [bind]. change (Z.of_nat 0) with 0. rewrite Z.add_0_l, Nat2Z.id.
  assert (Hv : firstn (List.length (spread wide (list_byte_of_string t)))
                 (sliceFrom (Scan.buf s) (Scan.offset s))
               = spread wide (list_byte_of_string t)).
  { apply (ahead_view s _ (stop wide ++ rest)).
    unfold Wire.text, Wire.units in Ha. now rewrite <- app_assoc in Ha. }
  rewrite Hv. unfold ScanText.decode.
  rewrite (decoder_of_width wide s Hbpu).
  assert (Hd : TextDecoder.decode
                 (if wide then TextDecoder.Utf16le else TextDecoder.Utf8)
                 (spread wide (list_byte_of_string t))
               = Ok t).
  { destruct wide; cbn [TextDecoder.decode].
    - apply decode2_units.
    - rewrite spread_narrow. apply decode1_ascii, plain_ascii, Hplain. }
  rewrite Hd. cbn [bind]. rewrite Hbpu. do 2 f_equal. f_equal.
  unfold Wire.text, Wire.units. fold (spread wide (list_byte_of_string t)).
  rewrite length_app, Nat2Z.inj_add. destruct wide; cbn [List.length unit]; lia.
Qed.

End Texts.

(** X2.  A text stored as the format prescribes (its code units, one byte
    each or two for UTF-16, then a zero unit) is read back by [readText],
    which leaves the cursor just after the terminator.  The scanner is one
    whose decoder fits its units: made for the Encoding 'UTF-16' (units of
    two bytes, decoded as UTF-16LE) or for a label of UTF-8 (bytes, decoded
    as UTF-8).  The text is free of NUL, and ASCII when the units are
    single bytes. *)
Theorem X2_readText_reads_back_a_stored_text :
  forall (wide : bool) (s : Scan.t) (pre post : list byte) (t : string),
    Scan.enc s = (if wide then Scan.Utf16 else Scan.Utf8) ->
    Wire.plain wide t = true ->
    Scan.buf s = (pre ++ Wire.text wide t ++ post)%list ->
    Scan.offset s = Z.of_nat (List.length pre) ->
    ScanText.readText s
    = Ok (t, Scan.forward (Z.of_nat (List.length (Wire.text wide t))) s).
Proof.
  intros wide s pre post t Henc Hplain Hb Ho.
  pose proof (Texts.width_of_enc wide s Henc) as Hbpu.
  apply (Texts.readText_ahead wide s t post Hbpu Hplain).
  exists pre, []. split; [|exact Ho]. now rewrite Hb, app_nil_r.
Qed.

Lemma X2_readText_reads_back_a_stored_text_witness :
  ScanText.readText
    (Scan.init (Wire.text true "cat" ++ [x2a])%list Samples.scanner1)
  = Ok ("cat",
        Scan.forward (Z.of_nat (List.length (Wire.text true "cat")))
          (Scan.init (Wire.text true "cat" ++ [x2a])%list
             Samples.scanner1)).
Proof.
  exact (X2_readText_reads_back_a_stored_text true
           (Scan.init (Wire.text true "cat" ++ [x2a])%list Samples.scanner1)
           [] [x2a] "cat" eq_refl eq_refl eq_refl eq_refl).
Defined.

(** ** Key blocks *)

Lemma keyLoop_ahead (wide : bool) (raw : list (string * Z)) :
  forall (sc : Scan.t) (rest : list byte),
    Scan.bpu sc = Layout.unit wide ->
    Forall (storable wide) raw ->
    ahead sc (keyBlockBytes (Scan.v2 sc) wide raw ++ rest) ->
    keyLoop (List.length raw) sc = Ok raw.
Proof.
  induction raw as [|[w off] raw IH]; intros sc rest Hbpu Hst Ha;
    [reflexivity|].
  pose proof (Forall_inv Hst) as [Hw Hoff].
  pose proof (Forall_inv_tail Hst) as Hst'.
  cbn [fst snd] in Hw, Hoff.
  unfold keyBlockBytes in Ha. cbn [map List.concat] in Ha.
  unfold Wire.entry in Ha at 1. cbn [fst snd] in Ha.
  rewrite <- !app_assoc in Ha.
  destruct (readNum_ahead sc off _ Hoff Ha) as [Hn Ha1].
  destruct (Texts.readText_ahead wide
              (Scan.forward (numWidth (Scan.v2 sc)) sc) w _ Hbpu Hw Ha1)
    as [Ht Ha2].
  cbn [List.length keyLoop]. rewrite Hn. cbn [bind]. rewrite Ht. cbn [bind].
  rewrite (IH _ rest); [reflexivity | exact Hbpu | exact Hst' | exact Ha2].
Qed.

Lemma ahead_init (b : list byte) (s : Scan.t) : ahead (Scan.init b s) (b ++ []).
Proof.
  exists [], []. split; [|reflexivity].
  cbn [app Scan.init Scan.buf]. now rewrite !app_nil_r.
Qed.

(** X3.  A key block that stores its entries as the format prescribes (for
    each one the record offset as a number, then the keyword as a
    terminated text) is decoded by [loadKeys] into exactly these entries,
    each but the last with the distance to the next offset as its size; the
    list is left in the cache under the block's first word.  The reader is
    one whose decoder fits its units (Encoding 'UTF-16', or a label of
    UTF-8). *)
Theorem X3_loadKeys_decodes_a_stored_key_block :
  forall (m : Mdict) (kdx : Kdx.t) (wide : bool) (raw : list (string * Z))
         (st : State),
    Scan.enc (scan (parser m)) = (if wide then Scan.Utf16 else Scan.Utf8) ->
    Forall (storable wide) raw ->
    blockAt (keyBlocks m) (Kdx.offset kdx)
    = Some (keyBlockBytes (Scan.v2 (scan (parser m))) wide raw) ->
    Kdx.num_entries kdx = Z.of_nat (List.length raw) ->
    cached_keys st = None ->
    loadKeys m kdx st
    = Ok (withSizes raw,
          {| cached_keys := Some {| keys := withSizes raw;
                                    pilot := Kdx.first_word kdx |};
             mutual_ticket := mutual_ticket st; trail := trail st |}).
Proof.
  intros m kdx wide raw st Henc Hst Hblk Hn Hc.
  pose proof (Texts.width_of_enc wide _ Henc) as Hbpu.
  unfold loadKeys, decodeKeys. rewrite Hc, Hblk, Hn.
  destruct (Z.ltb_spec (Z.of_nat (List.length raw)) 0) as [H|_]; [lia|].
  rewrite Nat2Z.id.
  rewrite (keyLoop_ahead wide raw
             (Scan.init (keyBlockBytes (Scan.v2 (scan (parser m))) wide raw)
                (scan (parser m))) [] Hbpu Hst); [reflexivity|].
  apply (ahead_init _ (scan (parser m))).
Qed.

Lemma X3_loadKeys_decodes_a_stored_key_block_witness :
  loadKeys Demo.dict (Kdx.Build_t 2 "cat" "feline" 35 27 36 1) fresh
  = Ok (withSizes [("cat", 16); ("feline", 31)],
        {| cached_keys :=
             Some {| keys := withSizes [("cat", 16); ("feline", 31)];
                     pilot := "cat" |};
           mutual_ticket := 0; trail := None |}).
Proof.
  apply (X3_loadKeys_decodes_a_stored_key_block Demo.dict
           (Kdx.Build_t 2 "cat" "feline" 35 27 36 1) false
           [("cat", 16); ("feline", 31)] fresh).
  - reflexivity.
  - repeat constructor; cbn; lia.
  - reflexivity.
  - reflexivity.
  - reflexivity.
Defined.

(** X4.  [loadKeys] recognises the cached block by its first word alone:
    once a block has been loaded, asking for any index entry with the same
    first word returns the cached list and leaves the cache as it is,
    whatever block that entry points to. *)
Theorem X4_loadKeys_answers_from_the_cache_by_first_word :
  forall (m : Mdict) (kdx kdx' : Kdx.t) (st st' : State) (l : list Key.t),
    loadKeys m kdx st = Ok (l, st') ->
    Kdx.first_word kdx' = Kdx.first_word kdx ->
    loadKeys m kdx' st' = Ok (l, st').
Proof.
  intros m kdx kdx' st st' l H E.
  unfold loadKeys in *. rewrite E.
  destruct (cached_keys st) as [c|] eqn:Hc.
  - destruct (String.eqb (pilot c) (Kdx.first_word kdx)) eqn:Hp.
    + injection H as <- <-. now rewrite Hc, Hp.
    + destruct (decodeKeys m kdx) as [l0| |]; cbn [bind] in H;
        try discriminate.
      injection H as <- <-. cbn [cached_keys pilot keys].
      now rewrite String.eqb_refl.
  - destruct (decodeKeys m kdx) as [l0| |]; cbn [bind] in H;
      try discriminate.
    injection H as <- <-. cbn [cached_keys pilot keys].
    now rewrite String.eqb_refl.
Qed.

Lemma X4_loadKeys_answers_from_the_cache_by_first_word_witness :
  loadKeys Demo.dict (Kdx.Build_t 2 "cat" "zebra" 1 1 0 0)
    {| cached_keys :=
         Some {| keys := withSizes [("cat", 16); ("feline", 31)];
                 pilot := "cat" |};
       mutual_ticket := 0; trail := None |}
  = Ok (withSizes [("cat", 16); ("feline", 31)],
        {| cached_keys :=
             Some {| keys := withSizes [("cat", 16); ("feline", 31)];
                     pilot := "cat" |};
           mutual_ticket := 0; trail := None |}).
Proof.
  exact (X4_loadKeys_answers_from_the_cache_by_first_word Demo.dict
           (Kdx.Build_t 2 "cat" "feline" 35 27 36 1)
           (Kdx.Build_t 2 "cat" "zebra" 1 1 0 0) fresh _ _ eq_refl eq_refl).
Defined.

(** ** The record block index *)

Module TableFill.
Import RecordBlockTable.

Lemma store_at (done : list Z) (x v : Z) (r : list Z) :
  store (done ++ x :: r) (List.length done) v = (done ++ v :: r)%list.
Proof.
  induction done as [|y done IH]; [reflexivity|].
  cbn [app List.length store]. now rewrite IH.
Qed.

Lemma put_at (done : list Z) (x y : Z) (r : list Z) (p0 p1 : Z) :
  put p0 p1 {| pos := Z.of_nat (List.length done);
               arr := Some (done ++ x :: y :: r)%list |}
  = Ok {| pos := Z.of_nat (List.length (done ++ [p0 mod 2 ^ 32; p1 mod 2 ^ 32]));
          arr := Some ((done ++ [p0 mod 2 ^ 32; p1 mod 2 ^ 32]) ++ r)%list |}.
Proof.
  unfold put, setU32. cbn [arr pos].
  destruct (Z.ltb_spec (Z.of_nat (List.length done)) 0); [lia|].
  destruct (Z.ltb_spec (Z.of_nat (List.length done) + 1) 0); [lia|].
  rewrite Nat2Z.id, store_at.
  replace (Z.to_nat (Z.of_nat (List.length done) + 1))
    with (List.length (done ++ [p0 mod 2 ^ 32])) by (rewrite length_app; simpl; lia).
  change (done ++ p0 mod 2 ^ 32 :: y :: r)%list
    with (done ++ [p0 mod 2 ^ 32] ++ y :: r)%list.
  rewrite app_assoc, store_at, <- !app_assoc. cbn [app].
  do 2 f_equal. rewrite !length_app. cbn [List.length]. lia.
Qed.

Lemma recordLoop_fills (szs : list (Z * Z)) :
  forall (sc : Scan.t) (rest : list byte) (p0 p1 : Z) (done zeros : list Z),
    Forall sizesFit szs ->
    ahead sc (recordIndexBytes (Scan.v2 sc) szs ++ rest) ->
    ('(r0, r1, tb) <-
       recordLoop (List.length szs) sc p0 p1
         {| pos := Z.of_nat (List.length done);
            arr := Some (done ++ repeat 0 (2 * List.length szs)
                         ++ 0 :: 0 :: zeros)%list |} ;;
     put r0 r1 tb)
    = Ok {| pos := Z.of_nat (List.length (done ++ offsetsFrom p0 p1 szs));
            arr := Some ((done ++ offsetsFrom p0 p1 szs) ++ zeros)%list |}.
Proof.
  induction szs as [|[c d] szs IH]; intros sc rest p0 p1 done zeros Hfit Ha.
  - cbn [List.length recordLoop bind Nat.mul repeat app offsetsFrom].
    apply put_at.
  - pose proof (Forall_inv Hfit) as [Hc Hd]. cbn [fst snd] in Hc, Hd.
    pose proof (Forall_inv_tail Hfit) as Hfit'.
    unfold recordIndexBytes in Ha. cbn [map List.concat fst snd] in Ha.
    rewrite <- !app_assoc in Ha.
    destruct (readNum_ahead sc c _ Hc Ha) as [Hn1 Ha1].
    destruct (readNum_ahead (Scan.forward (numWidth (Scan.v2 sc)) sc) d _ Hd Ha1)
      as [Hn2 Ha2].
    cbn [List.length recordLoop]. rewrite Hn1. cbn [bind]. rewrite Hn2.
    cbn [bind].
    replace (2 * S (List.length szs))%nat
      with (S (S (2 * List.length szs))) by lia.
    cbn [repeat app]. rewrite put_at. cbn [bind].
    rewrite (IH _ rest (p0 + c) (p1 + d)
               (done ++ [p0 mod 2 ^ 32; p1 mod 2 ^ 32])%list zeros Hfit' Ha2).
    cbn [offsetsFrom]. rewrite <- !app_assoc. reflexivity.
Qed.

End TableFill.

(** X5.  From a record block index that stores the sizes of the blocks as
    the format prescribes, [read_record_block] builds the table of their
    offsets: pair [i] holds the file position and the decompressed position
    where block [i] starts (the sums of the sizes before it, from
    [block_pos] and from 0), and a closing pair holds the two ends; all
    values are kept modulo 2^32. *)
Theorem X5_read_record_block_tabulates_the_offsets :
  forall (sc : Scan.t) (szs : list (Z * Z)) (block_pos : Z),
    Forall sizesFit szs ->
    read_record_block sc (recordIndexBytes (Scan.v2 sc) szs)
      (Z.of_nat (List.length szs)) block_pos
    = Ok {| RecordBlockTable.pos := 2 * (Z.of_nat (List.length szs) + 1);
            RecordBlockTable.arr := Some (offsetsFrom block_pos 0 szs) |}.
Proof.
  intros sc szs block_pos Hfit.
  unfold read_record_block, RecordBlockTable.alloc, RecordBlockTable.create.
  destruct (Z.ltb_spec (Z.of_nat (List.length szs) + 1) 0) as [H|_]; [lia|].
  cbn [bind RecordBlockTable.pos]. rewrite Nat2Z.id.
  replace (Z.to_nat ((Z.of_nat (List.length szs) + 1) * 2))
    with (2 * List.length szs + 2)%nat by lia.
  rewrite repeat_app. cbn [repeat].
  pose proof (TableFill.recordLoop_fills szs
                (Scan.init (recordIndexBytes (Scan.v2 sc) szs) sc) []
                block_pos 0 [] [] Hfit) as H.
  cbn [app List.length] in H. change (Z.of_nat 0) with 0 in H.
  rewrite H by apply (ahead_init _ sc).
  rewrite app_nil_r. do 2 f_equal.
  assert (L : forall l p0 p1,
             Z.of_nat (List.length (offsetsFrom p0 p1 l))
             = 2 * (Z.of_nat (List.length l) + 1)).
  { induction l as [|[c d] l IHl]; intros p0 p1; [reflexivity|].
    cbn [offsetsFrom List.length]. rewrite !Nat2Z.inj_succ, IHl. lia. }
  apply L.
Qed.

Lemma X5_read_record_block_tabulates_the_offsets_witness :
  read_record_block Samples.scanner1
    (recordIndexBytes false [(45, 37); (20, 63)]) 2 2048
  = Ok {| RecordBlockTable.pos := 6;
          RecordBlockTable.arr := Some [2048; 0; 2093; 37; 2113; 100] |}.
Proof.
  apply (X5_read_record_block_tabulates_the_offsets Samples.scanner1
           [(45, 37); (20, 63)] 2048).
  repeat constructor; cbn; lia.
Defined.

(** ** Definitions *)

(** A record stored as a terminated text at decompressed position
    [offset]: [find] gives its block and [readDefinition] the text. *)
Lemma stored_record_is_read :
  forall (m : Mdict) (a : list Z) (N offset : Z) (wide : bool) (t : string),
    RecordBlockTable.arr (RECORD_BLOCK_TABLE m) = Some a ->
    Z.of_nat (List.length a) = 2 * (N + 1) ->
    1 <= N ->
    RecordBlockTable.decompAt a 0 = 0 ->
    (forall i, 0 <= i < N ->
               RecordBlockTable.decompAt a i
               <= RecordBlockTable.decompAt a (i + 1)) ->
    0 <= offset <= RecordBlockTable.decompAt a N ->
    (forall i, 0 <= i < N ->
               RecordBlockTable.decompAt a i <= offset ->
               (i + 1 = N \/ offset < RecordBlockTable.decompAt a (i + 1)) ->
               exists pre post,
                 blockAt (recordBlocks m) (RecordBlockTable.compAt a i)
                 = Some (pre ++ Wire.text wide t ++ post)%list
                 /\ offset - RecordBlockTable.decompAt a i
                    = Z.of_nat (List.length pre)) ->
    Scan.bpu (scan (parser m)) = (if wide then 2 else 1) ->
    Wire.plain wide t = true ->
    exists b,
      RecordBlockTable.find offset (RECORD_BLOCK_TABLE m) = Ok (Some b)
      /\ readDefinition m b offset = Ok t.
Proof.
  intros m a N offset wide t Harr Hlen HN H0 Hasc Hp Hrec Hbpu Hplain.
  assert (Hhi : Z.shiftr (Z.of_nat (List.length a)) 1 - 1 = N).
  { rewrite FindProof.half, Hlen.
    replace (2 * (N + 1)) with ((N + 1) * 2) by lia.
    rewrite Z.div_mul by lia. lia. }
  destruct (FindProof.findLoop_lands a N offset Hlen (List.length a) 0 N)
    as (i & Hi & Hd & Hu & Hf); try lia.
  exists (blockOf a i). split.
  - unfold RecordBlockTable.find. rewrite Harr, Hhi.
    rewrite (FindProof.val_inside a N Hlen N) by lia.
    cbn [RecordBlockTable.gtU].
    destruct (Z.ltb_spec (RecordBlockTable.decompAt a N) offset); [lia|].
    destruct (Z.ltb_spec offset 0); [lia|]. exact Hf.
  - destruct (Hrec i Hi Hd Hu) as (pre & post & Hblk & Hoff).
    unfold readDefinition. cbn [comp_offset decomp_offset blockOf].
    rewrite Hblk.
    destruct (Texts.readText_ahead wide
                (Scan.forward (offset - RecordBlockTable.decompAt a i)
                   (Scan.init (pre ++ Wire.text wide t ++ post)%list
                      (scan (parser m))))
                t post Hbpu Hplain) as [Ht _].
    + exists pre, []. cbn [Scan.forward Scan.init Scan.buf Scan.offset].
      split; [now rewrite app_nil_r | lia].
    + rewrite Ht. reflexivity.
Qed.

(** X6.  With a populated record block table (at least one block, the
    decompressed offsets non-decreasing from 0), no style sheet, and a
    record stored at decompressed position [offset] of the record area as a
    terminated text that is not a link, [getDefinition(offset)] finds the
    enclosing block, moves to [offset - decomp_offset] inside it and
    resolves to exactly that text; the state of the reader is untouched.
    The reader is one whose decoder fits its units (Encoding 'UTF-16', or a
    label of UTF-8). *)
Theorem X6_getDefinition_returns_the_stored_text :
  forall (m : Mdict) (a : list Z) (N offset : Z) (wide : bool) (t : string)
         (st : State),
    RecordBlockTable.arr (RECORD_BLOCK_TABLE m) = Some a ->
    Z.of_nat (List.length a) = 2 * (N + 1) ->
    1 <= N ->
    RecordBlockTable.decompAt a 0 = 0 ->
    (forall i, 0 <= i < N ->
               RecordBlockTable.decompAt a i
               <= RecordBlockTable.decompAt a (i + 1)) ->
    0 <= offset <= RecordBlockTable.decompAt a N ->
    (forall i, 0 <= i < N ->
               RecordBlockTable.decompAt a i <= offset ->
               (i + 1 = N \/ offset < RecordBlockTable.decompAt a (i + 1)) ->
               exists pre post,
                 blockAt (recordBlocks m) (RecordBlockTable.compAt a i)
                 = Some (pre ++ Wire.text wide t ++ post)%list
                 /\ offset - RecordBlockTable.decompAt a i
                    = Z.of_nat (List.length pre)) ->
    Scan.enc (scan (parser m)) = (if wide then Scan.Utf16 else Scan.Utf8) ->
    Wire.plain wide t = true ->
    StyleSheet (parser m) = [] ->
    Js.substrTo 8 t <> "@@@LINK=" ->
    getDefinition m offset st = Ok (Text t, st).
Proof.
  intros m a N offset wide t st Harr Hlen HN H0 Hasc Hp Hrec Henc Hplain
    Hstyle Hlink.
  pose proof (Texts.width_of_enc wide _ Henc) as Hbpu.
  destruct (stored_record_is_read m a N offset wide t Harr Hlen HN H0 Hasc Hp
              Hrec Hbpu Hplain) as (b & Hfind & Hread).
  unfold getDefinition, mbind, lift. rewrite Hfind, Hread, Hstyle.
  cbn [List.length Nat.ltb Nat.leb ret]. unfold redirects.
  destruct (String.eqb_spec (Js.substrTo 8 t) "@@@LINK=") as [E|_];
    [contradiction|].
  reflexivity.
Qed.

Lemma X6_getDefinition_returns_the_stored_text_witness :
  getDefinition Demo.dict 31 fresh = Ok (Text "a cat", fresh).
Proof.
  apply (X6_getDefinition_returns_the_stored_text Demo.dict
           [2048; 0; 2093; 37] 1 31 false "a cat" fresh eq_refl eq_refl).
  - lia.
  - reflexivity.
  - intros i Hi. assert (i = 0) by lia. subst i. vm_compute. discriminate.
  - vm_compute. split; discriminate.
  - intros i Hi _ _. assert (i = 0) by lia. subst i.
    exists (Demo.text "fruit" ++ Demo.text "to put on"
            ++ Demo.text "@@@LINK=feline")%list, [].
    split; reflexivity.
  - reflexivity.
  - reflexivity.
  - reflexivity.
  - discriminate.
Defined.

(** X7.  [getDefinition] does not check what [find] returns: for a negative
    offset, and for an offset above the last decompressed offset of the
    table, [find] yields nothing and reading [block.comp_offset] is a
    TypeError, raised before any record is read. *)
Theorem X7_getDefinition_outside_the_table_is_a_TypeError :
  forall (m : Mdict) (offset : Z) (st : State),
    (offset < 0
     \/ exists a N,
          RecordBlockTable.arr (RECORD_BLOCK_TABLE m) = Some a
          /\ Z.of_nat (List.length a) = 2 * (N + 1)
          /\ 0 <= N
          /\ RecordBlockTable.decompAt a N < offset) ->
    getDefinition m offset st = Throw TypeError.
Proof.
  intros m offset st H.
  unfold getDefinition, mbind, lift, RecordBlockTable.find.
  destruct (RecordBlockTable.arr (RECORD_BLOCK_TABLE m)) as [a|] eqn:Harr;
    [|reflexivity].
  destruct H as [Hneg | (a' & N & Ha & Hlen & HN & Hbeyond)].
  - destruct (Z.ltb_spec offset 0); [|lia]. now rewrite orb_true_r.
  - injection Ha as <-.
    assert (Hhi : Z.shiftr (Z.of_nat (List.length a)) 1 - 1 = N).
    { rewrite FindProof.half, Hlen.
      replace (2 * (N + 1)) with ((N + 1) * 2) by lia.
      rewrite Z.div_mul by lia. lia. }
    rewrite Hhi, (FindProof.val_inside a N Hlen N) by lia.
    cbn [RecordBlockTable.gtU].
    destruct (Z.ltb_spec (RecordBlockTable.decompAt a N) offset); [|lia].
    reflexivity.
Qed.

Lemma X7_getDefinition_outside_the_table_is_a_TypeError_witness :
  getDefinition Demo.dict 38 fresh = Throw TypeError.
Proof.
  apply (X7_getDefinition_outside_the_table_is_a_TypeError Demo.dict 38 fresh).
  right. exists [2048; 0; 2093; 37], 1.
  repeat split; try reflexivity; discriminate.
Defined.

(** ** Style tags *)

Module Segments.

(** A segment that [Number] turns into NaN or 0 is passed over. *)
Lemma parseSegs_skips (seg : string) (segs : list string) (style : StyleTable) :
  Js.Number seg = Js.NaN \/ Js.Number seg = Js.Int 0 ->
  parseSegs (seg :: segs) style = parseSegs segs style.
Proof.
  intros H. cbn [parseSegs].
  destruct (String.eqb seg ""); [reflexivity|].
  destruct H as [-> | ->]; reflexivity.
Qed.

End Segments.

(** X8.  [parseRes] keeps tagged spans only: text in front of the first
    backtick that is not a style number (its [Number] is NaN or 0) is
    dropped, and a definition without any backtick expands to the empty
    string, whatever the style table holds. *)
Theorem X8_parseRes_drops_untagged_text :
  forall (pre rest : string) (style : StyleTable),
    Js.contains "`" pre = false ->
    Js.Number pre = Js.NaN \/ Js.Number pre = Js.Int 0 ->
    parseRes (pre ++ String "`" rest) style = parseRes rest style
    /\ parseRes pre style = Ok "".
Proof.
  intros pre rest style Hpre Hnum. unfold parseRes. split.
  - rewrite (split_at_separator _ _ _ Hpre).
    now apply Segments.parseSegs_skips.
  - rewrite (split_without_separator _ _ Hpre).
    now rewrite Segments.parseSegs_skips.
Qed.

Lemma X8_parseRes_drops_untagged_text_witness :
  parseRes ("see " ++ String "`" "1`bold") [None; Some ["<b>"; "</b>"]]
  = parseRes "1`bold" [None; Some ["<b>"; "</b>"]]
  /\ parseRes "see " [None; Some ["<b>"; "</b>"]] = Ok "".
Proof.
  apply (X8_parseRes_drops_untagged_text "see " "1`bold"
           [None; Some ["<b>"; "</b>"]]).
  - reflexivity.
  - left. reflexivity.
Defined.

(** X9.  A span whose tag is a non-zero number without an entry in the
    style table makes [parseRes] fail: [style[num]] is undefined and
    reading its element 0 is a TypeError. *)
Theorem X9_parseRes_unknown_tag_is_a_TypeError :
  forall (tag rest : string) (n : Z) (style : StyleTable),
    Js.contains "`" tag = false ->
    Js.Number tag = Js.Int n ->
    n <> 0 ->
    at_ style n = None \/ at_ style n = Some None ->
    parseRes (tag ++ String "`" rest) style = Throw TypeError.
Proof.
  intros tag rest n style Htag Hnum Hn Hmiss. unfold parseRes.
  rewrite (split_at_separator _ _ _ Htag). cbn [parseSegs].
  destruct (String.eqb_spec tag "") as [E|_].
  - subst tag. cbn in Hnum. injection Hnum as <-. contradiction.
  - rewrite Hnum. destruct (Z.eqb_spec n 0) as [E|_]; [contradiction|].
    destruct Hmiss as [-> | ->]; reflexivity.
Qed.

Lemma X9_parseRes_unknown_tag_is_a_TypeError_witness :
  parseRes ("3" ++ String "`" "bold") [None; Some ["<b>"; "</b>"]]
  = Throw TypeError.
Proof.
  apply (X9_parseRes_unknown_tag_is_a_TypeError "3" "bold" 3
           [None; Some ["<b>"; "</b>"]]).
  - reflexivity.
  - reflexivity.
  - discriminate.
  - left. reflexivity.
Defined.

(** X10.  When the header carries a style sheet, [getDefinition] passes
    every definition through [parseRes]: a stored record without a backtick
    and that is not a number then resolves to the empty text, not to the
    record. *)
Theorem X10_getDefinition_with_style_sheet_loses_untagged_text :
  forall (m : Mdict) (a : list Z) (N offset : Z) (wide : bool) (t : string)
         (st : State),
    RecordBlockTable.arr (RECORD_BLOCK_TABLE m) = Some a ->
    Z.of_nat (List.length a) = 2 * (N + 1) ->
    1 <= N ->
    RecordBlockTable.decompAt a 0 = 0 ->
    (forall i, 0 <= i < N ->
               RecordBlockTable.decompAt a i
               <= RecordBlockTable.decompAt a (i + 1)) ->
    0 <= offset <= RecordBlockTable.decompAt a N ->
    (forall i, 0 <= i < N ->
               RecordBlockTable.decompAt a i <= offset ->
               (i + 1 = N \/ offset < RecordBlockTable.decompAt a (i + 1)) ->
               exists pre post,
                 blockAt (recordBlocks m) (RecordBlockTable.compAt a i)
                 = Some (pre ++ Wire.text wide t ++ post)%list
                 /\ offset - RecordBlockTable.decompAt a i
                    = Z.of_nat (List.length pre)) ->
    Scan.bpu (scan (parser m)) = (if wide then 2 else 1) ->
    Wire.plain wide t = true ->
    StyleSheet (parser m) <> [] ->
    Js.contains "`" t = false ->
    Js.Number t = Js.NaN ->
    getDefinition m offset st = Ok (Text "", st).
Proof.
  intros m a N offset wide t st Harr Hlen HN H0 Hasc Hp Hrec Hbpu Hplain
    Hstyle Htick Hnum.
  destruct (stored_record_is_read m a N offset wide t Harr Hlen HN H0 Hasc Hp
              Hrec Hbpu Hplain) as (b & Hfind & Hread).
  unfold getDefinition, mbind, lift. rewrite Hfind, Hread.
  destruct (StyleSheet (parser m)) as [|e style] eqn:Es; [contradiction|].
  cbn [List.length Nat.ltb Nat.leb].
  unfold parseRes. rewrite (split_without_separator _ _ Htick).
  rewrite Segments.parseSegs_skips by (now left).
  reflexivity.
Qed.

Lemma X10_getDefinition_with_style_sheet_loses_untagged_text_witness :
  getDefinition Samples.styled 31 fresh = Ok (Text "", fresh).
Proof.
  apply (X10_getDefinition_with_style_sheet_loses_untagged_text Samples.styled
           [2048; 0; 2093; 37] 1 31 false "a cat" fresh eq_refl eq_refl).
  - lia.
  - reflexivity.
  - intros i Hi. assert (i = 0) by lia. subst i. vm_compute. discriminate.
  - vm_compute. split; discriminate.
  - intros i Hi _ _. assert (i = 0) by lia. subst i.
    exists (Demo.text "fruit" ++ Demo.text "to put on"
            ++ Demo.text "@@@LINK=feline")%list, [].
    split; reflexivity.
  - reflexivity.
  - reflexivity.
  - discriminate.
  - reflexivity.
  - reflexivity.
Defined.

(** ** The summaries *)

Lemma readNum_profile (s s' : Scan.t) (v : Z) :
  Scan.readNum s = Ok (v, s') ->
  Scan.v2 s' = Scan.v2 s /\ Scan.buf s' = Scan.buf s
  /\ Scan.offset s' = Scan.offset s + numWidth (Scan.v2 s).
Proof.
  unfold Scan.readNum, Scan.readInt, numWidth.
  destruct (Scan.v2 s) eqn:V.
  - destruct (Scan.getUint32 _ _) as [x| |]; cbn [bind]; try discriminate.
    intros H. injection H as <- <-.
    cbn [Scan.forward Scan.v2 Scan.buf Scan.offset]. repeat split; [exact V | lia].
  - destruct (Scan.getUint32 _ _) as [x| |]; cbn [bind]; try discriminate.
    intros H. injection H as <- <-.
    cbn [Scan.forward Scan.v2 Scan.buf Scan.offset]. repeat split. exact V.
Qed.

Lemma readNum_outcome (s : Scan.t) :
  (exists v s', Scan.readNum s = Ok (v, s'))
  \/ Scan.readNum s = Throw RangeError.
Proof.
  unfold Scan.readNum, Scan.readInt, Scan.getUint32.
  destruct (Scan.v2 s);
    repeat match goal with
           | |- context [Scan.byteAt ?b ?i] => destruct (Scan.byteAt b i)
           end; cbn [bind]; eauto.
Qed.

(** X11.  A dictionary whose engine version is below 2 never gets past the
    keyword summary: the scanner of such a file has no [checksumV2], so
    [read_keyword_summary] ends in a TypeError once the numbers are read
    (or in the RangeError of a short input), whatever the file holds. *)
Theorem X11_read_keyword_summary_fails_below_version_2 :
  forall (sc : Scan.t) (input : list byte) (offset : Z),
    Scan.v2 sc = false ->
    read_keyword_summary sc input offset = Throw TypeError
    \/ read_keyword_summary sc input offset = Throw RangeError.
Proof.
  intros sc input offset V. unfold read_keyword_summary.
  set (s0 := Scan.forward offset (Scan.init input sc)).
  assert (V0 : Scan.v2 s0 = false) by exact V.
  destruct (readNum_outcome s0) as [(nb & s1 & E1) | E1];
    rewrite E1; cbn [bind]; [|now right].
  destruct (readNum_profile _ _ _ E1) as (V1 & _ & _). rewrite V0 in V1.
  destruct (readNum_outcome s1) as [(ne & s2 & E2) | E2];
    rewrite E2; cbn [bind]; [|now right].
  destruct (readNum_profile _ _ _ E2) as (V2 & _ & _). rewrite V1 in V2.
  rewrite V2. cbn [bind].
  destruct (readNum_outcome s2) as [(cl & s4 & E4) | E4];
    rewrite E4; cbn [bind]; [|now right].
  destruct (readNum_profile _ _ _ E4) as (V4 & _ & _). rewrite V2 in V4.
  destruct (readNum_outcome s4) as [(bl & s5 & E5) | E5];
    rewrite E5; cbn [bind]; [|now right].
  destruct (readNum_profile _ _ _ E5) as (V5 & _ & _). rewrite V4 in V5.
  unfold ScanBlock.checksumV2. rewrite V5. now left.
Qed.

Lemma X11_read_keyword_summary_fails_below_version_2_witness :
  read_keyword_summary Samples.scanner1
    (Wire.num false 1 ++ Wire.num false 2 ++ Wire.num false 30
     ++ Wire.num false 40 ++ Wire.u32be 0)%list 0
  = Throw TypeError
  \/ read_keyword_summary Samples.scanner1
       (Wire.num false 1 ++ Wire.num false 2 ++ Wire.num false 30
        ++ Wire.num false 40 ++ Wire.u32be 0)%list 0
     = Throw RangeError.
Proof.
  apply (X11_read_keyword_summary_fails_below_version_2 Samples.scanner1).
  reflexivity.
Defined.

(** X12.  For version 2 and later the keyword summary is five numbers and
    a checksum: stored as the format prescribes at [offset] of the input,
    they are read back in the order num_blocks, num_entries,
    key_index_decomp_len, key_index_comp_len, key_blocks_len, and the
    length of the summary is 44 bytes; the checksum is stepped over
    unread. *)
Theorem X12_read_keyword_summary_reads_back_version_2 :
  forall (sc : Scan.t) (pre post : list byte) (nb ne dl cl bl : Z),
    Scan.v2 sc = true ->
    0 <= nb < 2 ^ 32 -> 0 <= ne < 2 ^ 32 -> 0 <= dl < 2 ^ 32 ->
    0 <= cl < 2 ^ 32 -> 0 <= bl < 2 ^ 32 ->
    read_keyword_summary sc
      (pre ++ Wire.num true nb ++ Wire.num true ne ++ Wire.num true dl
       ++ Wire.num true cl ++ Wire.num true bl ++ post)%list
      (Z.of_nat (List.length pre))
    = Ok {| Keyword.num_blocks := nb; Keyword.num_entries := ne;
            Keyword.key_index_decomp_len := Some dl;
            Keyword.key_index_comp_len := cl; Keyword.key_blocks_len := bl;
            Keyword.len := 44 |}.
Proof.
  intros sc pre post nb ne dl cl bl V Hnb Hne Hdl Hcl Hbl.
  unfold read_keyword_summary.
  set (input := (pre ++ _)%list).
  set (s0 := Scan.forward (Z.of_nat (List.length pre)) (Scan.init input sc)).
  assert (V0 : Scan.v2 s0 = true) by exact V.
  assert (A0 : ahead s0 (Wire.num (Scan.v2 s0) nb
                         ++ Wire.num true ne ++ Wire.num true dl
                         ++ Wire.num true cl ++ Wire.num true bl ++ post)).
  { rewrite V0. exists pre, []. split; [|reflexivity].
    cbn [s0 Scan.forward Scan.init Scan.buf]. subst input.
    now rewrite <- !app_assoc, app_nil_r. }
  destruct (readNum_ahead s0 nb _ Hnb A0) as [E1 A1]. rewrite E1. cbn [bind].
  set (s1 := Scan.forward (numWidth (Scan.v2 s0)) s0) in *.
  assert (V1 : Scan.v2 s1 = true) by exact V.
  rewrite <- V1 in A1 at 1.
  destruct (readNum_ahead s1 ne _ Hne A1) as [E2 A2]. rewrite E2. cbn [bind].
  set (s2 := Scan.forward (numWidth (Scan.v2 s1)) s1) in *.
  assert (V2 : Scan.v2 s2 = true) by exact V.
  rewrite V2. rewrite <- V2 in A2 at 1.
  destruct (readNum_ahead s2 dl _ Hdl A2) as [E3 A3]. rewrite E3. cbn [bind].
  set (s3 := Scan.forward (numWidth (Scan.v2 s2)) s2) in *.
  assert (V3 : Scan.v2 s3 = true) by exact V.
  rewrite <- V3 in A3 at 1.
  destruct (readNum_ahead s3 cl _ Hcl A3) as [E4 A4]. rewrite E4. cbn [bind].
  set (s4 := Scan.forward (numWidth (Scan.v2 s3)) s3) in *.
  assert (V4 : Scan.v2 s4 = true) by exact V.
  rewrite <- V4 in A4 at 1.
  destruct (readNum_ahead s4 bl _ Hbl A4) as [E5 A5]. rewrite E5. cbn [bind].
  unfold ScanBlock.checksumV2.
  cbn [Scan.forward Scan.v2 Scan.offset s4 s3 s2 s1 s0 Scan.init].
  rewrite V. cbn [bind Scan.forward Scan.offset numWidth].
  do 2 f_equal. subst s4 s3 s2 s1 s0.
  cbn [Scan.forward Scan.offset Scan.init Scan.v2]. rewrite V.
  cbn [numWidth]. lia.
Qed.

Lemma X12_read_keyword_summary_reads_back_version_2_witness :
  read_keyword_summary (scan Demo.state)
    ([x00; x00; x04; x1c] ++ Wire.num true 2 ++ Wire.num true 4
     ++ Wire.num true 120 ++ Wire.num true 128 ++ Wire.num true 71 ++ [])%list
    (Z.of_nat (List.length [x00; x00; x04; x1c]))
  = Ok {| Keyword.num_blocks := 2; Keyword.num_entries := 4;
          Keyword.key_index_decomp_len := Some 120;
          Keyword.key_index_comp_len := 128; Keyword.key_blocks_len := 71;
          Keyword.len := 44 |}.
Proof.
  apply (X12_read_keyword_summary_reads_back_version_2 (scan Demo.state)
           [x00; x00; x04; x1c] [] 2 4 120 128 71); try reflexivity; lia.
Defined.

(** X13.  The record summary is four numbers: stored as the format
    prescribes they are read back in the order num_blocks, num_entries,
    index_len, blocks_len; the summary is 16 bytes long below version 2 and
    32 from version 2 on, and the record blocks start at
    [pos + index_len + len]. *)
Theorem X13_read_record_summary_reads_back_the_stored_numbers :
  forall (sc : Scan.t) (post : list byte) (pos nb ne il bl : Z),
    0 <= nb < 2 ^ 32 -> 0 <= ne < 2 ^ 32 ->
    0 <= il < 2 ^ 32 -> 0 <= bl < 2 ^ 32 ->
    read_record_summary sc
      (Wire.num (Scan.v2 sc) nb ++ Wire.num (Scan.v2 sc) ne
       ++ Wire.num (Scan.v2 sc) il ++ Wire.num (Scan.v2 sc) bl ++ post)%list
      pos
    = Ok {| RecordSummary.num_blocks := nb; RecordSummary.num_entries := ne;
            RecordSummary.index_len := il; RecordSummary.blocks_len := bl;
            RecordSummary.len := if Scan.v2 sc then 32 else 16;
            RecordSummary.block_pos :=
              pos + il + (if Scan.v2 sc then 32 else 16) |}.
Proof.
  intros sc post pos nb ne il bl Hnb Hne Hil Hbl.
  unfold read_record_summary.
  set (input := (Wire.num _ nb ++ _)%list).
  set (s0 := Scan.init input sc).
  assert (A0 : ahead s0 (Wire.num (Scan.v2 s0) nb ++ Wire.num (Scan.v2 sc) ne
                         ++ Wire.num (Scan.v2 sc) il
                         ++ Wire.num (Scan.v2 sc) bl ++ post)).
  { exists [], []. split; [|reflexivity].
    cbn [s0 Scan.init Scan.buf Scan.v2 app]. subst input.
    now rewrite app_nil_r. }
  destruct (readNum_ahead s0 nb _ Hnb A0) as [E1 A1]. rewrite E1. cbn [bind].
  destruct (readNum_ahead _ ne _ Hne A1) as [E2 A2]. rewrite E2. cbn [bind].
  destruct (readNum_ahead _ il _ Hil A2) as [E3 A3]. rewrite E3. cbn [bind].
  destruct (readNum_ahead _ bl _ Hbl A3) as [E4 A4]. rewrite E4. cbn [bind].
  cbn [Scan.forward Scan.v2 Scan.offset s0 Scan.init].
  unfold numWidth. destruct (Scan.v2 sc); reflexivity.
Qed.

Lemma X13_read_record_summary_reads_back_the_stored_numbers_witness :
  read_record_summary (scan Demo.state)
    (Wire.num true 1 ++ Wire.num true 4 ++ Wire.num true 16
     ++ Wire.num true 45 ++ [])%list 1000
  = Ok {| RecordSummary.num_blocks := 1; RecordSummary.num_entries := 4;
          RecordSummary.index_len := 16; RecordSummary.blocks_len := 45;
          RecordSummary.len := 32; RecordSummary.block_pos := 1048 |}.
Proof.
  apply (X13_read_record_summary_reads_back_the_stored_numbers
           (scan Demo.state) [] 1000 1 4 16 45); lia.
Defined.

(** ** File names and resource keys *)

Module Dots.

Lemma contains_app_sep (ch : ascii) (a b : string) :
  Js.contains ch (a ++ String ch b) = true.
Proof.
  induction a as [|c a IH]; cbn [append Js.contains].
  - now rewrite Ascii.eqb_refl.
  - rewrite IH. apply orb_true_r.
Qed.

Lemma getExtension_dotless (s : string) :
  Js.contains "." s = false -> getExtension s = None.
Proof.
  induction s as [|c s IH]; [reflexivity|].
  cbn [Js.contains getExtension]. intros H. apply orb_false_elim in H.
  destruct H as [Hc Hs]. now rewrite (IH Hs), Hc.
Qed.

Lemma stripMdd_dotless (s : string) :
  Js.contains "." s = false -> stripMdd s = stripMdx s.
Proof.
  induction s as [|c s IH]; [reflexivity|].
  cbn [Js.contains stripMdd stripMdx]. intros H. apply orb_false_elim in H.
  destruct H as [Hc Hs]. now rewrite Hc, (IH Hs).
Qed.

Lemma stripMdx_dotless (s : string) : Js.contains "." (stripMdx s) = false.
Proof.
  induction s as [|c s IH]; [reflexivity|]. cbn [stripMdx].
  destruct (stripClass c) eqn:Sc; [exact IH|].
  cbn [Js.contains]. rewrite IH, orb_false_r.
  destruct (Ascii.eqb_spec c ".") as [->|_]; [discriminate Sc | reflexivity].
Qed.

(** A key with a dot: everything before the last dot is stripped like an
    .mdx key, the dot and what follows are kept. *)
Lemma stripMdd_split (stem e : string) :
  Js.contains "." e = false ->
  stripMdd (stem ++ String "." e) = stripMdx stem ++ String "." e.
Proof.
  intros He. induction stem as [|c stem IH].
  - cbn [append stripMdd stripMdx]. now rewrite Ascii.eqb_refl, He.
  - cbn [append stripMdd stripMdx].
    rewrite contains_app_sep, andb_false_r, IH.
    destruct (stripClass c); reflexivity.
Qed.

(** Every string is dot-free or ends in a dot and a dot-free extension. *)
Lemma last_dot (s : string) :
  Js.contains "." s = false
  \/ exists stem e, s = stem ++ String "." e /\ Js.contains "." e = false.
Proof.
  induction s as [|c s IH]; [now left|].
  destruct IH as [Hs | (stem & e & -> & He)].
  - destruct (Ascii.eqb_spec c ".") as [->|Hc].
    + right. exists "", s. split; [reflexivity | exact Hs].
    + left. cbn [Js.contains]. rewrite Hs, orb_false_r.
      now apply Ascii.eqb_neq.
  - right. exists (String c stem), e. split; [reflexivity | exact He].
Qed.

Lemma stripMdd_idem (s : string) : stripMdd (stripMdd s) = stripMdd s.
Proof.
  destruct (last_dot s) as [Hs | (stem & e & -> & He)].
  - rewrite (stripMdd_dotless s Hs).
    rewrite (stripMdd_dotless _ (stripMdx_dotless s)).
    apply Folding.stripMdx_idem.
  - rewrite !(stripMdd_split _ _ He). now rewrite Folding.stripMdx_idem.
Qed.

Lemma dot_lowerChar (c : ascii) :
  Ascii.eqb (Js.lowerChar c) "." = Ascii.eqb c ".".
Proof. Folding.by_cases c. Qed.

Lemma contains_dot_toLowerCase (s : string) :
  Js.contains "." (Js.toLowerCase s) = Js.contains "." s.
Proof.
  induction s as [|c s IH]; [reflexivity|].
  cbn [Js.toLowerCase Js.contains]. now rewrite dot_lowerChar, IH.
Qed.

Lemma stripMdd_toLowerCase (s : string) :
  Js.toLowerCase (stripMdd s) = stripMdd (Js.toLowerCase s).
Proof.
  induction s as [|c s IH]; [reflexivity|].
  cbn [Js.toLowerCase stripMdd].
  rewrite dot_lowerChar, contains_dot_toLowerCase, Folding.stripClass_lowerChar.
  destruct (Ascii.eqb c "." && negb (Js.contains "." s))%bool; [reflexivity|].
  destruct (stripClass c); cbn [Js.toLowerCase]; now rewrite IH.
Qed.

End Dots.

(** X14.  [getExtension] yields the text after the last dot of a file name,
    and nothing for a name without a dot. *)
Theorem X14_getExtension_is_the_text_after_the_last_dot :
  forall (stem e : string),
    e <> "" ->
    Js.contains "." e = false ->
    getExtension (stem ++ String "." e) = Some e
    /\ (Js.contains "." stem = false -> getExtension stem = None).
Proof.
  intros stem e Hne He. split; [|apply Dots.getExtension_dotless].
  induction stem as [|c stem IH].
  - cbn [append getExtension].
    rewrite (Dots.getExtension_dotless e He), He.
    destruct e; [contradiction | reflexivity].
  - cbn [append getExtension]. now rewrite IH.
Qed.

Lemma X14_getExtension_is_the_text_after_the_last_dot_witness :
  getExtension ("oxford.v2" ++ String "." "mdx") = Some "mdx"
  /\ (Js.contains "." "oxford.v2" = false -> getExtension "oxford.v2" = None).
Proof.
  apply (X14_getExtension_is_the_text_after_the_last_dot "oxford.v2" "mdx").
  - discriminate.
  - reflexivity.
Defined.

(** X15.  The pattern for resource keys keeps the file extension: in a key
    that ends in a dot and a dot-free extension, the characters of the
    strip class are deleted before that last dot only, and the dot and the
    extension stay as they are, even where the extension holds characters
    of the class; a key without a dot is stripped like an .mdx key. *)
Theorem X15_stripMdd_keeps_the_extension :
  forall (stem e : string),
    Js.contains "." e = false ->
    REGEXP_STRIPKEY Mdd (stem ++ String "." e)
    = REGEXP_STRIPKEY Mdx stem ++ String "." e
    /\ REGEXP_STRIPKEY Mdd e = REGEXP_STRIPKEY Mdx e.
Proof.
  intros stem e He. cbn [REGEXP_STRIPKEY]. split.
  - exact (Dots.stripMdd_split stem e He).
  - exact (Dots.stripMdd_dotless e He).
Qed.

Lemma X15_stripMdd_keeps_the_extension_witness :
  REGEXP_STRIPKEY Mdd ("\img/a_b.c" ++ String "." "p-ng")
  = REGEXP_STRIPKEY Mdx "\img/a_b.c" ++ String "." "p-ng"
  /\ REGEXP_STRIPKEY Mdd "p-ng" = REGEXP_STRIPKEY Mdx "p-ng".
Proof.
  exact (X15_stripMdd_keeps_the_extension "\img/a_b.c" "p-ng" eq_refl).
Defined.

(** X16.  The key normal form is idempotent for both kinds of file and
    whatever the build passes as [this]: what [adaptKey] returns is a fixed
    point of [adaptKey], so adapting the phrase a second time (as
    [seekVanguard] does in its walk back) changes nothing. *)
Theorem X16_adaptKey_is_idempotent :
  forall (this : option Receiver) (attrs : HeaderSection) (e : Ext)
         (k a : string),
    adaptKeyOf this attrs e k = Ok a ->
    adaptKeyOf this attrs e a = Ok a.
Proof.
  intros this attrs e k a.
  assert (Hidem : forall s, REGEXP_STRIPKEY e (REGEXP_STRIPKEY e s)
                            = REGEXP_STRIPKEY e s).
  { destruct e; [apply Folding.stripMdx_idem | apply Dots.stripMdd_idem]. }
  assert (Hlow : forall s, Js.toLowerCase (REGEXP_STRIPKEY e s)
                           = REGEXP_STRIPKEY e (Js.toLowerCase s)).
  { destruct e; [apply Folding.stripMdx_toLowerCase
                | apply Dots.stripMdd_toLowerCase]. }
  unfold adaptKeyOf, getAdaptKey.
  destruct (isTrue (KeyCaseSensitive attrs)).
  - intros H. injection H as <-. destruct (isTrue (StripKey attrs)).
    + now rewrite Hidem.
    + reflexivity.
  - destruct (stripKeyOrDefault this attrs) as [v| |]; cbn [bind];
      try discriminate.
    intros H. injection H as <-. destruct (isTrue v).
    + now rewrite Hlow, Folding.toLowerCase_idem, Hidem.
    + now rewrite Folding.toLowerCase_idem.
Qed.

Lemma X16_adaptKey_is_idempotent_witness :
  adaptKeyOf None Demo.header Mdd "imgab.png" = Ok "imgab.png".
Proof.
  exact (X16_adaptKey_is_idempotent None Demo.header Mdd "\IMG/a-b.PNG"
           "imgab.png" eq_refl).
Defined.

(** ** The keyword-index cipher *)

Module CipherFacts.
Import Crypt Bytes Cipher.

Lemma swap_swap (b : byte) : swap (byteZ (zByte (swap (byteZ b)))) mod 256 = byteZ b.
Proof. destruct b; reflexivity. Qed.

Lemma low_bits (z n : Z) :
  0 <= n -> Z.testbit (z mod 256) n = ((n <? 8) && Z.testbit z n)%bool.
Proof.
  intros Hn. change 256 with (2 ^ 8).
  destruct (Z.ltb_spec n 8); cbn [andb].
  - apply Z.mod_pow2_bits_low. lia.
  - apply Z.mod_pow2_bits_high. lia.
Qed.

Lemma small_bits (z n : Z) :
  0 <= z < 256 -> 8 <= n -> Z.testbit z n = false.
Proof.
  intros Hz Hn. rewrite <- (Z.mod_small z (2 ^ 8)) by (change (2 ^ 8) with 256; lia).
  apply Z.mod_pow2_bits_high. lia.
Qed.

Lemma lxor_small (a b : Z) : 0 <= a < 256 -> 0 <= b < 256 -> 0 <= Z.lxor a b < 256.
Proof.
  intros Ha Hb.
  assert (H0 : 0 <= Z.lxor a b) by (apply Z.lxor_nonneg; lia).
  split; [exact H0|].
  destruct (Z.eq_dec (Z.lxor a b) 0) as [E|E]; [lia|].
  change 256 with (2 ^ 8). apply Z.log2_lt_pow2; [lia|].
  pose proof (Z.log2_lxor a b ltac:(lia) ltac:(lia)) as L.
  assert (La : Z.log2 a < 8).
  { destruct (Z.eq_dec a 0) as [->|]; [cbn; lia|].
    apply Z.log2_lt_pow2; [lia|]. change (2 ^ 8) with 256. lia. }
  assert (Lb : Z.log2 b < 8).
  { destruct (Z.eq_dec b 0) as [->|]; [cbn; lia|].
    apply Z.log2_lt_pow2; [lia|]. change (2 ^ 8) with 256. lia. }
  lia.
Qed.

Lemma keyAt_small (key : list byte) (i : Z) : 0 <= keyAt key i < 256.
Proof.
  unfold keyAt. destruct (at_ key _); [apply byteZ_range | lia].
Qed.

Lemma index_small (i : Z) : 0 <= Z.land i 255 < 256.
Proof.
  change 255 with (Z.ones 8). rewrite Z.land_ones by lia.
  change (2 ^ 8) with 256. apply Z.mod_pos_bound. lia.
Qed.

(** Undoing the mix: the same three values are xored in again. *)
Lemma unmix (s p prev i k : Z) :
  0 <= p < 256 -> 0 <= prev < 256 -> 0 <= i < 256 -> 0 <= k < 256 ->
  s mod 256 = Z.lxor (Z.lxor (Z.lxor p prev) i) k ->
  Z.lxor (Z.lxor (Z.lxor s prev) i) k mod 256 = p.
Proof.
  intros Hp Hprev Hi Hk Hs. apply Z.bits_inj'. intros n Hn.
  rewrite low_bits by exact Hn. rewrite !Z.lxor_spec.
  destruct (Z.ltb_spec n 8) as [L|L]; cbn [andb].
  - assert (Hb : Z.testbit s n = Z.testbit (s mod 256) n).
    { rewrite low_bits by exact Hn.
      destruct (Z.ltb_spec n 8); [reflexivity | lia]. }
    rewrite Hb, Hs, !Z.lxor_spec.
    destruct (Z.testbit p n), (Z.testbit prev n), (Z.testbit i n),
      (Z.testbit k n); reflexivity.
  - symmetry. now apply small_bits.
Qed.

Lemma zByte_mod (z : Z) : zByte (z mod 256) = zByte z.
Proof. unfold zByte. now rewrite Z.mod_mod by lia. Qed.

Lemma decrypt_encrypt_loop (key : list byte) (plain : list byte) :
  forall (prev i : Z),
    0 <= prev < 256 ->
    decryptLoop key prev i (encryptLoop key prev i plain) = plain.
Proof.
  induction plain as [|p plain IH]; intros prev i Hprev; [reflexivity|].
  cbn [encryptLoop decryptLoop]. fold (keyAt key i).
  set (x := Z.lxor (Z.lxor (Z.lxor (byteZ p) prev) (Z.land i 255))
              (keyAt key i)).
  fold (swap x). fold (swap (byteZ (zByte (swap x)))).
  assert (Hx : 0 <= x < 256).
  { subst x. repeat apply lxor_small;
      auto using byteZ_range, keyAt_small, index_small. }
  f_equal.
  - assert (Ex : x = byteZ (zByte x))
      by (now rewrite byteZ_zByte, Z.mod_small).
    assert (Hs : swap (byteZ (zByte (swap x))) mod 256 = x)
      by (rewrite Ex; apply swap_swap).
    rewrite <- zByte_mod.
    rewrite (unmix _ (byteZ p) prev (Z.land i 255) (keyAt key i));
      auto using byteZ_range, keyAt_small, index_small, zByte_byteZ.
  - apply IH. apply byteZ_range.
Qed.

End CipherFacts.

(** X17.  [decrypt] undoes the cipher of the keyword index: a block
    enciphered byte by byte (each plain byte xored with the previous cipher
    byte, the index and the digest of the key, then its nibbles swapped,
    starting from 0x36) is given back unchanged, whatever the digest
    function and the key. *)
Theorem X17_decrypt_undoes_the_cipher :
  forall (ripemd128 : list byte -> list byte) (plain key : list byte),
    Crypt.decrypt ripemd128 (Cipher.encrypt ripemd128 plain key) key = plain.
Proof.
  intros ripemd128 plain key. unfold Crypt.decrypt, Cipher.encrypt.
  apply CipherFacts.decrypt_encrypt_loop. lia.
Qed.

(** ** Resource files *)

(** X18.  On a resource file (.mdd) [getWordList] never resolves: the
    candidates are filtered with [e.toLowerCase()], which the entries
    [{word, offset}] do not have, so a non-empty candidate list ends in a
    TypeError and an empty one in '*RESOURCE NOT FOUND*'; [findResource]
    is never reached. *)
Theorem X18_resource_lookup_never_resolves :
  forall (m : Mdict) (query : Query) (offset : option Z) (st : State),
    ext (parser m) = Mdd ->
    forall (a : Answer) (st' : State),
      getWordList m query offset st <> Ok (a, st').
Proof.
  intros m query offset st Hext a st'. unfold getWordList. rewrite Hext.
  unfold mdd. destruct query as [q|o]; unfold mbind, throw;
    [|discriminate].
  cbv zeta.
  match goal with
  | |- context [seekVanguard m ?w st] =>
      destruct (seekVanguard m w st) as [[[[kdx idx] l0] st1]| |]
  end; try discriminate.
  destruct (sliceFrom l0 idx); discriminate.
Qed.

Lemma X18_resource_lookup_never_resolves_witness :
  getWordList Samples.resources (QString "cat") None fresh
  <> Ok (Resource [], fresh).
Proof.
  exact (X18_resource_lookup_never_resolves Samples.resources (QString "cat")
           None fresh eq_refl (Resource []) fresh).
Defined.

(** ** Pages of [matchKeys] *)

Module Steps.

Lemma mbind_Ok {A B : Type} (c : M A) (k : A -> M B) (st : State)
  (r : B * State) :
  mbind c k st = Ok r ->
  exists a st1, c st = Ok (a, st1) /\ k a st1 = Ok r.
Proof.
  unfold mbind. destruct (c st) as [[a st1]| |]; [eauto | discriminate..].
Qed.

Lemma lift_Ok {A : Type} (x : Res A) (st : State) (a : A) (st' : State) :
  lift x st = Ok (a, st') -> x = Ok a /\ st' = st.
Proof.
  unfold lift. destruct x; [|discriminate..].
  intros H. injection H as <- <-. now split.
Qed.

Lemma getTrail_Ok (st : State) (tr : Trail.t) (st' : State) :
  getTrail st = Ok (tr, st') -> trail st = Some tr /\ st' = st.
Proof.
  unfold getTrail. destruct (trail st); [|discriminate].
  intros H. injection H as <- <-. now split.
Qed.

Lemma updTrail_Ok (f : Trail.t -> Trail.t) (st : State) (u : unit)
  (st' : State) :
  updTrail f st = Ok (u, st') ->
  exists tr, trail st = Some tr /\ trail st' = Some (f tr).
Proof.
  unfold updTrail. intros H. apply mbind_Ok in H.
  destruct H as (tr & st1 & Hg & Hp). apply getTrail_Ok in Hg.
  destruct Hg as [Ht ->]. unfold putTrail in Hp. injection Hp as _ <-.
  exists tr. now split.
Qed.

Lemma loadKeys_trail (m : Mdict) (k : Kdx.t) (st : State) (l : list Key.t)
  (st' : State) :
  loadKeys m k st = Ok (l, st') -> trail st' = trail st.
Proof.
  unfold loadKeys.
  destruct (cached_keys st) as [c|];
    [destruct (String.eqb (pilot c) (Kdx.first_word k))|];
    try (destruct (decodeKeys m k); cbn [bind]; try discriminate);
    intros H; injection H as _ <-; reflexivity.
Qed.

Lemma sliceTo_length {A : Type} (l : list A) (n : Z) :
  0 <= n -> Z.of_nat (List.length (sliceTo l n)) <= n.
Proof.
  intros Hn. unfold sliceTo. destruct (Z.ltb_spec n 0); [lia|].
  rewrite length_firstn. lia.
Qed.

(** The hits of one [filter] call are counted in the trail, and the count
    never passes the expected size. *)
Lemma filterFrom_counts (es : Z) (t : Key.t -> bool) (l : list Key.t) :
  forall (i : Z) (tr : Trail.t) (hits : list Key.t) (tr' : Trail.t),
    filterFrom es t l i tr = (hits, tr') ->
    Trail.count tr' = Trail.count tr + Z.of_nat (List.length hits)
    /\ (Trail.count tr <= es -> Trail.count tr' <= es).
Proof.
  induction l as [|s l IH]; intros i tr hits tr' H; cbn [filterFrom] in H.
  - injection H as <- <-. cbn [List.length]. split; lia.
  - destruct ((Trail.count tr <? es) && t s)%bool eqn:C.
    + destruct (filterFrom es t l (i + 1) _) as [r' tr''] eqn:E.
      injection H as <- <-. apply IH in E. destruct E as [E1 E2].
      cbn [Trail.count Trail.setPos Trail.setTotal Trail.setCount] in E1, E2.
      apply andb_prop in C. destruct C as [C _]. apply Z.ltb_lt in C.
      cbn [List.length]. split; lia.
    + now apply IH in H.
Qed.

Section Pages.

Variable m : Mdict.

(** The three updates that close a plain page, then the page itself. *)
Lemma closing_page (es : Z) (l : list Key.t) (st : State)
  (r : list Key.t) (st' : State) :
  (_ <-- updTrail (fun tr =>
           if es <? Trail.pos tr then Trail.setPos es tr else tr) ;;
   _ <-- updTrail (Trail.setCount (Z.of_nat (List.length (sliceTo l es)))) ;;
   _ <-- updTrail (fun tr =>
           Trail.setTotal (Trail.total tr + Trail.count tr) tr) ;;
   ret (sliceTo l es))%M st = Ok (r, st') ->
  r = sliceTo l es.
Proof.
  intros H.
  apply mbind_Ok in H. destruct H as (? & ? & _ & H).
  apply mbind_Ok in H. destruct H as (? & ? & _ & H).
  apply mbind_Ok in H. destruct H as (? & ? & _ & H).
  unfold ret in H. now injection H as <- _.
Qed.

Lemma appendMore_plain (fuel : nat) :
  forall (word : string) (l : list Key.t) (nk : option Kdx.t) (es ticket : Z)
         (st : State) (r : list Key.t) (st' : State),
    0 <= es ->
    appendMore m fuel word l nk es None ticket st = Ok (r, st') ->
    Z.of_nat (List.length r) <= es.
Proof.
  induction fuel as [|fuel IH]; intros word l nk es ticket st r st' Hes H;
    cbn [appendMore] in H;
    (destruct (negb (ticket =? mutual_ticket st)); [discriminate|]);
    (destruct nk as [nk|];
     [destruct (0 <? es - Z.of_nat (List.length l)) |]);
    try discriminate;
    try (apply closing_page in H; subst r; now apply sliceTo_length).
  apply mbind_Ok in H. destruct H as (? & ? & _ & H).
  apply mbind_Ok in H. destruct H as (more & ? & _ & H).
  apply mbind_Ok in H. destruct H as (? & ? & _ & H).
  apply mbind_Ok in H. destruct H as (? & ? & _ & H).
  now apply IH in H.
Qed.

Lemma closing_filtered (l : list Key.t) (st : State) (r : list Key.t)
  (st' : State) :
  (_ <-- (if (List.length l =? 0)%nat
          then updTrail Trail.setExhausted else ret tt) ;;
   ret l)%M st = Ok (r, st') ->
  r = l.
Proof.
  intros H. apply mbind_Ok in H. destruct H as (? & ? & _ & H).
  unfold ret in H. now injection H as <- _.
Qed.

Lemma appendMore_filtered (fuel : nat) :
  forall (word : string) (l : list Key.t) (nk : option Kdx.t) (es ticket : Z)
         (f : Key.t -> bool) (st : State) (tr : Trail.t) (r : list Key.t)
         (st' : State),
    trail st = Some tr ->
    Z.of_nat (List.length l) <= Trail.count tr ->
    Trail.count tr <= es ->
    appendMore m fuel word l nk es (Some f) ticket st = Ok (r, st') ->
    Z.of_nat (List.length r) <= es.
Proof.
  induction fuel as [|fuel IH];
    intros word l nk es ticket f st tr r st' Htr Hlen Hcount H;
    cbn [appendMore] in H;
    (destruct (negb (ticket =? mutual_ticket st)); [discriminate|]);
    apply mbind_Ok in H; destruct H as (tr0 & st0 & Hg & H);
    apply getTrail_Ok in Hg; destruct Hg as [Hg ->];
    (destruct nk as [nk|];
     [destruct ((Trail.count tr0 <? es)
                && String.eqb
                     (Js.substrTo (String.length word) (Kdx.first_word nk))
                     word)%bool |]);
    try discriminate;
    try (apply closing_filtered in H; subst r; lia).
  apply mbind_Ok in H. destruct H as (more & st1 & Hl & H).
  apply loadKeys_trail in Hl.
  apply mbind_Ok in H. destruct H as (? & st2 & Hu2 & H).
  apply updTrail_Ok in Hu2. destruct Hu2 as (tr1 & Ht1 & Ht2).
  apply mbind_Ok in H. destruct H as (? & st3 & Hu3 & H).
  apply updTrail_Ok in Hu3. destruct Hu3 as (tr2 & Ht2' & Ht3).
  apply mbind_Ok in H. destruct H as (hits & st4 & Hf & H).
  unfold applyFilter in Hf.
  apply mbind_Ok in Hf. destruct Hf as (tr3 & st3' & Hg3 & Hf).
  apply getTrail_Ok in Hg3. destruct Hg3 as [Hg3 ->].
  destruct (filterFrom es f more 0 tr3) as [hits' tr'] eqn:E.
  apply mbind_Ok in Hf. destruct Hf as (? & st4' & Hp & Hf).
  unfold putTrail in Hp. injection Hp as _ <-.
  unfold ret in Hf. injection Hf as <- <-.
  apply filterFrom_counts in E. destruct E as [E1 E2].
  assert (Hc3 : Trail.count tr3 = Trail.count tr).
  { rewrite Hl, Htr in Ht1. injection Ht1 as <-.
    rewrite Ht2 in Ht2'. injection Ht2' as <-.
    rewrite Ht3 in Hg3. injection Hg3 as <-. reflexivity. }
  refine (IH _ _ _ _ _ _ _ tr' _ _ _ _ _ H).
  - reflexivity.
  - rewrite length_app, Nat2Z.inj_add. lia.
  - apply E2. lia.
Qed.

End Pages.

End Steps.

(** X19.  A page of [matchKeys] never holds more entries than the expected
    size, the larger of [max] and 10: whatever the phrase (plain or with
    wildcards), the flag [follow] and the state of the reader, a call that
    resolves yields at most that many entries. *)
Theorem X19_matchKeys_page_is_bounded :
  forall (m : Mdict) (phrase : option string) (max : option Z) (follow : bool)
         (st : State) (l : list Key.t) (st' : State),
    matchKeys m phrase max follow st = Ok (l, st') ->
    Z.of_nat (List.length l)
    <= Z.max (match max with Some x => x | None => 0 end) 10.
Proof.
  intros m phrase max follow st l st' H.
  set (es := Z.max (match max with Some x => x | None => 0 end) 10) in *.
  assert (Hes : 10 <= es) by (subst es; lia).
  unfold matchKeys in H. fold es in H.
  destruct phrase as [phrase|]; [|discriminate].
  apply Steps.mbind_Ok in H. destruct H as ([word filter] & st0 & Hw & H).
  apply Steps.lift_Ok in Hw. destruct Hw as [_ ->].
  cbv beta iota zeta in H.
  match type of H with
  | (if ?spent then _ else _) = _ => destruct spent
  end.
  - injection H as <- _. cbn [List.length]. lia.
  - apply Steps.mbind_Ok in H.
    destruct H as ([[kdx idx] l0] & st1 & _ & H).
    apply Steps.mbind_Ok in H. destruct H as (old & st2 & _ & H).
    apply Steps.mbind_Ok in H. destruct H as (? & st3 & Hp & H).
    unfold putTrail in Hp. injection Hp as _ <-.
    apply Steps.mbind_Ok in H. destruct H as (l1 & st4 & Hf & H).
    apply Steps.mbind_Ok in H. destruct H as (ticket & st5 & Hb & H).
    unfold bumpTicket in Hb. injection Hb as _ <-.
    apply Steps.mbind_Ok in H. destruct H as (result & st6 & Ha & H).
    apply Steps.mbind_Ok in H. destruct H as (tr6 & st7 & _ & H).
    apply Steps.mbind_Ok in H. destruct H as (? & st8 & _ & H).
    unfold ret in H. injection H as <- _.
    destruct filter as [f|].
    + unfold applyFilter in Hf.
      apply Steps.mbind_Ok in Hf. destruct Hf as (tr3 & st3' & Hg & Hf).
      apply Steps.getTrail_Ok in Hg. destruct Hg as [Hg ->].
      cbn [trail] in Hg. injection Hg as <-.
      match type of Hf with
      | context [filterFrom ?a ?b ?c ?d ?e] =>
          destruct (filterFrom a b c d e) as [hits tr'] eqn:E
      end.
      apply Steps.mbind_Ok in Hf. destruct Hf as (? & st4' & Hp & Hf).
      unfold putTrail in Hp. injection Hp as _ <-.
      unfold ret in Hf. injection Hf as <- <-.
      apply Steps.filterFrom_counts in E. destruct E as [E1 E2].
      cbn [Trail.count] in E1, E2.
      refine (Steps.appendMore_filtered m _ _ _ _ _ _ _ _ tr' _ _ _ _ _ Ha);
        [reflexivity | lia | apply E2; lia].
    + unfold ret in Hf. injection Hf as <- <-.
      apply Steps.appendMore_plain in Ha; [exact Ha | lia].
Qed.

Lemma X19_matchKeys_page_is_bounded_witness :
  Z.of_nat (List.length
              [Demo.key "apple" 0 (Some 6); Demo.key "apply" 6 None;
               Demo.key "cat" 16 (Some 15); Demo.key "feline" 31 None])
  <= Z.max 0 10.
Proof.
  exact (X19_matchKeys_page_is_bounded Demo.dict (Some "apple") None false
           fresh _ _ eq_refl).
Defined.

(** ** The keyword index *)

Lemma keywordIndexLoop_shape (n : nat) :
  forall (i off : Z) (s : Scan.t) (idx : list Kdx.t),
    keywordIndexLoop n i off s = Ok idx ->
    List.length idx = n
    /\ indexedFrom i idx = true
    /\ chainedFrom off idx = true.
Proof.
  induction n as [|n IH]; intros i off s idx H; cbn [keywordIndexLoop] in H.
  - injection H as <-. now repeat split.
  - repeat match type of H with
           | (bind ?c _) = Ok _ =>
               destruct c as [[? ?]| |]; cbn [bind] in H; try discriminate
           end.
    match type of H with
    | (bind ?c _) = Ok _ => destruct c as [r| |] eqn:E; cbn [bind] in H;
                            try discriminate
    end.
    injection H as <-. apply IH in E. destruct E as (E1 & E2 & E3).
    cbn [List.length indexedFrom chainedFrom Kdx.index Kdx.offset
           Kdx.comp_size].
    rewrite !Z.eqb_refl, E1, E2, E3. now repeat split.
Qed.

(** X20.  Whatever the input, an index that [read_keyword_index] returns
    has [num_blocks] entries, numbered 0, 1, 2, ... in their [index]
    fields, and the [offset] of each entry is the sum of the [comp_size]
    fields of the entries before it: the key blocks are taken to lie back
    to back in the key block area. *)
Theorem X20_read_keyword_index_numbers_and_chains_the_blocks :
  forall (inflate : list byte -> Res (list byte))
         (lzo : list byte -> option Z -> Res (list byte))
         (ripemd128 : list byte -> list byte)
         (ps : ParserState) (input : list byte) (ks : Keyword.t)
         (idx : list Kdx.t),
    read_keyword_index inflate lzo ripemd128 ps input ks = Ok idx ->
    Z.of_nat (List.length idx) = Keyword.num_blocks ks
    /\ indexedFrom 0 idx = true
    /\ chainedFrom 0 idx = true.
Proof.
  intros inflate lzo ripemd128 ps input ks idx H.
  unfold read_keyword_index in H.
  destruct (ScanBlock.readBlock _ _ _ _ _ _ _) as [s| |]; cbn [bind] in H;
    try discriminate.
  destruct (Z.ltb_spec (Keyword.num_blocks ks) 0) as [|Hn]; [discriminate|].
  apply keywordIndexLoop_shape in H. destruct H as (H1 & H2 & H3).
  rewrite H1. repeat split; [lia | exact H2 | exact H3].
Qed.

Module IndexBytes.
Import Crypt Bytes Layout.

Lemma u16_back (z : Z) :
  0 <= z < 2 ^ 16 ->
  Z.lor (Z.shiftl (byteZ (zByte (Z.shiftr z 8))) 8) (byteZ (zByte z)) = z.
Proof.
  intros Hz. rewrite !byteZ_zByte. change 256 with (2 ^ 8).
  replace (z mod 2 ^ 8) with (Z.shiftl (Z.shiftr z 0 mod 2 ^ 8) 0)
    by (now rewrite Z.shiftl_0_r, Z.shiftr_0_r).
  apply Z.bits_inj'. intros n Hn.
  rewrite !Z.lor_spec, !chunk_bit by lia.
  assert (Hhigh : 16 <= n -> Z.testbit z n = false).
  { intros H. rewrite <- (Z.mod_small z (2 ^ 16)) by lia.
    apply Z.mod_pow2_bits_high. lia. }
  destruct (Z.testbit z n) eqn:T.
  - assert (n < 16).
    { destruct (Z.lt_ge_cases n 16) as [|G]; [assumption|].
      specialize (Hhigh G). congruence. }
    destruct (Z.leb_spec 8 n), (Z.ltb_spec n (8 + 8)),
      (Z.leb_spec 0 n), (Z.ltb_spec n (0 + 8)); cbn; try reflexivity; lia.
  - now rewrite !andb_false_r.
Qed.

Lemma readShort_ahead (s : Scan.t) (z : Z) (l : list byte) :
  0 <= z < shortBound (Scan.v2 s) ->
  ahead s (Wire.short (Scan.v2 s) z ++ l) ->
  Scan.readShort s = Ok (z, Scan.forward (shortWidth (Scan.v2 s)) s)
  /\ ahead (Scan.forward (shortWidth (Scan.v2 s)) s) l.
Proof.
  intros Hz Ha. unfold Scan.readShort, Wire.short, shortWidth, shortBound in *.
  destruct (Scan.v2 s).
  - split; [|exact (ahead_forward s [_; _] l Ha)].
    apply ahead_shorter in Ha.
    pose proof (ahead_byteAt s _ 0 _ Ha eq_refl) as H0.
    pose proof (ahead_byteAt s _ 1 _ Ha eq_refl) as H1.
    replace (Scan.offset s + Z.of_nat 0) with (Scan.offset s) in H0 by lia.
    change (Z.of_nat 1) with 1 in H1.
    unfold Scan.readUint16, Scan.getUint16. rewrite H0, H1. cbn [bind].
    now rewrite u16_back.
  - split; [|exact (ahead_forward s [_] l Ha)].
    apply ahead_shorter in Ha.
    pose proof (ahead_byteAt s _ 0 _ Ha eq_refl) as H0.
    replace (Scan.offset s + Z.of_nat 0) with (Scan.offset s) in H0 by lia.
    unfold Scan.readUint8, Scan.getUint8. rewrite H0. cbn [bind].
    rewrite byteZ_zByte, Z.mod_small by (change (2 ^ 8) with 256 in Hz; lia).
    reflexivity.
Qed.

Lemma string_length_bytes (t : string) :
  List.length (list_byte_of_string t) = String.length t.
Proof.
  unfold list_byte_of_string. rewrite length_map.
  induction t as [|c t IH]; simpl; [reflexivity | now rewrite IH].
Qed.

Lemma readTextSized_ahead (wide : bool) (s : Scan.t) (t : string)
  (rest : list byte) :
  Scan.bpu s = Layout.unit wide ->
  Scan.tail s = (if Scan.v2 s then Scan.bpu s else 0) ->
  Wire.plain wide t = true ->
  ahead s (Wire.units wide t ++ tailBytes (Scan.v2 s) wide ++ rest) ->
  let s' := Scan.forward
              (Z.of_nat (String.length t) * Scan.bpu s + Scan.tail s) s in
  ScanBlock.readTextSized (Z.of_nat (String.length t)) s = Ok (t, s')
  /\ ahead s' rest.
Proof.
  intros Hbpu Htail Hplain Ha.
  change (Wire.units wide t)
    with (Layout.spread wide (list_byte_of_string t)) in Ha.
  pose proof (Texts.spread_length wide (list_byte_of_string t)) as Hl.
  rewrite string_length_bytes in Hl.
  cbv zeta. split.
  - unfold ScanBlock.readTextSized, ScanBlock.view.
    pose proof Ha as (pre & post & Hb & Ho).
    assert (Hfit : Z.of_nat (List.length (Scan.buf s))
                   >= Scan.offset s
                      + Z.of_nat (String.length t) * Scan.bpu s).
    { rewrite Hb, Ho, !length_app, Hbpu. lia. }
    destruct (Z.ltb_spec (Z.of_nat (String.length t) * Scan.bpu s) 0) as [N|_];
      [rewrite Hbpu in N; destruct wide; cbn [Layout.unit] in N; lia|].
    destruct (Z.ltb_spec (Scan.offset s) 0) as [N|_]; [lia|].
    destruct (Z.ltb_spec (Z.of_nat (List.length (Scan.buf s)))
                (Scan.offset s + Z.of_nat (String.length t) * Scan.bpu s))
      as [N|_]; [lia|].
    cbn [orb bind].
    replace (Z.to_nat (Z.of_nat (String.length t) * Scan.bpu s))
      with (List.length (Layout.spread wide (list_byte_of_string t)))
      by (rewrite Hbpu; lia).
    rewrite Hb, Ho, Nat2Z.id, skipn_app, skipn_all, Nat.sub_diag.
    cbn [skipn app]. rewrite <- app_assoc.
    rewrite (firstn_app (List.length (Layout.spread wide (list_byte_of_string t)))),
      firstn_all, Nat.sub_diag, firstn_O, app_nil_r.
    unfold ScanText.decode. rewrite (Texts.decoder_of_width wide s Hbpu).
    assert (Hd : TextDecoder.decode
                   (if wide then TextDecoder.Utf16le else TextDecoder.Utf8)
                   (Layout.spread wide (list_byte_of_string t))
                 = Ok t).
    { destruct wide; cbn [TextDecoder.decode].
      - apply Texts.decode2_units.
      - rewrite Texts.spread_narrow.
        apply Texts.decode1_ascii, Texts.plain_ascii, Hplain. }
    rewrite Hd. reflexivity.
  - rewrite app_assoc in Ha. apply ahead_forward in Ha.
    replace (Z.of_nat (String.length t) * Scan.bpu s + Scan.tail s)
      with (Z.of_nat (List.length
                        (Layout.spread wide (list_byte_of_string t)
                         ++ tailBytes (Scan.v2 s) wide))); [exact Ha|].
    rewrite length_app, Nat2Z.inj_add, Hl, Htail, Hbpu.
    unfold tailBytes. destruct (Scan.v2 s), wide; cbn [List.length Layout.unit]; lia.
Qed.

End IndexBytes.

Lemma keywordIndexLoop_ahead (wide : bool) (ks : list Kdx.t) :
  forall (i off : Z) (s : Scan.t) (rest : list byte),
    Scan.bpu s = Layout.unit wide ->
    Scan.tail s = (if Scan.v2 s then Scan.bpu s else 0) ->
    Forall (kdxFits (Scan.v2 s) wide) ks ->
    indexedFrom i ks = true ->
    chainedFrom off ks = true ->
    ahead s (keywordIndexBytes (Scan.v2 s) wide ks ++ rest) ->
    keywordIndexLoop (List.length ks) i off s = Ok ks.
Proof.
  induction ks as [|k ks IH]; intros i off s rest Hbpu Htail Hfit Hi Hc Ha;
    [reflexivity|].
  pose proof (Forall_inv Hfit) as (Hne & Hcs & Hds & Hpf & Hpl & Hlf & Hll).
  pose proof (Forall_inv_tail Hfit) as Hfit'.
  cbn [indexedFrom] in Hi. apply andb_prop in Hi. destruct Hi as [Hi Hi'].
  cbn [chainedFrom] in Hc. apply andb_prop in Hc. destruct Hc as [Hc Hc'].
  apply Z.eqb_eq in Hi, Hc.
  unfold keywordIndexBytes in Ha. cbn [map List.concat] in Ha.
  unfold Wire.kdx at 1, Wire.sized in Ha. rewrite <- !app_assoc in Ha.
  destruct (readNum_ahead s _ _ Hne Ha) as [E1 A1].
  set (s1 := Scan.forward (numWidth (Scan.v2 s)) s) in *.
  destruct (IndexBytes.readShort_ahead s1 _ _
              (conj (Zle_0_nat _) Hlf) A1) as [E2 A2].
  set (s2 := Scan.forward (Layout.shortWidth (Scan.v2 s1)) s1) in *.
  destruct (IndexBytes.readTextSized_ahead wide s2 _ _ Hbpu Htail Hpf A2)
    as [E3 A3].
  set (s3 := Scan.forward _ s2) in *.
  destruct (IndexBytes.readShort_ahead s3 _ _
              (conj (Zle_0_nat _) Hll) A3) as [E4 A4].
  set (s4 := Scan.forward (Layout.shortWidth (Scan.v2 s3)) s3) in *.
  destruct (IndexBytes.readTextSized_ahead wide s4 _ _ Hbpu Htail Hpl A4)
    as [E5 A5].
  set (s5 := Scan.forward _ s4) in *.
  destruct (readNum_ahead s5 _ _ Hcs A5) as [E6 A6].
  set (s6 := Scan.forward (numWidth (Scan.v2 s5)) s5) in *.
  destruct (readNum_ahead s6 _ _ Hds A6) as [E7 A7].
  set (s7 := Scan.forward (numWidth (Scan.v2 s6)) s6) in *.
  cbn [List.length keywordIndexLoop].
  rewrite E1. cbn [bind]. rewrite E2. cbn [bind]. rewrite E3. cbn [bind].
  rewrite E4. cbn [bind]. rewrite E5. cbn [bind]. rewrite E6. cbn [bind].
  rewrite E7. cbn [bind].
  rewrite (IH (i + 1) (off + Kdx.comp_size k) s7 rest Hbpu Htail Hfit' Hi' Hc' A7).
  cbn [bind]. rewrite <- Hi, <- Hc. destruct k; reflexivity.
Qed.

(** X21.  A keyword index stored uncompressed in a file of version 2 or
    later (a block header of eight bytes whose first byte is 0, then for
    each key block the number of entries, the sized first and last words,
    and the two sizes) is read back by [read_keyword_index] exactly,
    provided its entries are numbered from 0 and their offsets are the
    running sums of their compressed sizes.  The reader is one whose
    decoder fits its units (Encoding 'UTF-16', or a label of UTF-8). *)
Theorem X21_read_keyword_index_reads_back_a_stored_index :
  forall (inflate : list byte -> Res (list byte))
         (lzo : list byte -> option Z -> Res (list byte))
         (ripemd128 : list byte -> list byte)
         (ps : ParserState) (wide : bool) (head : list byte)
         (idx : list Kdx.t) (ks : Keyword.t),
    Scan.v2 (scan ps) = true ->
    Scan.enc (scan ps) = (if wide then Scan.Utf16 else Scan.Utf8) ->
    Scan.tail (scan ps) = Scan.bpu (scan ps) ->
    List.length head = 7%nat ->
    Forall (kdxFits true wide) idx ->
    indexedFrom 0 idx = true ->
    chainedFrom 0 idx = true ->
    Keyword.num_blocks ks = Z.of_nat (List.length idx) ->
    read_keyword_index inflate lzo ripemd128 ps
      (x00 :: head ++ keywordIndexBytes true wide idx)%list ks
    = Ok idx.
Proof.
  intros inflate lzo ripemd128 ps wide head idx ks V Henc Htail Hhead Hfit
    Hi Hc Hn.
  pose proof (Texts.width_of_enc wide _ Henc) as Hbpu.
  unfold read_keyword_index, ScanBlock.readBlock.
  cbn [Scan.init Scan.buf Scan.offset Scan.v2 Scan.getUint8 Scan.byteAt at_
         Z.ltb Z.compare Z.to_nat nth_error option_map bind].
  change (Z.of_N (Byte.to_N x00) =? 0) with true. cbv iota. rewrite V.
  cbn [bind]. rewrite Hn.
  destruct (Z.ltb_spec (Z.of_nat (List.length idx)) 0) as [|_]; [lia|].
  rewrite Nat2Z.id.
  apply (keywordIndexLoop_ahead wide idx 0 0 _ []).
  - exact Hbpu.
  - cbn [Scan.forward Scan.init Scan.tail Scan.v2 Scan.bpu]. now rewrite V.
  - cbn [Scan.forward Scan.init Scan.v2]. now rewrite V.
  - exact Hi.
  - exact Hc.
  - exists (x00 :: head)%list, [].
    cbn [Scan.forward Scan.init Scan.buf Scan.offset Scan.v2 List.length].
    rewrite V, !app_nil_r, Hhead. split; reflexivity.
Qed.

Lemma X21_read_keyword_index_reads_back_a_stored_index_witness :
  read_keyword_index Samples.noInflate Samples.noLzo Samples.noDigest
    Demo.state
    (x00 :: [x00; x00; x00; x12; x34; x56; x78]
     ++ keywordIndexBytes true false Demo.index)%list Samples.summary
  = Ok Demo.index.
Proof.
  apply (X21_read_keyword_index_reads_back_a_stored_index
           Samples.noInflate Samples.noLzo Samples.noDigest Demo.state false
           [x00; x00; x00; x12; x34; x56; x78] Demo.index Samples.summary);
    try reflexivity.
  repeat constructor; cbn; lia.
Defined.

Lemma X20_read_keyword_index_numbers_and_chains_the_blocks_witness :
  Z.of_nat (List.length Demo.index) = Keyword.num_blocks Samples.summary
  /\ indexedFrom 0 Demo.index = true
  /\ chainedFrom 0 Demo.index = true.
Proof.
  apply (X20_read_keyword_index_numbers_and_chains_the_blocks
           Samples.noInflate Samples.noLzo Samples.noDigest Demo.state
           (x00 :: [x00; x00; x00; x12; x34; x56; x78]
            ++ List.concat (map (Wire.kdx true false) Demo.index))%list
           Samples.summary Demo.index).
  vm_compute. reflexivity.
Defined.

(** ** The search as a lower bound *)

Module Bounds.

Lemma le_not_lt (a b : string) : Js.le a b = true -> Js.lt b a = false.
Proof.
  intros H. destruct (Js.lt b a) eqn:L; [|reflexivity].
  apply Order.lt_not_le in L. congruence.
Qed.

Lemma lt_le (a b : string) : Js.lt a b = true -> Js.le a b = true.
Proof. intros H. apply Order.le_iff. right. now apply Order.lt_iff. Qed.

Lemma le_neq_lt (a b : string) :
  Js.le a b = true -> a <> b -> Js.lt a b = true.
Proof.
  intros H N. apply Order.le_iff in H. destruct H as [E|L]; [contradiction|].
  now apply Order.lt_iff.
Qed.

End Bounds.

Section LowerBound.

Variable m : Mdict.
Variable f : string -> string.
Hypothesis Hf : forall k, adaptKey m k = Ok (f k).
Variable phrase : string.
Hypothesis Hfix : f phrase = phrase.

Let wkey (e : Key.t) : string := f (Key.word e).

(** The entries below the phrase, and those not below it. *)
Let under (e : Key.t) : Prop := Js.lt (wkey e) phrase = true.
Let reaching (e : Key.t) : Prop := Js.lt (wkey e) phrase = false.

Lemma shrink_single (fuel : nat) (e : Key.t) (pos : nat) :
  shrink m (S fuel) [e] pos phrase
  = Ok (pos + (if Js.le phrase (wkey e) then 0 else 1))%nat.
Proof.
  rewrite shrink_step. cbn [List.length Nat.ltb Nat.leb nth_error].
  now rewrite Hf.
Qed.

(** [shrink] returns a position that cuts a sorted block in two: no entry
    before it is beyond the phrase, no entry from it on is below the
    phrase. *)
Lemma shrink_sound (fuel : nat) :
  forall (arr : list Key.t) (pos : nat),
    StronglySorted (below wkey) arr ->
    arr <> [] ->
    (List.length arr <= S fuel)%nat ->
    exists L R,
      arr = (L ++ R)%list
      /\ shrink m (S fuel) arr pos phrase = Ok (pos + List.length L)%nat
      /\ Forall (fun x => beyond f phrase x = false) L
      /\ Forall reaching R.
Proof.
  assert (Single : forall fuel' e pos,
             exists L R,
               [e] = (L ++ R)%list
               /\ shrink m (S fuel') [e] pos phrase
                  = Ok (pos + List.length L)%nat
               /\ Forall (fun x => beyond f phrase x = false) L
               /\ Forall reaching R).
  { intros fuel' e pos. rewrite shrink_single.
    destruct (Js.le phrase (wkey e)) eqn:Le.
    - exists [], [e]. repeat split; [constructor|].
      constructor; [|constructor]. now apply Bounds.le_not_lt.
    - exists [e], []. repeat split; [|constructor].
      constructor; [|constructor]. unfold beyond. fold (wkey e).
      destruct (Js.lt phrase (wkey e)) eqn:L; [|reflexivity].
      apply Bounds.lt_le in L. congruence. }
  induction fuel as [|fuel IH]; intros arr pos Hs Hne Hlen.
  - destruct arr as [|e [|e' arr]]; [contradiction | | simpl in Hlen; lia].
    apply Single.
  - destruct (Nat.ltb_spec 1 (List.length arr)) as [L1|L1].
    + destruct (div2_bounds _ L1) as [H1 H2].
      rewrite shrink_step.
      destruct (Nat.ltb_spec 1 (List.length arr)) as [_|]; [|lia].
      set (h := Nat.div2 (List.length arr)) in *.
      destruct (nth_error arr h) as [x|] eqn:Ex;
        [|apply nth_error_None in Ex; lia].
      destruct (skipn_nth_error _ _ _ Ex) as [tl Etl].
      pose proof Hs as Hs'. rewrite <- (firstn_skipn h arr) in Hs'.
      apply sorted_app in Hs'. destruct Hs' as (S1 & S2 & C).
      rewrite Hf. cbn [bind]. fold (wkey x).
      destruct (Js.lt phrase (wkey x)) eqn:Lx.
      * destruct (IH (firstn h arr) pos S1) as (L & R & E & Hr & FL & FR).
        { intros E0. apply (f_equal (@List.length _)) in E0.
          rewrite length_firstn in E0. simpl in E0. lia. }
        { rewrite length_firstn. lia. }
        exists L, (R ++ skipn h arr)%list.
        split; [now rewrite app_assoc, <- E, firstn_skipn|].
        split; [exact Hr|]. split; [exact FL|].
        apply Forall_app. split; [exact FR|].
        rewrite Forall_forall. intros y Hy. unfold reaching.
        destruct (Js.lt (wkey y) phrase) eqn:Ly; [|reflexivity].
        exfalso.
        assert (Hxy : Js.le (wkey x) (wkey y) = true).
        { rewrite Etl in Hy, S2. destruct Hy as [<-|Hy];
            [apply Order.le_refl|].
          inversion S2 as [|? ? _ Fx]. rewrite Forall_forall in Fx.
          exact (Fx y Hy). }
        pose proof (Order.lt_le_trans _ _ _ Lx Hxy) as Lpy.
        apply Order.lt_not_le in Lpy. apply Bounds.lt_le in Ly. congruence.
      * destruct (IH (skipn h arr) (pos + h)%nat S2) as (L & R & E & Hr & FL & FR).
        { rewrite Etl. discriminate. }
        { rewrite length_skipn. lia. }
        exists (firstn h arr ++ L)%list, R.
        split; [now rewrite <- app_assoc, <- E, firstn_skipn|].
        split.
        { rewrite Hr. f_equal. rewrite length_app, length_firstn. lia. }
        split; [|exact FR].
        apply Forall_app. split; [|exact FL].
        rewrite Forall_forall. intros y Hy. unfold beyond. fold (wkey y).
        apply Bounds.le_not_lt.
        apply (Order.le_trans _ (wkey x)).
        -- apply C; [exact Hy|]. rewrite Etl. now left.
        -- now apply Order.not_lt_le.
    + destruct arr as [|e [|e' arr]]; [contradiction | | simpl in L1; lia].
      apply Single.
Qed.

(** The walk back over the entries that adapt to the phrase ends on the
    first entry not below it. *)
Lemma lookBackKeys_sound (L : list Key.t) :
  forall (R : list Key.t),
    StronglySorted (below wkey) (L ++ R) ->
    Forall (fun x => beyond f phrase x = false) L ->
    Forall reaching R ->
    exists L0 R0,
      (L ++ R)%list = (L0 ++ R0)%list
      /\ lookBackKeys m (L ++ R) phrase (List.length L) = Ok (List.length L0)
      /\ Forall under L0
      /\ Forall reaching R0.
Proof.
  induction L as [|e L' IH] using rev_ind; intros R Hs FL FR.
  - exists [], R. repeat split; [constructor | exact FR].
  - rewrite length_app. cbn [List.length].
    replace (List.length L' + 1)%nat with (S (List.length L')) by lia.
    cbn [lookBackKeys].
    assert (Hn : nth_error ((L' ++ [e]) ++ R) (List.length L') = Some e).
    { rewrite <- app_assoc. rewrite nth_error_app2, Nat.sub_diag by lia.
      reflexivity. }
    rewrite Hn, !Hf. cbn [bind]. rewrite Hfix. fold (wkey e).
    apply Forall_app in FL. destruct FL as [FL' Fe].
    pose proof (Forall_inv Fe) as Pe. unfold beyond in Pe. fold (wkey e) in Pe.
    destruct (String.eqb_spec (wkey e) phrase) as [E|N]; cbn [negb].
    + rewrite <- app_assoc in Hs |- *. cbn [app] in Hs |- *.
      destruct (IH (e :: R) Hs FL') as (L0 & R0 & E0 & Hr & F0 & FR0).
      { constructor; [|exact FR]. unfold reaching. rewrite E.
        apply Order.lt_irrefl. }
      exists L0, R0. repeat split; assumption.
    + exists (L' ++ [e])%list, R.
      split; [reflexivity|]. split; [|split; [|exact FR]].
      { f_equal. rewrite length_app. simpl. lia. }
      assert (Le : Js.lt (wkey e) phrase = true).
      { apply Bounds.le_neq_lt; [now apply Order.not_lt_le | exact N]. }
      apply sorted_app in Hs. destruct Hs as (Hs1 & _ & _).
      rewrite Forall_forall. intros y Hy. unfold under.
      pose proof (below_last f L' e y Hs1 Hy) as Hle.
      exact (Order.le_lt_trans _ _ _ Hle Le).
Qed.

(** When every block of the index ends below the phrase, [reduce] returns
    the last one. *)
Lemma reduce_last (fuel : nat) :
  forall (A : list Kdx.t) (k : Kdx.t),
    (List.length (A ++ [k]) <= fuel)%nat ->
    Forall (fun x => behind f phrase x = true) A ->
    reduce m fuel (A ++ [k])%list phrase = Ok (Some k).
Proof.
  induction fuel as [|fuel IH]; intros A k Hlen HA.
  - rewrite length_app in Hlen. simpl in Hlen. lia.
  - rewrite reduce_step.
    destruct (Nat.ltb_spec 1 (List.length (A ++ [k]))) as [L|L].
    + destruct (div2_bounds _ L) as [H1 H2].
      set (h := Nat.div2 (List.length (A ++ [k]))) in *.
      rewrite length_app in Hlen, H2. simpl in Hlen, H2.
      rewrite nth_error_app1 by lia.
      destruct (nth_error A (h - 1)) as [x|] eqn:Ex;
        [|apply nth_error_None in Ex; lia].
      rewrite Hf. cbn [bind]. unfold Js.gt.
      pose proof (Forall_nth_error _ _ _ _ HA Ex) as Px.
      unfold behind in Px. rewrite Px.
      rewrite skipn_app.
      replace (h - List.length A)%nat with 0%nat by lia.
      cbn [skipn]. apply IH.
      * rewrite length_app, length_skipn. simpl. lia.
      * now apply Forall_skipn_keep.
    + rewrite length_app in L. simpl in L.
      destruct A as [|a A]; [reflexivity | simpl in L; lia].
Qed.

End LowerBound.

(** [seekVanguard] on a well-formed dictionary: it loads the block [bk]
    of the first index entry [k] that does not end below the phrase (the
    last entry when all do) and returns the position of the first entry of
    [bk] that is not below the phrase (of the last entry of all when every
    entry is below it). *)
Lemma seekVanguard_cut :
  forall (m : Mdict) (f : string -> string) (bs : list (list Key.t))
         (st : State) (word : string),
    (forall k, adaptKey m k = Ok (f k)) ->
    f (f word) = f word ->
    Forall2 (holds m) (KEY_INDEX m) bs ->
    StronglySorted (below (fun e => f (Key.word e))) (List.concat bs) ->
    indexedFrom 0 (KEY_INDEX m) = true ->
    cacheCoherent m st ->
    KEY_INDEX m <> [] ->
    exists A k B bA bk bB L0 e rest st1,
      KEY_INDEX m = (A ++ k :: B)%list
      /\ bs = (bA ++ bk :: bB)%list
      /\ Forall2 (holds m) B bB
      /\ loadKeys m k st = Ok (bk, st1)
      /\ seekVanguard m word st
         = Ok ((k, Z.of_nat (List.length L0), bk), st1)
      /\ bk = (L0 ++ e :: rest)%list
      /\ Forall (fun x => Js.lt (f (Key.word x)) (f word) = true)
           (List.concat bA ++ L0)
      /\ (Js.le (f word) (f (Key.word e)) = true \/ (rest = [] /\ B = [])).
Proof.
  intros m f bs st w Hf Hfix Hdec Hsorted Hidx Hcache Hne.
  set (phrase := f w) in *.
  pose proof (index_sorted m f _ _ Hdec Hsorted) as Hks.
  (* the entries of blocks that end below the phrase are below it *)
  assert (Hunder :
            forall (A1 : list Kdx.t) (bA1 : list (list Key.t)),
              Forall2 (holds m) A1 bA1 ->
              Forall (fun x => behind f phrase x = true) A1 ->
              (forall b, In b bA1 -> In b bs) ->
              Forall (fun x => Js.lt (f (Key.word x)) phrase = true)
                (List.concat bA1)).
  { intros A1 bA1 H2 FA1 Hin. rewrite Forall_forall. intros x Hx.
    apply in_concat in Hx. destruct Hx as (b' & Hb' & Hx).
    destruct (Forall2_In_r _ _ _ _ H2 Hb') as (kA & HkA & _ & a0 & zA & Ea & La).
    rewrite Forall_forall in FA1. pose proof (FA1 kA HkA) as Pa.
    unfold behind in Pa. rewrite La in Pa.
    pose proof (block_sorted f bs b' Hsorted (Hin b' Hb')) as Sb.
    rewrite Ea in Sb, Hx.
    pose proof (below_last f a0 zA x Sb Hx) as Hle.
    exact (Order.le_lt_trans _ _ _ Hle Pa). }
  (* the cut of KEY_INDEX at the phrase *)
  destruct (sorted_cut _ (fun k => f (Kdx.last_word k)) (behind f phrase)
              (KEY_INDEX m)) as (A & B0 & Eks & FA & FB); [|exact Hks|].
  { intros x y Hxy Hy. unfold behind in *.
    exact (Order.le_lt_trans _ _ _ Hxy Hy). }
  destruct B0 as [|k B].
  - (* every block ends below the phrase: the last entry of all *)
    rewrite app_nil_r in Eks.
    destruct (rev A) as [|k A0] eqn:Er.
    { apply (f_equal (@rev _)) in Er. rewrite rev_involutive in Er.
      simpl in Er. congruence. }
    apply (f_equal (@rev _)) in Er. rewrite rev_involutive in Er.
    simpl in Er. rewrite Er in Eks, FA. clear Er.
    assert (HdecA : Forall2 (holds m) (rev A0 ++ [k]) bs)
      by (rewrite <- Eks; exact Hdec).
    pose proof (Hunder _ bs HdecA FA (fun b H => H)) as Hall_under.
    pose proof Hdec as Hd. rewrite Eks in Hd.
    apply Forall2_app_inv_l in Hd.
    destruct Hd as (bA & bK & HdA & HdK & Ebs).
    destruct bK as [|bk bB]; [inversion HdK|].
    apply Forall2_cons_iff in HdK. destruct HdK as [Hkb HdB].
    destruct bB as [|? ?]; [|inversion HdB].
    destruct Hkb as (Dk & b0 & z & Ek & Lk).
    apply Forall_app in FA. destruct FA as [FA0 Fk].
    pose proof (Forall_inv Fk) as Bk.
    assert (Hred : reduce m (List.length (KEY_INDEX m)) (KEY_INDEX m) phrase
                   = Ok (Some k)).
    { rewrite Eks. now apply (reduce_last m f Hf phrase). }
    assert (Hkin : In k (KEY_INDEX m)).
    { rewrite Eks. apply in_or_app. right. now left. }
    assert (Sk : StronglySorted (below (fun e => f (Key.word e))) bk).
    { apply (block_sorted f bs); [exact Hsorted|].
      rewrite Ebs. apply in_or_app. right. now left. }
    assert (Hbk : bk <> []) by (rewrite Ek; now destruct b0).
    destruct (shrink_sound m f Hf phrase (List.length bk - 1) bk 0 Sk Hbk)
      as (L & R & E & Hr & FL & FR); [lia|].
    replace (S (List.length bk - 1)) with (List.length bk) in Hr
      by (destruct bk; [contradiction | simpl; lia]).
    pose proof Sk as Sk'. rewrite E in Sk'.
    destruct (lookBackKeys_sound m f Hf phrase Hfix L R Sk' FL FR)
      as (L0 & R0 & E0 & Hback & F0 & FR0).
    rewrite <- E in Hback, E0.
    assert (HR0 : R0 = []).
    { destruct R0 as [|y R0]; [reflexivity|]. exfalso.
      pose proof (Forall_inv FR0) as Py. cbv beta in Py.
      rewrite Ebs, concat_app in Hall_under. cbn [List.concat] in Hall_under.
      rewrite app_nil_r in Hall_under.
      apply Forall_app in Hall_under. destruct Hall_under as [_ Fbk].
      rewrite E0 in Fbk. apply Forall_app in Fbk. destruct Fbk as [_ Fy].
      pose proof (Forall_inv Fy) as Qy. cbv beta in Qy. congruence. }
    subst R0. rewrite app_nil_r in E0. subst L0.
    destruct (loadKeys_decoded m k bk st Hcache Hkin Dk) as [st1 Hload].
    exists (rev A0), k, [], bA, bk, [], b0, z, [], st1.
    split; [exact Eks|]. split; [exact Ebs|]. split; [constructor|].
    split; [exact Hload|]. split; [|split; [exact Ek|split]].
    + unfold seekVanguard, mbind, lift, ret.
      rewrite Hf. fold phrase. rewrite Hred.
      rewrite Hf. unfold behind in Bk. rewrite (Order.lt_not_le _ _ Bk).
      rewrite Hload. rewrite Hr. cbn [Nat.add]. rewrite Hback.
      assert (Hlen : List.length bk = S (List.length b0)).
      { rewrite Ek, length_app. simpl. lia. }
      replace (Z.min (Z.of_nat (List.length bk)) (Z.of_nat (List.length bk) - 1))
        with (Z.of_nat (List.length b0)) by lia.
      reflexivity.
    + rewrite Ebs, concat_app in Hall_under. cbn [List.concat] in Hall_under.
      rewrite app_nil_r, Ek, app_assoc in Hall_under.
      apply Forall_app in Hall_under. tauto.
    + right. now split.
  - (* the first block that does not end below the phrase *)
    pose proof (Forall_inv FB) as Bk. pose proof (Forall_inv_tail FB) as FB'.
    pose proof Hdec as Hd. rewrite Eks in Hd.
    apply Forall2_app_inv_l in Hd.
    destruct Hd as (bA & bK & HdA & HdK & Ebs).
    destruct bK as [|bk bB]; [inversion HdK|].
    apply Forall2_cons_iff in HdK. destruct HdK as [Hkb HdB].
    destruct Hkb as (Dk & b0 & z & Ek & Lk).
    assert (Hred : reduce m (List.length (KEY_INDEX m)) (KEY_INDEX m) phrase
                   = Ok (Some k)).
    { rewrite Eks. apply (reduce_lands m f Hf phrase); auto. }
    assert (Hkin : In k (KEY_INDEX m)).
    { rewrite Eks. apply in_or_app. right. now left. }
    assert (Sk : StronglySorted (below (fun e => f (Key.word e))) bk).
    { apply (block_sorted f bs); [exact Hsorted|].
      rewrite Ebs. apply in_or_app. right. now left. }
    assert (Hbk : bk <> []) by (rewrite Ek; now destruct b0).
    destruct (shrink_sound m f Hf phrase (List.length bk - 1) bk 0 Sk Hbk)
      as (L & R & E & Hr & FL & FR); [lia|].
    replace (S (List.length bk - 1)) with (List.length bk) in Hr
      by (destruct bk; [contradiction | simpl; lia]).
    pose proof Sk as Sk'. rewrite E in Sk'.
    destruct (lookBackKeys_sound m f Hf phrase Hfix L R Sk' FL FR)
      as (L0 & R0 & E0 & Hback & F0 & FR0).
    rewrite <- E in Hback, E0.
    destruct R0 as [|e rest].
    { exfalso. rewrite app_nil_r in E0. subst L0.
      rewrite Ek in F0. apply Forall_app in F0. destruct F0 as [_ Fz].
      pose proof (Forall_inv Fz) as Pz. cbv beta in Pz.
      unfold behind in Bk. rewrite Lk in Bk. congruence. }
    assert (Hstay : lookBackBlocks m k (Z.to_nat (Kdx.index k)) = Ok k).
    { pose proof Hidx as Hi. rewrite Eks in Hi.
      rewrite (indexedFrom_app _ _ _ _ Hi).
      replace (Z.to_nat (0 + Z.of_nat (List.length A))) with (List.length A)
        by lia.
      exact (lookBackBlocks_stays m f Hf phrase A k B Eks FA Bk). }
    destruct (loadKeys_decoded m k bk st Hcache Hkin Dk) as [st1 Hload].
    exists A, k, B, bA, bk, bB, L0, e, rest, st1.
    split; [exact Eks|]. split; [exact Ebs|]. split; [exact HdB|].
    split; [exact Hload|]. split; [|split; [exact E0|split]].
    + unfold seekVanguard, mbind, lift, ret.
      rewrite Hf. fold phrase. rewrite Hred.
      rewrite Hf. rewrite (Order.not_lt_le _ _ Bk). rewrite Hstay.
      rewrite Hload. rewrite Hr. cbn [Nat.add]. rewrite Hback.
      assert (Hlen : List.length bk = (List.length L0 + S (List.length rest))%nat).
      { rewrite E0, length_app. reflexivity. }
      replace (Z.min (Z.of_nat (List.length L0)) (Z.of_nat (List.length bk) - 1))
        with (Z.of_nat (List.length L0)) by lia.
      reflexivity.
    + apply Forall_app. split; [|exact F0].
      apply (Hunder A bA HdA FA). intros b Hb. rewrite Ebs.
      apply in_or_app. now left.
    + left. apply Order.not_lt_le. exact (Forall_inv FR0).
Qed.

(** [list.slice(idx)] at the position of an entry. *)
Lemma sliceFrom_at {A : Type} (L : list A) (e : A) (rest : list A) :
  sliceFrom (L ++ e :: rest) (Z.of_nat (List.length L)) = e :: rest.
Proof.
  unfold sliceFrom.
  destruct (Z.ltb_spec (Z.of_nat (List.length L)) 0) as [|_]; [lia|].
  rewrite Z.min_l by (rewrite length_app; lia).
  now rewrite Nat2Z.id, skipn_app, skipn_all, Nat.sub_diag.
Qed.

(** X22.  The lookup of a string is a lower-bound search over the whole
    dictionary.  For an .mdx reader on which the normal form [f] is total,
    whose index and key blocks satisfy the invariants of the format
    ([wellFormed]) and whose cache is coherent, and for every query [q],
    stored or not: with [phrase = f(toLowerCase(trim(q)))],
    [getWordList(q)] resolves to a non-empty run [e :: rest] of consecutive
    entries of the dictionary such that every entry before [e] is below the
    phrase and [e] is not, or, when every entry is below the phrase, to
    the last entry alone. *)
Theorem X22_string_lookup_is_a_lower_bound_search :
  forall (m : Mdict) (f : string -> string) (bs : list (list Key.t))
         (st : State) (q : string),
    ext (parser m) = Mdx ->
    (forall k, adaptKey m k = Ok (f k)) ->
    decodeAll m (KEY_INDEX m) = Ok bs ->
    wellFormed m f bs = true ->
    cacheCoherent m st ->
    KEY_INDEX m <> [] ->
    exists before e rest after st',
      getWordList m (QString q) None st = Ok (Words (e :: rest), st')
      /\ List.concat bs = (before ++ e :: rest ++ after)%list
      /\ Forall (fun x => Js.lt (f (Key.word x))
                            (f (Js.toLowerCase (Js.trim q))) = true) before
      /\ (Js.le (f (Js.toLowerCase (Js.trim q))) (f (Key.word e)) = true
          \/ (rest = [] /\ after = [])).
Proof.
  intros m f bs st q Hext Hf Hall Hwf Hcache Hne.
  set (w := Js.toLowerCase (Js.trim q)) in *.
  assert (Hfix : f (f w) = f w).
  { pose proof (Hf w) as H1. pose proof (Hf (f w)) as H2.
    unfold adaptKey in H1, H2. rewrite Hext in H1, H2.
    apply Folding.adaptKey_idem in H1.
    rewrite H1 in H2. now inversion H2. }
  unfold wellFormed in Hwf.
  apply andb_prop in Hwf. destruct Hwf as [Hwf Hasc].
  apply andb_prop in Hwf. destruct Hwf as [Hidx Hlast].
  pose proof (decoded_blocks m (KEY_INDEX m) bs Hall Hlast) as Hdec.
  pose proof (ascendingBy_sorted _ _ _ Hasc) as Hsorted.
  set (st0 := {| cached_keys := cached_keys st;
                 mutual_ticket := mutual_ticket st; trail := None |}).
  assert (Hc0 : cacheCoherent m st0) by exact Hcache.
  destruct (seekVanguard_cut m f bs st0 w Hf Hfix Hdec Hsorted Hidx Hc0 Hne)
    as (A & k & B & bA & bk & bB & L0 & e & rest & st1
        & Eks & Ebs & HdB & Hload & Hseek & Ebk & Hunder & Hreach).
  exists (List.concat bA ++ L0)%list, e, rest, (List.concat bB), st1.
  split; [|split; [|split]].
  - unfold getWordList. rewrite Hext.
    unfold mdx, mbind, putTrail. fold w. fold st0. rewrite Hseek.
    unfold ret. now rewrite Ebk, sliceFrom_at.
  - rewrite Ebs, concat_app. cbn [List.concat].
    now rewrite Ebk, <- !app_assoc.
  - exact Hunder.
  - destruct Hreach as [Hr | [Hr HB]]; [now left|].
    right. split; [exact Hr|]. subst B. inversion HdB. reflexivity.
Qed.

Lemma X22_string_lookup_is_a_lower_bound_search_witness :
  exists before e rest after st',
    getWordList Demo.dict (QString "Bat ") None fresh
    = Ok (Words (e :: rest), st')
    /\ List.concat
         [[Demo.key "apple" 0 (Some 6); Demo.key "apply" 6 None];
          [Demo.key "cat" 16 (Some 15); Demo.key "feline" 31 None]]
       = (before ++ e :: rest ++ after)%list
    /\ Forall (fun x => Js.lt (stripMdx (Js.toLowerCase (Key.word x)))
                          (stripMdx
                             (Js.toLowerCase
                                (Js.toLowerCase (Js.trim "Bat ")))) = true)
         before
    /\ (Js.le (stripMdx (Js.toLowerCase (Js.toLowerCase (Js.trim "Bat "))))
          (stripMdx (Js.toLowerCase (Key.word e))) = true
        \/ (rest = [] /\ after = [])).
Proof.
  apply (X22_string_lookup_is_a_lower_bound_search Demo.dict
           (fun k => stripMdx (Js.toLowerCase k))
           [[Demo.key "apple" 0 (Some 6); Demo.key "apply" 6 None];
            [Demo.key "cat" 16 (Some 15); Demo.key "feline" 31 None]]
           fresh "Bat ").
  - reflexivity.
  - intros k. reflexivity.
  - reflexivity.
  - reflexivity.
  - intros c Hc. discriminate Hc.
  - discriminate.
Defined.

(** ** String queries are searched in lower case (C10) *)

Module Lowering.

Lemma lowerChar_above (c : ascii) :
  Js.lowerChar c = c \/ Ascii_as_OT.compare c (Js.lowerChar c) = Lt.
Proof.
  destruct c as [[] [] [] [] [] [] [] []];
    first [left; reflexivity | right; reflexivity].
Qed.

Lemma compare_same (c : ascii) : Ascii_as_OT.compare c c = Eq.
Proof. unfold Ascii_as_OT.compare. apply N.compare_refl. Qed.

(** Lowercasing moves a string up in the order of the code units, unless
    it leaves it as it is. *)
Lemma toLowerCase_above (s : string) :
  Js.toLowerCase s <> s -> Js.lt s (Js.toLowerCase s) = true.
Proof.
  unfold Js.lt. induction s as [|c s IH]; intros H; [now contradiction H|].
  cbn [Js.toLowerCase String_as_OT.compare].
  destruct (lowerChar_above c) as [E|L].
  - rewrite E, compare_same. apply IH. intros Es. apply H.
    cbn [Js.toLowerCase]. now rewrite E, Es.
  - now rewrite L.
Qed.

End Lowering.

(** C10.  A case-sensitive .mdx reader (KeyCaseSensitive true, no
    stripping, so that the normal form is the identity) on a well-formed
    dictionary.  The answer to a string query [q] is the run of entries
    that starts at the first stored keyword not below
    [toLowerCase(trim(q))]: the stored keywords are compared with the
    query trimmed and lowercased, not with the query as typed.  So when the
    lowercased query is a stored keyword, the answer starts with it; and
    when the query holds an uppercase letter, the stored keyword equal to
    the query as typed is below what is searched and is passed over: it is
    in the answer only as the last entry of a dictionary whose keywords are
    all below the lowercased query. *)
Theorem C10_string_query_is_searched_in_lower_case :
  forall (m : Mdict) (bs : list (list Key.t)) (st : State) (q : string),
    ext (parser m) = Mdx ->
    isTrue (KeyCaseSensitive (headerSection (parser m))) = true ->
    isTrue (StripKey (headerSection (parser m))) = false ->
    decodeAll m (KEY_INDEX m) = Ok bs ->
    wellFormed m (fun k => k) bs = true ->
    cacheCoherent m st ->
    KEY_INDEX m <> [] ->
    exists before e rest after st',
      getWordList m (QString q) None st = Ok (Words (e :: rest), st')
      /\ List.concat bs = (before ++ e :: rest ++ after)%list
      /\ Forall (fun x => Js.lt (Key.word x) (Js.toLowerCase (Js.trim q))
                          = true) before
      /\ (Js.le (Js.toLowerCase (Js.trim q)) (Key.word e) = true
          \/ (rest = [] /\ after = []))
      /\ ((exists y, In y (List.concat bs)
                     /\ Key.word y = Js.toLowerCase (Js.trim q)) ->
          Key.word e = Js.toLowerCase (Js.trim q))
      /\ (Js.toLowerCase (Js.trim q) <> Js.trim q ->
          forall x, In x (e :: rest) -> Key.word x = Js.trim q ->
                    x = e /\ rest = [] /\ after = []
                    /\ Forall (fun y => Js.lt (Key.word y)
                                          (Js.toLowerCase (Js.trim q)) = true)
                         (List.concat bs)).
Proof.
  intros m bs st q Hext Hcs Hsk Hall Hwf Hcache Hne.
  set (w := Js.toLowerCase (Js.trim q)) in *.
  assert (Hf : forall k, adaptKey m k = Ok ((fun x : string => x) k))
    by (intros k; now apply adaptKey_identity).
  pose proof Hwf as Hwf0.
  unfold wellFormed in Hwf.
  apply andb_prop in Hwf. destruct Hwf as [Hwf Hasc].
  apply andb_prop in Hwf. destruct Hwf as [Hidx Hlast].
  pose proof (decoded_blocks m (KEY_INDEX m) bs Hall Hlast) as Hdec.
  pose proof (ascendingBy_sorted _ _ _ Hasc) as Hsorted.
  set (st0 := {| cached_keys := cached_keys st;
                 mutual_ticket := mutual_ticket st; trail := None |}).
  assert (Hc0 : cacheCoherent m st0) by exact Hcache.
  destruct (seekVanguard_cut m (fun x => x) bs st0 w Hf eq_refl Hdec Hsorted
              Hidx Hc0 Hne)
    as (A & k & B & bA & bk & bB & L0 & e & rest & st1
        & Eks & Ebs & HdB & Hload & Hseek & Ebk & Hunder & Hreach).
  cbv beta in Hunder, Hreach.
  assert (Ecat : List.concat bs
                 = ((List.concat bA ++ L0) ++ e :: rest ++ List.concat bB)%list).
  { rewrite Ebs, concat_app. cbn [List.concat].
    now rewrite Ebk, <- !app_assoc. }
  assert (Hreach' : Js.le w (Key.word e) = true
                    \/ (rest = [] /\ List.concat bB = [])).
  { destruct Hreach as [Hr | [Hr HB]]; [now left|].
    right. split; [exact Hr|]. subst B. inversion HdB. reflexivity. }
  (* what follows [e] is not below it *)
  assert (Hafter : forall y, In y (rest ++ List.concat bB) ->
                             Js.le (Key.word e) (Key.word y) = true).
  { intros y Hy. rewrite Ecat in Hsorted.
    apply sorted_app in Hsorted. destruct Hsorted as (_ & S2 & _).
    inversion S2 as [|? ? _ Hall2]; subst.
    rewrite Forall_forall in Hall2. exact (Hall2 y Hy). }
  exists (List.concat bA ++ L0)%list, e, rest, (List.concat bB), st1.
  split; [|split; [exact Ecat|split; [exact Hunder|split; [exact Hreach'|split]]]].
  - unfold getWordList. rewrite Hext.
    unfold mdx, mbind, putTrail. fold w. fold st0. rewrite Hseek.
    unfold ret. now rewrite Ebk, sliceFrom_at.
  - intros (y & Hy & Ey). rewrite Ecat in Hy.
    apply in_app_or in Hy. destruct Hy as [Hy|[<-|Hy]].
    + rewrite Forall_forall in Hunder. specialize (Hunder y Hy).
      rewrite Ey, Order.lt_irrefl in Hunder. discriminate.
    + exact Ey.
    + destruct Hreach' as [Hr|[Hr Hb]].
      * apply Order.le_antisym; [|exact Hr].
        rewrite <- Ey. now apply Hafter.
      * rewrite Hr, Hb in Hy. contradiction.
  - intros Hup x Hx Ex.
    assert (Hlow : Js.lt (Key.word x) w = true).
    { rewrite Ex. exact (Lowering.toLowerCase_above (Js.trim q) Hup). }
    assert (Hnot : Js.le w (Key.word x) = false)
      by now apply Order.lt_not_le.
    destruct Hx as [<-|Hx].
    + destruct Hreach' as [Hr|[Hr Hb]]; [congruence|].
      split; [reflexivity|]. split; [exact Hr|]. split; [exact Hb|].
      rewrite Ecat, Hr, Hb. cbn [app].
      apply Forall_app. split; [exact Hunder|].
      constructor; [exact Hlow | constructor].
    + exfalso. destruct Hreach' as [Hr|[Hr Hb]].
      * assert (Hex : Js.le (Key.word e) (Key.word x) = true)
          by (apply Hafter, in_or_app; now left).
        rewrite (Order.le_trans _ _ _ Hr Hex) in Hnot. discriminate.
      * rewrite Hr in Hx. contradiction.
Qed.

Lemma C10_string_query_is_searched_in_lower_case_witness :
  exists before e rest after st',
    getWordList CaseDemo.dict (QString " Apple") None fresh
    = Ok (Words (e :: rest), st')
    /\ List.concat [[Demo.key "Apple" 0 (Some 6); Demo.key "apple" 6 None]]
       = (before ++ e :: rest ++ after)%list
    /\ Forall (fun x => Js.lt (Key.word x) (Js.toLowerCase (Js.trim " Apple"))
                        = true) before
    /\ (Js.le (Js.toLowerCase (Js.trim " Apple")) (Key.word e) = true
        \/ (rest = [] /\ after = []))
    /\ ((exists y, In y (List.concat
                           [[Demo.key "Apple" 0 (Some 6);
                             Demo.key "apple" 6 None]])
                   /\ Key.word y = Js.toLowerCase (Js.trim " Apple")) ->
        Key.word e = Js.toLowerCase (Js.trim " Apple"))
    /\ (Js.toLowerCase (Js.trim " Apple") <> Js.trim " Apple" ->
        forall x, In x (e :: rest) -> Key.word x = Js.trim " Apple" ->
                  x = e /\ rest = [] /\ after = []
                  /\ Forall (fun y => Js.lt (Key.word y)
                                        (Js.toLowerCase (Js.trim " Apple"))
                                      = true)
                       (List.concat
                          [[Demo.key "Apple" 0 (Some 6);
                            Demo.key "apple" 6 None]])).
Proof.
  apply (C10_string_query_is_searched_in_lower_case CaseDemo.dict
           [[Demo.key "Apple" 0 (Some 6); Demo.key "apple" 6 None]]
           fresh " Apple").
  - reflexivity.
  - reflexivity.
  - reflexivity.
  - reflexivity.
  - reflexivity.
  - intros c Hc. discriminate Hc.
  - discriminate.
Defined.

(** ** Reading past the end *)

Module Truncated.
Import Crypt Bytes.

Lemma at_end {A : Type} (l : list A) (k : Z) :
  Z.of_nat (List.length l) <= k -> at_ l k = None.
Proof.
  intros H. unfold at_. destruct (Z.ltb_spec k 0); [reflexivity|].
  apply nth_error_None. lia.
Qed.

(** Without a zero unit between the cursor and the end of the buffer the
    search runs off the buffer. *)
Lemma search_runs_off (wide : bool) (s : Scan.t) (pre : list byte) :
  Scan.bpu s = Layout.unit wide ->
  Scan.offset s = Z.of_nat (List.length pre) ->
  forall (todo done : list byte) (fuel : nat),
    Forall (fun b => byteZ b <> 0) todo ->
    Scan.buf s = (pre ++ Layout.spread wide done ++ Layout.spread wide todo)%list ->
    (List.length todo < fuel)%nat ->
    ScanText.searchTextLen fuel s
      (Scan.offset s + Z.of_nat (List.length (Layout.spread wide done)))
    = Throw RangeError.
Proof.
  intros Hbpu Hoff todo.
  induction todo as [|b todo IH]; intros done fuel Hnz Hbuf Hfuel;
    (destruct fuel as [|fuel]; [simpl in Hfuel; lia|]).
  - cbn [ScanText.searchTextLen]. rewrite Hbpu.
    cbn [Layout.spread flat_map] in Hbuf. rewrite app_nil_r in Hbuf.
    assert (Hend : Scan.byteAt (Scan.buf s)
                     (Scan.offset s
                      + Z.of_nat (List.length (Layout.spread wide done)))
                   = None).
    { unfold Scan.byteAt. rewrite at_end; [reflexivity|].
      rewrite Hbuf, Hoff, length_app. lia. }
    destruct wide; cbn [Layout.unit Z.eqb Pos.eqb].
    + unfold Scan.getUint16. now rewrite Hend.
    + unfold Scan.getUint8. now rewrite Hend.
  - pose proof (Forall_inv Hnz) as Hb. pose proof (Forall_inv_tail Hnz) as Hnz'.
    pose proof (byteZ_range b) as Rb.
    assert (Ha : ahead s (Layout.spread wide done ++ Layout.spread wide [b]
                          ++ Layout.spread wide todo)).
    { exists pre, []. split; [|exact Hoff]. rewrite Hbuf, app_nil_r.
      change (b :: todo) with ([b] ++ todo)%list.
      now rewrite Texts.spread_app. }
    assert (Hbuf' : Scan.buf s
                    = (pre ++ Layout.spread wide (done ++ [b])
                       ++ Layout.spread wide todo)%list).
    { rewrite Hbuf. change (b :: todo) with ([b] ++ todo)%list.
      now rewrite !Texts.spread_app, <- !app_assoc. }
    specialize (IH (done ++ [b])%list fuel Hnz' Hbuf'
                  ltac:(simpl in Hfuel; lia)).
    rewrite Texts.spread_app, length_app in IH.
    cbn [ScanText.searchTextLen]. rewrite Hbpu.
    destruct wide; cbn [Layout.unit Z.eqb Pos.eqb Layout.spread flat_map app] in *.
    + unfold Scan.getUint16.
      rewrite (ahead_byteAt s _ _ b Ha (Texts.nth_after _ _ _)).
      replace (Scan.offset s
               + Z.of_nat (List.length (Layout.spread true done)) + 1)
        with (Scan.offset s
              + Z.of_nat (List.length (Layout.spread true done) + 1)) by lia.
      rewrite (ahead_byteAt s _ _ x00 Ha (Texts.nth_after1 _ _ _ _)).
      cbn [bind]. change (byteZ x00) with 0. rewrite Z.lor_0_r.
      rewrite Z.shiftl_mul_pow2 by lia.
      destruct (Z.eqb_spec (byteZ b * 2 ^ 8) 0) as [E|_]; [lia|].
      cbn [List.length] in IH.
      replace (Scan.offset s
               + Z.of_nat (List.length (Layout.spread true done)) + 2)
        with (Scan.offset s
              + Z.of_nat (List.length (Layout.spread true done) + 2)) by lia.
      exact IH.
    + unfold Scan.getUint8.
      rewrite (ahead_byteAt s _ _ b Ha (Texts.nth_after _ _ _)).
      cbn [bind].
      destruct (Z.eqb_spec (byteZ b) 0) as [E|_]; [contradiction|].
      cbn [List.length] in IH.
      replace (Scan.offset s
               + Z.of_nat (List.length (Layout.spread false done)) + 1)
        with (Scan.offset s
              + Z.of_nat (List.length (Layout.spread false done) + 1)) by lia.
      exact IH.
Qed.

End Truncated.

(** X23.  A text whose terminator is missing cannot be read: when the
    buffer ends with the code units of a NUL-free text and the cursor is on
    its first unit, [readText] runs off the buffer and fails with the
    RangeError of the DataView instead of returning the text. *)
Theorem X23_readText_without_terminator_is_a_RangeError :
  forall (wide : bool) (s : Scan.t) (pre : list byte) (t : string),
    Scan.bpu s = (if wide then 2 else 1) ->
    Wire.plain wide t = true ->
    Scan.buf s = (pre ++ Wire.units wide t)%list ->
    Scan.offset s = Z.of_nat (List.length pre) ->
    ScanText.readText s = Throw RangeError.
Proof.
  intros wide s pre t Hbpu Hplain Hbuf Hoff. unfold ScanText.readText.
  pose proof (Truncated.search_runs_off wide s pre Hbpu Hoff
                (list_byte_of_string t) [] (S (List.length (Scan.buf s)))
                (Texts.plain_nonzero _ _ Hplain) Hbuf) as H.
  cbn [Layout.spread flat_map List.length] in H.
  replace (Scan.offset s + Z.of_nat 0) with (Scan.offset s) in H by lia.
  rewrite H; [reflexivity|].
  rewrite Hbuf, length_app.
  pose proof (Texts.spread_length wide (list_byte_of_string t)) as Hl.
  change (Wire.units wide t) with (Layout.spread wide (list_byte_of_string t)).
  destruct wide; cbn [Layout.unit] in Hl; lia.
Qed.

Lemma X23_readText_without_terminator_is_a_RangeError_witness :
  ScanText.readText
    (Scan.forward 2 (Scan.init ([xff; xfe] ++ Wire.units true "cat")%list
                       Samples.scanner1))
  = Throw RangeError.
Proof.
  exact (X23_readText_without_terminator_is_a_RangeError true
           (Scan.forward 2 (Scan.init ([xff; xfe] ++ Wire.units true "cat")%list
                              Samples.scanner1))
           [xff; xfe] "cat" eq_refl eq_refl eq_refl eq_refl).
Defined.

(** ** Enciphered and compressed blocks *)

Module Blocks.

Lemma view_ahead (s : Scan.t) (x r : list byte) :
  ahead s (x ++ r) -> ScanBlock.view s (Z.of_nat (List.length x)) = Ok x.
Proof.
  intros (pre & post & Hb & Ho). unfold ScanBlock.view.
  destruct (Z.ltb_spec (Z.of_nat (List.length x)) 0) as [N|_]; [lia|].
  destruct (Z.ltb_spec (Scan.offset s) 0) as [N|_]; [lia|].
  destruct (Z.ltb_spec (Z.of_nat (List.length (Scan.buf s)))
              (Scan.offset s + Z.of_nat (List.length x))) as [N|_].
  { rewrite Hb, Ho, !length_app in N. lia. }
  cbn [orb]. rewrite Hb, Ho, !Nat2Z.id, skipn_app, skipn_all, Nat.sub_diag.
  cbn [skipn app]. rewrite <- app_assoc.
  now rewrite (firstn_app (List.length x)), firstn_all, Nat.sub_diag, firstn_O,
    app_nil_r.
Qed.

Lemma encryptLoop_length (key : list byte) (plain : list byte) :
  forall (prev i : Z),
    List.length (Cipher.encryptLoop key prev i plain) = List.length plain.
Proof.
  induction plain as [|p plain IH]; intros prev i; [reflexivity|].
  cbn [Cipher.encryptLoop List.length]. now rewrite IH.
Qed.

End Blocks.

(** X24.  [readBlock] on an enciphered, compressed block: the block is a
    type tag other than 0, three more bytes, a four-byte checksum and the
    payload.  With a decryptor installed the payload is deciphered under
    the key made of the checksum followed by 95 36 00 00, and the
    decompressor (inflate for tag 2, LZO for every other tag) receives
    exactly the bytes that were enciphered; the scanner is then
    re-initialised on the decompressed bytes. *)
Theorem X24_readBlock_deciphers_then_decompresses :
  forall (inflate : list byte -> Res (list byte))
         (lzo : list byte -> option Z -> Res (list byte))
         (ripemd128 : list byte -> list byte)
         (s : Scan.t) (pre post pad checksum comp : list byte) (tag : byte)
         (expected : option Z),
    Crypt.byteZ tag <> 0 ->
    List.length pad = 3%nat ->
    List.length checksum = 4%nat ->
    Scan.buf s
    = (pre ++ (tag :: pad ++ checksum
               ++ Cipher.encrypt ripemd128 comp
                    (checksum ++ [x95; x36; x00; x00])) ++ post)%list ->
    Scan.offset s = Z.of_nat (List.length pre) ->
    ScanBlock.readBlock inflate lzo ripemd128
      (8 + Z.of_nat (List.length comp)) expected true s
    = (out <- (if Crypt.byteZ tag =? 2 then inflate comp
               else lzo comp expected) ;;
       Ok (Scan.init out s)).
Proof.
  intros inflate lzo ripemd128 s pre post pad checksum comp tag expected
    Htag Hpad Hsum Hbuf Hoff.
  set (cipher := Cipher.encrypt ripemd128 comp
                   (checksum ++ [x95; x36; x00; x00])) in *.
  assert (Hclen : List.length cipher = List.length comp)
    by apply Blocks.encryptLoop_length.
  assert (A0 : ahead s ([tag] ++ pad ++ checksum ++ cipher)).
  { exists pre, post. split; [exact Hbuf | exact Hoff]. }
  assert (A4 : ahead (Scan.forward 4 s) (checksum ++ cipher)).
  { replace 4 with (Z.of_nat (List.length ([tag] ++ pad)))
      by (rewrite length_app, Hpad; reflexivity).
    apply ahead_forward. now rewrite <- app_assoc. }
  assert (A8 : ahead (Scan.forward 8 s) (cipher ++ [])).
  { replace 8 with (Z.of_nat (List.length ([tag] ++ pad ++ checksum)))
      by (rewrite !length_app, Hpad, Hsum; reflexivity).
    apply ahead_forward. now rewrite <- !app_assoc, app_nil_r. }
  unfold ScanBlock.readBlock, Scan.getUint8.
  pose proof (ahead_byteAt s _ 0 tag A0 eq_refl) as H0.
  replace (Scan.offset s + Z.of_nat 0) with (Scan.offset s) in H0 by lia.
  rewrite H0. cbn [bind].
  destruct (Z.eqb_spec (Crypt.byteZ tag) 0) as [E|_]; [contradiction|].
  replace (8 + Z.of_nat (List.length comp) - 8)
    with (Z.of_nat (List.length cipher)) by lia.
  rewrite (Blocks.view_ahead _ _ _ A8). cbn [bind].
  replace 4 with (Z.of_nat (List.length checksum)) at 2
    by (rewrite Hsum; reflexivity).
  rewrite (Blocks.view_ahead _ _ _ A4). cbn [bind].
  unfold cipher, Crypt.decrypt, Cipher.encrypt.
  rewrite CipherFacts.decrypt_encrypt_loop by lia.
  destruct (if Crypt.byteZ tag =? 2 then inflate comp else lzo comp expected);
    reflexivity.
Qed.

Lemma X24_readBlock_deciphers_then_decompresses_witness :
  ScanBlock.readBlock (fun b => Ok (b ++ b)%list) Samples.noLzo
    Samples.noDigest (8 + Z.of_nat (List.length [x63; x61; x74])) None true
    (Scan.init
       ([] ++ (x02 :: [x00; x00; x00] ++ [x12; x34; x56; x78]
               ++ Cipher.encrypt Samples.noDigest [x63; x61; x74]
                    ([x12; x34; x56; x78] ++ [x95; x36; x00; x00])) ++ [])%list
       (scan Demo.state))
  = Ok (Scan.init [x63; x61; x74; x63; x61; x74] (scan Demo.state)).
Proof.
  exact (X24_readBlock_deciphers_then_decompresses
           (fun b => Ok (b ++ b)%list) Samples.noLzo Samples.noDigest
           (Scan.init
              ([] ++ (x02 :: [x00; x00; x00] ++ [x12; x34; x56; x78]
                      ++ Cipher.encrypt Samples.noDigest [x63; x61; x74]
                           ([x12; x34; x56; x78] ++ [x95; x36; x00; x00]))
               ++ [])%list
              (scan Demo.state))
           [] [] [x00; x00; x00] [x12; x34; x56; x78] [x63; x61; x74] x02 None
           ltac:(discriminate) eq_refl eq_refl eq_refl eq_refl).
Defined.

(** ** Pages of a plain phrase *)

Module Paging.

Lemma NoDup_map_inj {A B : Type} (g : A -> B) (l : list A) (x y : A) :
  NoDup (map g l) -> In x l -> In y l -> g x = g y -> x = y.
Proof.
  induction l as [|a l IH]; intros Hn Hx Hy E; [contradiction|].
  cbn [map] in Hn. inversion Hn as [|? ? Ha Hl]; subst.
  destruct Hx as [->|Hx], Hy as [->|Hy].
  - reflexivity.
  - exfalso. apply Ha. rewrite E. now apply in_map.
  - exfalso. apply Ha. rewrite <- E. now apply in_map.
  - now apply IH.
Qed.

Lemma mbind_run {A B : Type} (c : M A) (k : A -> M B) (st st1 : State) (a : A) :
  c st = Ok (a, st1) -> mbind c k st = k a st1.
Proof. intros H. unfold mbind. now rewrite H. Qed.

Lemma firstn_fill {A : Type} (n : nat) (acc b X : list A) :
  firstn n ((acc ++ firstn (n - List.length acc) b) ++ X)
  = firstn n (acc ++ b ++ X).
Proof.
  rewrite <- app_assoc, !firstn_app. f_equal.
  set (k := (n - List.length acc)%nat).
  rewrite firstn_firstn, Nat.min_id, length_firstn.
  destruct (Nat.le_gt_cases k (List.length b)) as [C|C].
  - rewrite Nat.min_l by exact C. rewrite Nat.sub_diag.
    replace (k - List.length b)%nat with 0%nat by lia. reflexivity.
  - rewrite Nat.min_r by lia. now rewrite firstn_all2 by lia.
Qed.

Lemma sliceTo_firstn {A : Type} (l : list A) (n : Z) :
  0 <= n -> sliceTo l n = firstn (Z.to_nat n) l.
Proof.
  intros Hn. unfold sliceTo. destruct (Z.ltb_spec n 0); [lia|].
  destruct (Z.le_gt_cases n (Z.of_nat (List.length l))) as [C|C].
  - now rewrite Z.min_l by exact C.
  - rewrite Z.min_r, Nat2Z.id by lia.
    now rewrite firstn_all, firstn_all2 by lia.
Qed.

Section Run.

Variable m : Mdict.
Hypothesis Hfirst : NoDup (map Kdx.first_word (KEY_INDEX m)).
Hypothesis Hindexed : indexedFrom 0 (KEY_INDEX m) = true.
Variables (word : string) (es ticket : Z).
Hypothesis Hes : 0 <= es.

(** With pairwise different first words the cache stays coherent. *)
Lemma loadKeys_coherent (k : Kdx.t) (b : list Key.t) (st st1 : State) :
  In k (KEY_INDEX m) ->
  cacheCoherent m st ->
  loadKeys m k st = Ok (b, st1) ->
  cacheCoherent m st1.
Proof.
  intros Hk Hc Hl. unfold loadKeys in Hl.
  assert (Hnew : forall b',
             decodeKeys m k = Ok b' ->
             cacheCoherent m
               {| cached_keys := Some {| keys := b';
                                        pilot := Kdx.first_word k |};
                  mutual_ticket := mutual_ticket st;
                  trail := trail st |}).
  { intros b' Hd c Ec k' Hk' Ep. cbn [cached_keys] in Ec. injection Ec as <-.
    cbn [pilot keys] in *.
    now rewrite <- (NoDup_map_inj Kdx.first_word _ k k' Hfirst Hk Hk' Ep). }
  destruct (cached_keys st) as [c|] eqn:Ec.
  - destruct (String.eqb (pilot c) (Kdx.first_word k)).
    + now injection Hl as _ <-.
    + destruct (decodeKeys m k) as [b'| |] eqn:Hd; cbn [bind] in Hl;
        try discriminate.
      injection Hl as _ <-. now apply Hnew.
  - destruct (decodeKeys m k) as [b'| |] eqn:Hd; cbn [bind] in Hl;
      try discriminate.
    injection Hl as _ <-. now apply Hnew.
Qed.

Lemma updTrail_steady (g : Trail.t -> Trail.t) (st : State) :
  steady m ticket st -> exists st', updTrail g st = Ok (tt, st') /\ steady m ticket st'.
Proof.
  intros (Hc & Ht & tr & Htr).
  exists {| cached_keys := cached_keys st; mutual_ticket := mutual_ticket st;
            trail := Some (g tr) |}.
  split.
  - unfold updTrail, mbind, getTrail, putTrail. now rewrite Htr.
  - split; [exact Hc|]. split; [exact Ht|]. now exists (g tr).
Qed.

Lemma loadKeys_steady (k : Kdx.t) (b : list Key.t) (st : State) :
  In k (KEY_INDEX m) ->
  decodeKeys m k = Ok b ->
  steady m ticket st ->
  exists st', loadKeys m k st = Ok (b, st') /\ steady m ticket st'.
Proof.
  intros Hk Hd (Hc & Ht & tr & Htr).
  destruct (loadKeys_decoded m k b st Hc Hk Hd) as [st' Hl].
  exists st'. split; [exact Hl|].
  unfold loadKeys in Hl.
  assert (Hnew : cacheCoherent m
                   {| cached_keys := Some {| keys := b;
                                            pilot := Kdx.first_word k |};
                      mutual_ticket := mutual_ticket st;
                      trail := trail st |}).
  { intros c Ec k' Hk' Ep. cbn [cached_keys] in Ec. injection Ec as <-.
    cbn [pilot keys] in *.
    now rewrite <- (NoDup_map_inj Kdx.first_word _ k k' Hfirst Hk Hk' Ep). }
  destruct (cached_keys st) as [c|] eqn:Ec.
  - destruct (String.eqb (pilot c) (Kdx.first_word k)).
    + injection Hl as _ <-. split; [exact Hc|]. split; [exact Ht|]. now exists tr.
    + rewrite Hd in Hl. cbn [bind] in Hl. injection Hl as <-.
      split; [exact Hnew|]. split; [exact Ht|]. now exists tr.
  - rewrite Hd in Hl. cbn [bind] in Hl. injection Hl as <-.
    split; [exact Hnew|]. split; [exact Ht|]. now exists tr.
Qed.

(** The end of a plain page: the list is cut to the expected size. *)
Lemma closing_steady (l : list Key.t) (st : State) :
  steady m ticket st ->
  exists st',
    (_ <-- updTrail (fun tr =>
             if es <? Trail.pos tr then Trail.setPos es tr else tr) ;;
     _ <-- updTrail (Trail.setCount (Z.of_nat (List.length (sliceTo l es)))) ;;
     _ <-- updTrail (fun tr =>
             Trail.setTotal (Trail.total tr + Trail.count tr) tr) ;;
     ret (sliceTo l es))%M st = Ok (firstn (Z.to_nat es) l, st')
    /\ steady m ticket st'.
Proof.
  intros H0.
  destruct (updTrail_steady
              (fun tr => if es <? Trail.pos tr then Trail.setPos es tr else tr)
              st H0) as (s1 & E1 & H1).
  destruct (updTrail_steady
              (Trail.setCount (Z.of_nat (List.length (sliceTo l es)))) s1 H1)
    as (s2 & E2 & H2).
  destruct (updTrail_steady
              (fun tr => Trail.setTotal (Trail.total tr + Trail.count tr) tr)
              s2 H2) as (s3 & E3 & H3).
  exists s3. split; [|exact H3].
  rewrite (mbind_run _ _ _ _ _ E1), (mbind_run _ _ _ _ _ E2),
    (mbind_run _ _ _ _ _ E3).
  unfold ret. now rewrite sliceTo_firstn.
Qed.

(** [appendMore] without a filter walks the blocks after the current one
    and returns the first [es] entries of what it has and what follows. *)
Lemma appendMore_run (B : list Kdx.t) :
  forall (P : list Kdx.t) (bB : list (list Key.t)) (fuel : nat)
         (acc : list Key.t) (st : State),
    KEY_INDEX m = (P ++ B)%list ->
    Forall2 (holds m) B bB ->
    (List.length B < fuel)%nat ->
    steady m ticket st ->
    exists st',
      appendMore m fuel word acc (at_ (KEY_INDEX m) (Z.of_nat (List.length P)))
        es None ticket st
      = Ok (firstn (Z.to_nat es) (acc ++ List.concat bB), st')
      /\ steady m ticket st'.
Proof.
  induction B as [|nk B IH]; intros P bB fuel acc st Eks Hd Hfuel Hst;
    (destruct fuel as [|fuel]; [simpl in Hfuel; lia|]);
    pose proof Hst as (_ & Ht & _);
    cbn [appendMore]; rewrite Ht, Z.eqb_refl; cbn [negb]; clear Ht.
  - inversion Hd; subst. cbn [List.concat]. rewrite app_nil_r.
    rewrite Eks, app_nil_r. unfold at_.
    destruct (Z.ltb_spec (Z.of_nat (List.length P)) 0); [lia|].
    rewrite Nat2Z.id.
    replace (nth_error P (List.length P)) with (@None Kdx.t)
      by (symmetry; apply nth_error_None; lia).
    now apply closing_steady.
  - destruct bB as [|b bB]; [inversion Hd|].
    apply Forall2_cons_iff in Hd. destruct Hd as [(Dk & _) Hd].
    assert (Hat : at_ (KEY_INDEX m) (Z.of_nat (List.length P)) = Some nk).
    { rewrite Eks. unfold at_.
      destruct (Z.ltb_spec (Z.of_nat (List.length P)) 0); [lia|].
      now rewrite Nat2Z.id, nth_error_app2, Nat.sub_diag by lia. }
    rewrite Hat.
    destruct (Z.ltb_spec 0 (es - Z.of_nat (List.length acc))) as [S|S].
    + assert (Hkin : In nk (KEY_INDEX m)).
      { rewrite Eks. apply in_or_app. right. now left. }
      destruct (updTrail_steady (Trail.setBlock (Kdx.index nk)) st Hst)
        as (s1 & E1 & H1).
      destruct (loadKeys_steady nk b s1 Hkin Dk H1) as (s2 & E2 & H2).
      destruct (updTrail_steady (Trail.setOffset 0) s2 H2) as (s3 & E3 & H3).
      destruct (updTrail_steady
                  (Trail.setPos
                     (Z.min (es - Z.of_nat (List.length acc))
                        (Z.of_nat (List.length b)))) s3 H3)
        as (s4 & E4 & H4).
      rewrite (mbind_run _ _ _ _ _ E1), (mbind_run _ _ _ _ _ E2),
        (mbind_run _ _ _ _ _ E3), (mbind_run _ _ _ _ _ E4).
      pose proof Hindexed as Hi. rewrite Eks in Hi.
      rewrite (indexedFrom_app _ _ _ _ Hi).
      replace (0 + Z.of_nat (List.length P) + 1)
        with (Z.of_nat (List.length (P ++ [nk])))
        by (rewrite length_app; simpl; lia).
      destruct (IH (P ++ [nk])%list bB fuel
                  (acc ++ sliceTo b (es - Z.of_nat (List.length acc)))%list s4)
        as (st' & E' & H'); [now rewrite <- app_assoc | exact Hd | | exact H4 |].
      { simpl in Hfuel. lia. }
      exists st'. split; [|exact H'].
      rewrite E'. do 2 f_equal. cbn [List.concat].
      rewrite sliceTo_firstn by lia.
      replace (Z.to_nat (es - Z.of_nat (List.length acc)))
        with (Z.to_nat es - List.length acc)%nat by lia.
      apply firstn_fill.
    + destruct (closing_steady acc st Hst) as (st' & E' & H').
      exists st'. split; [|exact H'].
      rewrite E'. do 2 f_equal.
      rewrite firstn_app.
      replace (Z.to_nat es - List.length acc)%nat with 0%nat by lia.
      now rewrite firstn_O, app_nil_r.
Qed.

End Run.

End Paging.

Lemma matchKeys_start (m : Mdict) (phrase : string) (max : option Z)
  (st : State) :
  Wildcard.prefix (Js.toLowerCase (Js.trim phrase)) = None ->
  matchKeys m (Some phrase) max false st
  = mbind (seekVanguard m (Js.trim phrase))
      (pageRest m phrase (expected max) false) st.
Proof.
  intros Hp. unfold matchKeys, pageRest, expected. rewrite Hp.
  unfold mbind at 1. unfold lift at 1. cbv beta iota zeta.
  destruct (trail st) as [tr|];
    [destruct (negb (String.eqb (Trail.phrase tr) phrase))|];
    reflexivity.
Qed.

Lemma matchKeys_resume (m : Mdict) (phrase : string) (max : option Z)
  (st : State) (tr : Trail.t) :
  Wildcard.prefix (Js.toLowerCase (Js.trim phrase)) = None ->
  trail st = Some tr ->
  Trail.phrase tr = phrase ->
  Trail.exhausted tr = false ->
  matchKeys m (Some phrase) max true st
  = mbind (followUp m) (pageRest m phrase (expected max) true) st.
Proof.
  intros Hp Htr Hph Hex. unfold matchKeys, pageRest, expected. rewrite Hp.
  unfold mbind at 1. unfold lift at 1. cbv beta iota zeta.
  rewrite Htr, Hph, String.eqb_refl, Hex. reflexivity.
Qed.

(** From its start on, a plain page is the first [es] entries of the rest
    of the block and of the blocks after it. *)
Lemma pageRest_run :
  forall (m : Mdict) (phrase : string) (es : Z) (follow : bool)
         (A : list Kdx.t) (k : Kdx.t) (B : list Kdx.t)
         (bB : list (list Key.t)) (bk : list Key.t) (idx : Z) (st : State),
    NoDup (map Kdx.first_word (KEY_INDEX m)) ->
    indexedFrom 0 (KEY_INDEX m) = true ->
    0 <= es ->
    KEY_INDEX m = (A ++ k :: B)%list ->
    Forall2 (holds m) B bB ->
    cacheCoherent m st ->
    exists st',
      pageRest m phrase es follow (k, idx, bk) st
      = Ok (firstn (Z.to_nat es) (sliceFrom bk idx ++ List.concat bB), st')
      /\ cacheCoherent m st'.
Proof.
  intros m phrase es follow A k B bB bk idx st Hfirst Hidx Hes Eks HdB Hc.
  set (l := sliceFrom bk idx).
  set (tr0 := {| Trail.phrase := phrase; Trail.block := Kdx.index k;
                 Trail.offset := idx;
                 Trail.pos := Z.of_nat (List.length l);
                 Trail.count := 0;
                 Trail.total :=
                   if follow then
                     match trail st with
                     | Some tr => Trail.total tr
                     | None => 0
                     end
                   else 0;
                 Trail.exhausted := false |}).
  set (s5 := {| cached_keys := cached_keys st;
                mutual_ticket := mutual_ticket st + 1;
                trail := Some tr0 |}).
  assert (H5 : steady m (mutual_ticket st + 1) s5).
  { split; [exact Hc|]. split; [reflexivity|]. now exists tr0. }
  destruct (Paging.appendMore_run m Hfirst Hidx (Js.trim phrase) es
              (mutual_ticket st + 1) Hes B (A ++ [k])%list bB
              (S (List.length (KEY_INDEX m))) l s5)
    as (s6 & E6 & H6); [now rewrite <- app_assoc | exact HdB | | exact H5 |].
  { rewrite Eks, length_app. simpl. lia. }
  destruct H6 as (Hc6 & Ht6 & tr6 & Htr6).
  assert (Hclose :
            exists st',
              (_ <-- (if Trail.block tr6
                         =? Z.of_nat (List.length (KEY_INDEX m)) - 1
                      then
                        match at_ (KEY_INDEX m) (Trail.block tr6) with
                        | None => throw TypeError
                        | Some k0 =>
                            if Kdx.num_entries k0
                               <=? Trail.offset tr6 + Trail.pos tr6
                            then updTrail Trail.setExhausted
                            else ret tt
                        end
                      else ret tt) ;;
               ret (firstn (Z.to_nat es) (l ++ List.concat bB)))%M s6
              = Ok (firstn (Z.to_nat es) (l ++ List.concat bB), st')
              /\ cacheCoherent m st').
  { destruct (Z.eqb_spec (Trail.block tr6)
                (Z.of_nat (List.length (KEY_INDEX m)) - 1)) as [Eb|_];
      [|eexists; split; [reflexivity | exact Hc6]].
    assert (Hin : exists k0, at_ (KEY_INDEX m) (Trail.block tr6) = Some k0).
    { rewrite Eb, Eks. unfold at_. rewrite length_app. cbn [List.length].
      destruct (Z.ltb_spec (Z.of_nat (List.length A + S (List.length B)) - 1) 0)
        as [N|_]; [lia|].
      destruct (nth_error (A ++ k :: B)
                  (Z.to_nat (Z.of_nat (List.length A + S (List.length B)) - 1)))
        as [x|] eqn:Ex; [now exists x|].
      apply nth_error_None in Ex. rewrite length_app in Ex.
      cbn [List.length] in Ex. lia. }
    destruct Hin as [k0 Hk0]. rewrite Hk0.
    destruct (Kdx.num_entries k0 <=? Trail.offset tr6 + Trail.pos tr6);
      [|eexists; split; [reflexivity | exact Hc6]].
    unfold mbind, updTrail, mbind, getTrail, putTrail. rewrite Htr6.
    eexists. split; [reflexivity | exact Hc6]. }
  destruct Hclose as (st' & Hclose & Hc').
  exists st'. split; [|exact Hc'].
  unfold pageRest. fold l.
  unfold mbind at 1. unfold mbind at 1. unfold putTrail at 1.
  unfold mbind at 1. unfold ret at 1.
  unfold mbind at 1. unfold bumpTicket at 1.
  pose proof Hidx as Hi. rewrite Eks in Hi.
  replace (Kdx.index k + 1) with (Z.of_nat (List.length (A ++ [k])))
    by (rewrite (indexedFrom_app _ _ _ _ Hi), length_app; simpl; lia).
  fold tr0. cbn [cached_keys mutual_ticket trail]. fold s5.
  rewrite (Paging.mbind_run _ _ _ _ _ E6).
  unfold mbind at 1. unfold getTrail at 1. rewrite Htr6.
  exact Hclose.
Qed.

(** X25.  The first page of a plain phrase.  On a well-formed .mdx
    dictionary whose key blocks have pairwise different first words, and
    for a phrase without wildcards that is not followed up,
    [getWordList({word: phrase, max})] resolves to the first
    [max(max, 10)] entries of the dictionary from the lower bound of the
    phrase on, across the key blocks: the entries before the page are below
    [adaptKey(trim(phrase))], its first entry is not (or is the last entry
    of the dictionary). *)
Theorem X25_plain_page_runs_from_the_lower_bound :
  forall (m : Mdict) (f : string -> string) (bs : list (list Key.t))
         (st : State) (phrase : string) (max : option Z),
    ext (parser m) = Mdx ->
    (forall k, adaptKey m k = Ok (f k)) ->
    decodeAll m (KEY_INDEX m) = Ok bs ->
    wellFormed m f bs = true ->
    cacheCoherent m st ->
    KEY_INDEX m <> [] ->
    NoDup (map Kdx.first_word (KEY_INDEX m)) ->
    Wildcard.prefix (Js.toLowerCase (Js.trim phrase)) = None ->
    exists before e rest st',
      getWordList m
        (QObject {| q_phrase := None; q_word := Some phrase; q_max := max;
                    q_follow := false |}) None st
      = Ok (Words
              (firstn
                 (Z.to_nat
                    (Z.max (match max with Some x => x | None => 0 end) 10))
                 (e :: rest)), st')
      /\ List.concat bs = (before ++ e :: rest)%list
      /\ Forall (fun x => Js.lt (f (Key.word x)) (f (Js.trim phrase)) = true)
           before
      /\ (Js.le (f (Js.trim phrase)) (f (Key.word e)) = true \/ rest = []).
Proof.
  intros m f bs st phrase max Hext Hf Hall Hwf Hcache Hne Hfirst Hplain.
  fold (expected max).
  assert (Hes : 0 <= expected max) by (unfold expected; lia).
  set (w := Js.trim phrase) in *.
  assert (Hfix : f (f w) = f w).
  { pose proof (Hf w) as H1. pose proof (Hf (f w)) as H2.
    unfold adaptKey in H1, H2. rewrite Hext in H1, H2.
    apply Folding.adaptKey_idem in H1.
    rewrite H1 in H2. now inversion H2. }
  unfold wellFormed in Hwf.
  apply andb_prop in Hwf. destruct Hwf as [Hwf Hasc].
  apply andb_prop in Hwf. destruct Hwf as [Hidx Hlast].
  pose proof (decoded_blocks m (KEY_INDEX m) bs Hall Hlast) as Hdec.
  pose proof (ascendingBy_sorted _ _ _ Hasc) as Hsorted.
  destruct (seekVanguard_cut m f bs st w Hf Hfix Hdec Hsorted Hidx Hcache Hne)
    as (A & k & B & bA & bk & bB & L0 & e & rest & st1
        & Eks & Ebs & HdB & Hload & Hseek & Ebk & Hunder & Hreach).
  assert (Hkin : In k (KEY_INDEX m)).
  { rewrite Eks. apply in_or_app. right. now left. }
  assert (Hc1 : cacheCoherent m st1)
    by exact (Paging.loadKeys_coherent m Hfirst k bk st st1 Hkin Hcache Hload).
  destruct (pageRest_run m phrase (expected max) false A k B bB bk
              (Z.of_nat (List.length L0)) st1 Hfirst Hidx Hes Eks HdB Hc1)
    as (st' & Hpage & _).
  rewrite Ebk, sliceFrom_at in Hpage.
  exists (List.concat bA ++ L0)%list, e, (rest ++ List.concat bB)%list, st'.
  split; [|split; [|split]].
  - unfold getWordList. rewrite Hext.
    unfold mdx. cbn [q_word q_max q_follow].
    unfold mbind at 1. rewrite (matchKeys_start m phrase max st Hplain).
    fold w. rewrite (Paging.mbind_run _ _ _ _ _ Hseek).
    rewrite Ebk, Hpage. reflexivity.
  - rewrite Ebs, concat_app. cbn [List.concat].
    now rewrite Ebk, <- !app_assoc.
  - exact Hunder.
  - destruct Hreach as [Hr | [Hr HB]]; [now left|].
    right. subst rest B. inversion HdB. reflexivity.
Qed.

Lemma X25_plain_page_runs_from_the_lower_bound_witness :
  exists before e rest st',
    getWordList Demo.dict
      (QObject {| q_phrase := None; q_word := Some " apply"; q_max := Some 2;
                  q_follow := false |}) None fresh
    = Ok (Words (firstn (Z.to_nat (Z.max 2 10)) (e :: rest)), st')
    /\ List.concat
         [[Demo.key "apple" 0 (Some 6); Demo.key "apply" 6 None];
          [Demo.key "cat" 16 (Some 15); Demo.key "feline" 31 None]]
       = (before ++ e :: rest)%list
    /\ Forall (fun x => Js.lt (stripMdx (Js.toLowerCase (Key.word x)))
                          (stripMdx (Js.toLowerCase (Js.trim " apply")))
                        = true) before
    /\ (Js.le (stripMdx (Js.toLowerCase (Js.trim " apply")))
          (stripMdx (Js.toLowerCase (Key.word e))) = true
        \/ rest = []).
Proof.
  apply (X25_plain_page_runs_from_the_lower_bound Demo.dict
           (fun k => stripMdx (Js.toLowerCase k))
           [[Demo.key "apple" 0 (Some 6); Demo.key "apply" 6 None];
            [Demo.key "cat" 16 (Some 15); Demo.key "feline" 31 None]]
           fresh " apply" (Some 2)).
  - reflexivity.
  - intros k. reflexivity.
  - reflexivity.
  - reflexivity.
  - intros c Hc. discriminate Hc.
  - discriminate.
  - repeat constructor; simpl; intuition discriminate.
  - reflexivity.
Defined.

(** ** Following a page up *)

Lemma keyLoop_length (n : nat) :
  forall (sc : Scan.t) (raw : list (string * Z)),
    keyLoop n sc = Ok raw -> List.length raw = n.
Proof.
  induction n as [|n IH]; intros sc raw H; cbn [keyLoop] in H.
  - now injection H as <-.
  - destruct (Scan.readNum sc) as [[off sc1]| |]; cbn [bind] in H;
      try discriminate.
    destruct (ScanText.readText sc1) as [[w sc2]| |]; cbn [bind] in H;
      try discriminate.
    destruct (keyLoop n sc2) as [r| |] eqn:E; cbn [bind] in H;
      try discriminate.
    injection H as <-. cbn [List.length]. now rewrite (IH _ _ E).
Qed.

Lemma withSizes_length (raw : list (string * Z)) :
  List.length (withSizes raw) = List.length raw.
Proof.
  induction raw as [|[w off] raw IH]; [reflexivity|].
  cbn [withSizes List.length]. now rewrite IH.
Qed.

(** A decoded key block has [num_entries] entries. *)
Lemma decodeKeys_length (m : Mdict) (k : Kdx.t) (b : list Key.t) :
  decodeKeys m k = Ok b -> Z.of_nat (List.length b) = Kdx.num_entries k.
Proof.
  unfold decodeKeys.
  destruct (Z.ltb_spec (Kdx.num_entries k) 0) as [|Hn]; [discriminate|].
  destruct (blockAt (keyBlocks m) (Kdx.offset k)); [|discriminate].
  destruct (keyLoop _ _) as [raw| |] eqn:E; cbn [bind]; try discriminate.
  intros H. injection H as <-.
  rewrite withSizes_length, (keyLoop_length _ _ _ E). lia.
Qed.

(** A page that the rest of the block fills: what it leaves in the
    trail. *)
Lemma pageRest_inside :
  forall (m : Mdict) (phrase : string) (es : Z) (follow : bool) (k : Kdx.t)
         (idx : Z) (bk : list Key.t) (st : State),
    0 <= es ->
    es <= Z.of_nat (List.length (sliceFrom bk idx)) ->
    at_ (KEY_INDEX m) (Kdx.index k) = Some k ->
    exists st' tr',
      pageRest m phrase es follow (k, idx, bk) st
      = Ok (firstn (Z.to_nat es) (sliceFrom bk idx), st')
      /\ cached_keys st' = cached_keys st
      /\ trail st' = Some tr'
      /\ Trail.phrase tr' = phrase
      /\ Trail.block tr' = Kdx.index k
      /\ Trail.offset tr' = idx
      /\ Trail.pos tr' = es
      /\ (Trail.exhausted tr' = true ->
          Kdx.index k = Z.of_nat (List.length (KEY_INDEX m)) - 1
          /\ Kdx.num_entries k <= idx + es).
Proof.
  intros m phrase es follow k idx bk st Hes Hlen Hat.
  set (l := sliceFrom bk idx) in *.
  assert (Hcut : Z.of_nat (List.length (sliceTo l es)) = es).
  { rewrite Paging.sliceTo_firstn, length_firstn by lia. lia. }
  unfold pageRest. fold l.
  unfold mbind at 1. unfold mbind at 1. unfold putTrail at 1.
  unfold mbind at 1. unfold ret at 1.
  unfold mbind at 1. unfold bumpTicket at 1.
  cbn [cached_keys mutual_ticket trail].
  unfold mbind at 1. cbn [appendMore mutual_ticket].
  rewrite Z.eqb_refl. cbn [negb].
  assert (Hclosing :
            forall s tr,
              trail s = Some tr ->
              Trail.pos tr = Z.of_nat (List.length l) ->
              (_ <-- updTrail (fun tr =>
                       if es <? Trail.pos tr then Trail.setPos es tr else tr) ;;
               _ <-- updTrail
                       (Trail.setCount (Z.of_nat (List.length (sliceTo l es)))) ;;
               _ <-- updTrail (fun tr =>
                       Trail.setTotal (Trail.total tr + Trail.count tr) tr) ;;
               ret (sliceTo l es))%M s
              = Ok (firstn (Z.to_nat es) l,
                    {| cached_keys := cached_keys s;
                       mutual_ticket := mutual_ticket s;
                       trail :=
                         Some {| Trail.phrase := Trail.phrase tr;
                                 Trail.block := Trail.block tr;
                                 Trail.offset := Trail.offset tr;
                                 Trail.pos := es;
                                 Trail.count := es;
                                 Trail.total := Trail.total tr + es;
                                 Trail.exhausted := Trail.exhausted tr |} |})).
  { intros s tr Hs Hp.
    unfold mbind, updTrail, mbind, getTrail, putTrail, ret. rewrite Hs.
    cbn [trail cached_keys mutual_ticket].
    rewrite Paging.sliceTo_firstn by lia. do 3 f_equal.
    rewrite <- Paging.sliceTo_firstn by lia. rewrite Hcut.
    destruct (Z.ltb_spec es (Trail.pos tr)) as [C|C];
      unfold Trail.setPos, Trail.setCount, Trail.setTotal;
      cbn [Trail.phrase Trail.block Trail.offset Trail.pos Trail.count
             Trail.total Trail.exhausted];
      [reflexivity|].
    replace (Trail.pos tr) with es by lia. reflexivity. }
  set (sX := {| cached_keys := cached_keys st;
                mutual_ticket := mutual_ticket st + 1;
                trail :=
                  Some {| Trail.phrase := phrase;
                          Trail.block := Kdx.index k;
                          Trail.offset := idx;
                          Trail.pos := es;
                          Trail.count := es;
                          Trail.total :=
                            (if follow then
                               match trail st with
                               | Some tr => Trail.total tr
                               | None => 0
                               end
                             else 0) + es;
                          Trail.exhausted := false |} |}).
  assert (Hrest :
            exists st' tr',
              (tr <-- getTrail ;;
               _ <-- (if Trail.block tr
                         =? Z.of_nat (List.length (KEY_INDEX m)) - 1
                      then
                        match at_ (KEY_INDEX m) (Trail.block tr) with
                        | None => throw TypeError
                        | Some k0 =>
                            if Kdx.num_entries k0
                               <=? Trail.offset tr + Trail.pos tr
                            then updTrail Trail.setExhausted
                            else ret tt
                        end
                      else ret tt) ;;
               ret (firstn (Z.to_nat es) l))%M sX
              = Ok (firstn (Z.to_nat es) l, st')
              /\ cached_keys st' = cached_keys st
              /\ trail st' = Some tr'
              /\ Trail.phrase tr' = phrase
              /\ Trail.block tr' = Kdx.index k
              /\ Trail.offset tr' = idx
              /\ Trail.pos tr' = es
              /\ (Trail.exhausted tr' = true ->
                  Kdx.index k = Z.of_nat (List.length (KEY_INDEX m)) - 1
                  /\ Kdx.num_entries k <= idx + es)).
  { unfold mbind at 1. unfold getTrail at 1. cbn [sX trail Trail.block].
    destruct (Z.eqb_spec (Kdx.index k)
                (Z.of_nat (List.length (KEY_INDEX m)) - 1)) as [Eb|Nb].
    - rewrite Hat. cbn [Trail.offset Trail.pos].
      destruct (Z.leb_spec (Kdx.num_entries k) (idx + es)) as [C|C].
      + unfold mbind, updTrail, mbind, getTrail, putTrail, ret.
        cbn [trail cached_keys mutual_ticket].
        eexists. eexists. split; [reflexivity|].
        unfold Trail.setExhausted.
        cbn [cached_keys trail Trail.phrase Trail.block
               Trail.offset Trail.pos Trail.exhausted].
        repeat split; assumption.
      + unfold mbind, ret. eexists. eexists. split; [reflexivity|].
        cbn [cached_keys trail Trail.phrase Trail.block Trail.offset Trail.pos
               Trail.exhausted].
        repeat split; discriminate.
    - unfold mbind, ret. eexists. eexists. split; [reflexivity|].
      cbn [cached_keys trail Trail.phrase Trail.block Trail.offset Trail.pos
             Trail.exhausted].
      repeat split; discriminate. }
  set (tr0 := {| Trail.phrase := phrase; Trail.block := Kdx.index k;
                 Trail.offset := idx;
                 Trail.pos := Z.of_nat (List.length l);
                 Trail.count := 0;
                 Trail.total :=
                   if follow then
                     match trail st with
                     | Some tr => Trail.total tr
                     | None => 0
                     end
                   else 0;
                 Trail.exhausted := false |}).
  set (s0 := {| cached_keys := cached_keys st;
                mutual_ticket := mutual_ticket st + 1;
                trail := Some tr0 |}).
  pose proof (Hclosing s0 tr0 eq_refl eq_refl) as Hc0.
  destruct (at_ (KEY_INDEX m) (Kdx.index k + 1)) as [nk|];
    [destruct (Z.ltb_spec 0 (es - Z.of_nat (List.length l))) as [C|_];
     [lia|]|];
    rewrite Hc0; exact Hrest.
Qed.

Lemma followUp_run (m : Mdict) (k : Kdx.t) (bk : list Key.t) (st : State)
  (tr : Trail.t) :
  NoDup (map Kdx.first_word (KEY_INDEX m)) ->
  trail st = Some tr ->
  at_ (KEY_INDEX m) (Trail.block tr) = Some k ->
  In k (KEY_INDEX m) ->
  decodeKeys m k = Ok bk ->
  cacheCoherent m st ->
  exists st',
    followUp m st
    = Ok ((k, Z.min (Trail.offset tr + Trail.pos tr)
                (Z.of_nat (List.length bk) - 1), bk), st')
    /\ cacheCoherent m st'.
Proof.
  intros Hfirst Htr Hat Hk Hd Hc.
  destruct (loadKeys_decoded m k bk st Hc Hk Hd) as [st' Hl].
  exists st'. split.
  - unfold followUp, mbind, getTrail. rewrite Htr, Hat, Hl.
    rewrite (Steps.loadKeys_trail m k st bk st' Hl), Htr. reflexivity.
  - exact (Paging.loadKeys_coherent m Hfirst k bk st st' Hk Hc Hl).
Qed.

Lemma sliceFrom_past {A : Type} (L l : list A) (n : nat) :
  (n <= List.length l)%nat ->
  sliceFrom (L ++ l) (Z.of_nat (List.length L) + Z.of_nat n) = skipn n l.
Proof.
  intros Hn. unfold sliceFrom.
  destruct (Z.ltb_spec (Z.of_nat (List.length L) + Z.of_nat n) 0); [lia|].
  rewrite Z.min_l by (rewrite length_app; lia).
  replace (Z.to_nat (Z.of_nat (List.length L) + Z.of_nat n))
    with (List.length L + n)%nat by lia.
  rewrite skipn_app, skipn_all2 by lia.
  now replace (List.length L + n - List.length L)%nat with n by lia.
Qed.

(** X26.  Following a plain page up.  On a well-formed .mdx dictionary
    with pairwise different first words, let the lower bound of a phrase
    without wildcards fall on entry [e] of a key block, [rest] being the
    entries after it in that block.  When the first page
    ([follow] false) is filled by [e :: rest] alone, the follow-up call
    ([follow] true, same phrase) resumes at [trail.offset + trail.pos],
    clamped to the last entry of the block: if entries of the block are
    left it continues with them and with the blocks after it; if the page
    ended exactly on the end of a block that is not the last one, it
    starts by repeating the last entry of that block. *)
Theorem X26_follow_up_resumes_at_the_clamped_trail :
  forall (m : Mdict) (f : string -> string) (bs : list (list Key.t))
         (st : State) (phrase : string) (max : option Z),
    ext (parser m) = Mdx ->
    (forall k, adaptKey m k = Ok (f k)) ->
    decodeAll m (KEY_INDEX m) = Ok bs ->
    wellFormed m f bs = true ->
    cacheCoherent m st ->
    KEY_INDEX m <> [] ->
    NoDup (map Kdx.first_word (KEY_INDEX m)) ->
    Wildcard.prefix (Js.toLowerCase (Js.trim phrase)) = None ->
    exists bA pre e rest bB st1,
      bs = (bA ++ (pre ++ e :: rest) :: bB)%list
      /\ Forall (fun x => Js.lt (f (Key.word x)) (f (Js.trim phrase)) = true)
           (List.concat bA ++ pre)
      /\ (Js.le (f (Js.trim phrase)) (f (Key.word e)) = true
          \/ (rest = [] /\ bB = []))
      /\ (expected max <= Z.of_nat (List.length (e :: rest)) ->
          getWordList m
            (QObject {| q_phrase := None; q_word := Some phrase;
                        q_max := max; q_follow := false |}) None st
          = Ok (Words (firstn (Z.to_nat (expected max)) (e :: rest)), st1)
          /\ (expected max < Z.of_nat (List.length (e :: rest)) ->
              exists st2,
                getWordList m
                  (QObject {| q_phrase := None; q_word := Some phrase;
                              q_max := max; q_follow := true |}) None st1
                = Ok (Words
                        (firstn (Z.to_nat (expected max))
                           (skipn (Z.to_nat (expected max)) (e :: rest)
                            ++ List.concat bB)), st2))
          /\ (expected max = Z.of_nat (List.length (e :: rest)) ->
              bB <> [] ->
              exists st2,
                getWordList m
                  (QObject {| q_phrase := None; q_word := Some phrase;
                              q_max := max; q_follow := true |}) None st1
                = Ok (Words
                        (firstn (Z.to_nat (expected max))
                           (last (e :: rest) e :: List.concat bB)), st2))).
Proof.
  intros m f bs st phrase max Hext Hf Hall Hwf Hcache Hne Hfirst Hplain.
  set (es := expected max).
  assert (Hes : 10 <= es) by (unfold es, expected; lia).
  set (w := Js.trim phrase) in *.
  assert (Hfix : f (f w) = f w).
  { pose proof (Hf w) as H1. pose proof (Hf (f w)) as H2.
    unfold adaptKey in H1, H2. rewrite Hext in H1, H2.
    apply Folding.adaptKey_idem in H1.
    rewrite H1 in H2. now inversion H2. }
  unfold wellFormed in Hwf.
  apply andb_prop in Hwf. destruct Hwf as [Hwf Hasc].
  apply andb_prop in Hwf. destruct Hwf as [Hidx Hlast].
  pose proof (decoded_blocks m (KEY_INDEX m) bs Hall Hlast) as Hdec.
  pose proof (ascendingBy_sorted _ _ _ Hasc) as Hsorted.
  destruct (seekVanguard_cut m f bs st w Hf Hfix Hdec Hsorted Hidx Hcache Hne)
    as (A & k & B & bA & bk & bB & L0 & e & rest & st0
        & Eks & Ebs & HdB & Hload & Hseek & Ebk & Hunder & Hreach).
  assert (Hkin : In k (KEY_INDEX m)).
  { rewrite Eks. apply in_or_app. right. now left. }
  assert (Hc0 : cacheCoherent m st0)
    by exact (Paging.loadKeys_coherent m Hfirst k bk st st0 Hkin Hcache Hload).
  assert (Hik : Kdx.index k = Z.of_nat (List.length A)).
  { pose proof Hidx as Hi. rewrite Eks in Hi.
    rewrite (indexedFrom_app _ _ _ _ Hi). lia. }
  assert (Hat : at_ (KEY_INDEX m) (Kdx.index k) = Some k).
  { rewrite Hik, Eks. unfold at_.
    destruct (Z.ltb_spec (Z.of_nat (List.length A)) 0); [lia|].
    now rewrite Nat2Z.id, nth_error_app2, Nat.sub_diag by lia. }
  assert (Dk : decodeKeys m k = Ok bk).
  { rewrite Eks, Ebs in Hdec. apply Forall2_app_inv_l in Hdec.
    destruct Hdec as (bA' & bK' & HA' & HK' & E').
    assert (La : List.length bA' = List.length bA).
    { apply Forall2_length in HA'.
      assert (Lb : List.length B = List.length bB)
        by exact (Forall2_length HdB).
      apply (f_equal (@List.length _)) in E'.
      rewrite !length_app in E'. cbn [List.length] in E'.
      destruct bK' as [|x bK']; [inversion HK'|].
      apply Forall2_length in HK'. cbn [List.length] in HK', E'. lia. }
    destruct bK' as [|x bK']; [inversion HK'|].
    apply Forall2_cons_iff in HK'. destruct HK' as [(Dx & _) _].
    assert (Ex : x = bk).
    { assert (H1 : nth_error (bA ++ bk :: bB) (List.length bA) = Some bk)
        by (now rewrite nth_error_app2, Nat.sub_diag by lia).
      rewrite E', <- La, nth_error_app2, Nat.sub_diag in H1 by lia.
      now injection H1. }
    now rewrite <- Ex. }
  assert (Hsl : sliceFrom bk (Z.of_nat (List.length L0)) = e :: rest)
    by (rewrite Ebk; apply sliceFrom_at).
  destruct (Z.le_gt_cases es (Z.of_nat (List.length (e :: rest)))) as [Hin|Hout].
  2: { exists bA, L0, e, rest, bB, st.
       split; [now rewrite <- Ebk|]. split; [exact Hunder|].
       split.
       - destruct Hreach as [Hr | [Hr HB]]; [now left|].
         right. split; [exact Hr|]. subst B. now inversion HdB.
       - intros H. lia. }
  destruct (pageRest_inside m phrase es false k (Z.of_nat (List.length L0)) bk
              st0 ltac:(lia) ltac:(rewrite Hsl; exact Hin) Hat)
    as (stA & trA & Hpage & HcA & HtA & Hph & Hbl & Hof & Hpo & Hex).
  rewrite Hsl in Hpage.
  assert (HcohA : cacheCoherent m stA).
  { intros c Ec. rewrite HcA in Ec. exact (Hc0 c Ec). }
  exists bA, L0, e, rest, bB, stA.
  split; [now rewrite <- Ebk|]. split; [exact Hunder|].
  split.
  { destruct Hreach as [Hr | [Hr HB]]; [now left|].
    right. split; [exact Hr|]. subst B. now inversion HdB. }
  intros _. split; [|split].
  - unfold getWordList. rewrite Hext.
    unfold mdx. cbn [q_word q_max q_follow].
    unfold mbind at 1. rewrite (matchKeys_start m phrase max st Hplain).
    fold w. fold es. rewrite (Paging.mbind_run _ _ _ _ _ Hseek).
    rewrite Hpage. reflexivity.
  - intros Hlt.
    assert (Hnot : Trail.exhausted trA = false).
    { destruct (Trail.exhausted trA); [|reflexivity].
      destruct (Hex eq_refl) as [_ Hn].
      pose proof (decodeKeys_length m k bk Dk) as Hl.
      rewrite Ebk, length_app in Hl. lia. }
    rewrite <- Hbl in Hat.
    destruct (followUp_run m k bk stA trA Hfirst HtA Hat Hkin Dk HcohA)
      as (stB & Hfollow & HcohB).
    destruct (pageRest_run m phrase es true A k B bB bk
                (Z.min (Trail.offset trA + Trail.pos trA)
                   (Z.of_nat (List.length bk) - 1)) stB Hfirst Hidx
                ltac:(lia) Eks HdB HcohB)
      as (st2 & Hpage2 & _).
    exists st2.
    unfold getWordList. rewrite Hext.
    unfold mdx. cbn [q_word q_max q_follow].
    unfold mbind at 1.
    rewrite (matchKeys_resume m phrase max stA trA Hplain HtA Hph Hnot).
    assert (Hs2 : sliceFrom bk
                    (Z.min (Trail.offset trA + Trail.pos trA)
                       (Z.of_nat (List.length bk) - 1))
                  = skipn (Z.to_nat es) (e :: rest)).
    { rewrite Hof, Hpo.
      rewrite Z.min_l by (rewrite Ebk, length_app; lia).
      rewrite Ebk.
      replace es with (Z.of_nat (Z.to_nat es)) at 1 by lia.
      apply sliceFrom_past. lia. }
    rewrite Hs2 in Hpage2.
    fold es. rewrite (Paging.mbind_run _ _ _ _ _ Hfollow), Hpage2.
    reflexivity.
  - intros Heq HbB.
    assert (HB : B <> []).
    { intros ->. inversion HdB. congruence. }
    assert (Hnot : Trail.exhausted trA = false).
    { destruct (Trail.exhausted trA); [|reflexivity].
      destruct (Hex eq_refl) as [Hn _].
      rewrite Hik, Eks, length_app in Hn. cbn [List.length] in Hn.
      destruct B; [contradiction | cbn [List.length] in Hn; lia]. }
    rewrite <- Hbl in Hat.
    destruct (followUp_run m k bk stA trA Hfirst HtA Hat Hkin Dk HcohA)
      as (stB & Hfollow & HcohB).
    destruct (pageRest_run m phrase es true A k B bB bk
                (Z.min (Trail.offset trA + Trail.pos trA)
                   (Z.of_nat (List.length bk) - 1)) stB Hfirst Hidx
                ltac:(lia) Eks HdB HcohB)
      as (st2 & Hpage2 & _).
    exists st2.
    unfold getWordList. rewrite Hext.
    unfold mdx. cbn [q_word q_max q_follow].
    unfold mbind at 1.
    rewrite (matchKeys_resume m phrase max stA trA Hplain HtA Hph Hnot).
    assert (Hs2 : sliceFrom bk
                    (Z.min (Trail.offset trA + Trail.pos trA)
                       (Z.of_nat (List.length bk) - 1))
                  = [last (e :: rest) e]).
    { rewrite Hof, Hpo.
      rewrite Z.min_r by (rewrite Ebk, length_app; lia).
      assert (El : (e :: rest)
                   = (removelast (e :: rest) ++ [last (e :: rest) e])%list)
        by (apply app_removelast_last; discriminate).
      assert (Ebk' : bk = ((L0 ++ removelast (e :: rest))
                           ++ last (e :: rest) e :: [])%list).
      { rewrite Ebk. rewrite El at 1. now rewrite app_assoc. }
      rewrite Ebk'.
      replace (Z.of_nat (List.length ((L0 ++ removelast (e :: rest))
                                      ++ [last (e :: rest) e])) - 1)
        with (Z.of_nat (List.length (L0 ++ removelast (e :: rest))))
        by (rewrite (length_app (L0 ++ _)); simpl; lia).
      apply sliceFrom_at. }
    rewrite Hs2 in Hpage2.
    fold es. rewrite (Paging.mbind_run _ _ _ _ _ Hfollow), Hpage2.
    reflexivity.
Qed.

Lemma X26_follow_up_resumes_at_the_clamped_trail_witness :
  exists bA pre e rest bB st1,
    Samples.lettersKeys = (bA ++ (pre ++ e :: rest) :: bB)%list
    /\ Forall (fun x => Js.lt (stripMdx (Js.toLowerCase (Key.word x)))
                          (stripMdx (Js.toLowerCase (Js.trim "c"))) = true)
         (List.concat bA ++ pre)
    /\ (Js.le (stripMdx (Js.toLowerCase (Js.trim "c")))
          (stripMdx (Js.toLowerCase (Key.word e))) = true
        \/ (rest = [] /\ bB = []))
    /\ (expected None <= Z.of_nat (List.length (e :: rest)) ->
        getWordList Samples.letters
          (QObject {| q_phrase := None; q_word := Some "c"; q_max := None;
                      q_follow := false |}) None fresh
        = Ok (Words (firstn (Z.to_nat (expected None)) (e :: rest)), st1)
        /\ (expected None < Z.of_nat (List.length (e :: rest)) ->
            exists st2,
              getWordList Samples.letters
                (QObject {| q_phrase := None; q_word := Some "c";
                            q_max := None; q_follow := true |}) None st1
              = Ok (Words (firstn (Z.to_nat (expected None))
                             (skipn (Z.to_nat (expected None)) (e :: rest)
                              ++ List.concat bB)), st2))
        /\ (expected None = Z.of_nat (List.length (e :: rest)) ->
            bB <> [] ->
            exists st2,
              getWordList Samples.letters
                (QObject {| q_phrase := None; q_word := Some "c";
                            q_max := None; q_follow := true |}) None st1
              = Ok (Words (firstn (Z.to_nat (expected None))
                             (last (e :: rest) e :: List.concat bB)), st2))).
Proof.
  apply (X26_follow_up_resumes_at_the_clamped_trail Samples.letters
           (fun k => stripMdx (Js.toLowerCase k)) Samples.lettersKeys
           fresh "c" None).
  - reflexivity.
  - intros k. reflexivity.
  - reflexivity.
  - reflexivity.
  - intros c Hc. discriminate Hc.
  - discriminate.
  - repeat constructor; simpl; intuition discriminate.
  - reflexivity.
Defined.

(** On the sample of fourteen letters: the page of ["c"] ends on the end of
    the first key block, and the page that follows it starts with the last
    entry of that page again. *)
Example letters_follow_up_repeats_an_entry :
  exists st1 st2,
    getWordList Samples.letters (Samples.page "c" false) None fresh
    = Ok (Words (skipn 2 (nth 0 Samples.lettersKeys [])), st1)
    /\ getWordList Samples.letters (Samples.page "c" true) None st1
       = Ok (Words (Demo.key "l" 22 None :: nth 1 Samples.lettersKeys []),
             st2).
Proof.
  eexists. eexists. split; lazy; reflexivity.
Qed.

(** ** The end of the dictionary *)

Module Ending.

Lemma updTrail_run (g : Trail.t -> Trail.t) (st : State) (tr : Trail.t) :
  trail st = Some tr ->
  updTrail g st
  = Ok (tt, {| cached_keys := cached_keys st;
               mutual_ticket := mutual_ticket st;
               trail := Some (g tr) |}).
Proof.
  intros H. unfold updTrail, mbind, getTrail, putTrail. now rewrite H.
Qed.

Lemma at_after {A : Type} (P : list A) (k : A) (B : list A) :
  at_ (P ++ k :: B) (Z.of_nat (List.length P) + 1) = nth_error B 0.
Proof.
  unfold at_.
  destruct (Z.ltb_spec (Z.of_nat (List.length P) + 1) 0); [lia|].
  replace (Z.to_nat (Z.of_nat (List.length P) + 1))
    with (List.length P + 1)%nat by lia.
  rewrite nth_error_app2 by lia.
  now replace (List.length P + 1 - List.length P)%nat with 1%nat by lia.
Qed.

Section Run.

Variable m : Mdict.
Hypothesis Hfirst : NoDup (map Kdx.first_word (KEY_INDEX m)).
Hypothesis Hindexed : indexedFrom 0 (KEY_INDEX m) = true.
Variables (word : string) (es ticket : Z).

(** [appendMore] without a filter, when the page has room for all that is
    left: it visits every block after the current one and leaves the trail
    on the last block of the index, past its last entry. *)
Lemma appendMore_all (B : list Kdx.t) :
  forall (P : list Kdx.t) (kc : Kdx.t) (bB : list (list Key.t)) (fuel : nat)
         (acc : list Key.t) (st : State) (tr : Trail.t),
    KEY_INDEX m = (P ++ kc :: B)%list ->
    Forall2 (holds m) B bB ->
    (List.length B < fuel)%nat ->
    cacheCoherent m st ->
    mutual_ticket st = ticket ->
    trail st = Some tr ->
    Z.of_nat (List.length (acc ++ List.concat bB)) <= es ->
    Trail.pos tr <= es ->
    Trail.block tr = Kdx.index kc ->
    Trail.offset tr + Trail.pos tr = Kdx.num_entries kc ->
    exists st' tr' kl,
      appendMore m fuel word acc (at_ (KEY_INDEX m) (Kdx.index kc + 1))
        es None ticket st
      = Ok ((acc ++ List.concat bB)%list, st')
      /\ cacheCoherent m st'
      /\ trail st' = Some tr'
      /\ Trail.phrase tr' = Trail.phrase tr
      /\ Trail.exhausted tr' = Trail.exhausted tr
      /\ Trail.block tr' = Z.of_nat (List.length (KEY_INDEX m)) - 1
      /\ at_ (KEY_INDEX m) (Trail.block tr') = Some kl
      /\ Trail.offset tr' + Trail.pos tr' = Kdx.num_entries kl.
Proof.
  induction B as [|nk B IH];
    intros P kc bB fuel acc st tr Eks Hd Hfuel Hc Ht Htr Hlen Hpos Hbl Hsum;
    (destruct fuel as [|fuel]; [simpl in Hfuel; lia|]);
    pose proof Hindexed as Hi; rewrite Eks in Hi;
    pose proof (indexedFrom_app _ _ _ _ Hi) as Ekc;
    cbn [appendMore]; rewrite Ht, Z.eqb_refl; cbn [negb];
    rewrite Ekc, Eks, Z.add_0_l, at_after; cbn [nth_error].
  - inversion Hd; subst bB. cbn [List.concat] in *. rewrite app_nil_r in *.
    unfold mbind, updTrail, mbind, getTrail, putTrail, ret.
    rewrite Htr. cbn [trail cached_keys mutual_ticket].
    destruct (Z.ltb_spec es (Trail.pos tr)) as [N|_]; [lia|].
    rewrite Paging.sliceTo_firstn, firstn_all2 by lia.
    eexists _, _, kc. split; [reflexivity|].
    split; [exact Hc|]. split; [reflexivity|].
    unfold Trail.setTotal, Trail.setCount.
    cbn [Trail.phrase Trail.exhausted Trail.block Trail.offset Trail.pos].
    split; [reflexivity|]. split; [reflexivity|].
    split; [rewrite Hbl, Ekc, length_app; cbn [List.length]; lia|].
    split; [|exact Hsum].
    rewrite Hbl, Ekc, Z.add_0_l. unfold at_.
    destruct (Z.ltb_spec (Z.of_nat (List.length P)) 0); [lia|].
    now rewrite Nat2Z.id, nth_error_app2, Nat.sub_diag by lia.
  - destruct bB as [|b bB]; [inversion Hd|].
    apply Forall2_cons_iff in Hd. destruct Hd as [(Dk & b0 & z & Eb & _) Hd].
    cbn [List.concat] in Hlen. rewrite !length_app in Hlen.
    assert (Lb : (0 < List.length b)%nat)
      by (rewrite Eb, length_app; simpl; lia).
    destruct (Z.ltb_spec 0 (es - Z.of_nat (List.length acc))) as [_|N];
      [|lia].
    assert (Hkin : In nk (KEY_INDEX m)).
    { rewrite Eks. apply in_or_app. right. right. now left. }
    set (s1 := {| cached_keys := cached_keys st;
                  mutual_ticket := mutual_ticket st;
                  trail := Some (Trail.setBlock (Kdx.index nk) tr) |}).
    rewrite (Paging.mbind_run _ _ _ _ _ (updTrail_run _ st tr Htr)).
    fold s1.
    destruct (loadKeys_decoded m nk b s1 Hc Hkin Dk) as [s2 E2].
    pose proof (Paging.loadKeys_coherent m Hfirst nk b s1 s2 Hkin Hc E2)
      as Hc2.
    pose proof (Steps.loadKeys_trail m nk s1 b s2 E2) as Ht2.
    assert (Hm2 : mutual_ticket s2 = ticket).
    { destruct (Paging.loadKeys_steady m Hfirst ticket nk b s1 Hkin Dk)
        as (s2' & E2' & _ & Hm & _).
      - split; [exact Hc|]. split; [exact Ht|]. now eexists.
      - rewrite E2 in E2'. now injection E2' as <-. }
    rewrite (Paging.mbind_run _ _ _ _ _ E2).
    erewrite Paging.mbind_run by (apply updTrail_run; exact Ht2).
    erewrite Paging.mbind_run by (apply updTrail_run; reflexivity).
    cbn [cached_keys mutual_ticket].
    rewrite Z.min_r by lia.
    rewrite Paging.sliceTo_firstn, firstn_all2 by lia.
    set (tr4 := Trail.setPos (Z.of_nat (List.length b))
                  (Trail.setOffset 0 (Trail.setBlock (Kdx.index nk) tr))).
    set (s4 := {| cached_keys := cached_keys s2;
                  mutual_ticket := mutual_ticket s2; trail := Some tr4 |}).
    destruct (IH (P ++ [kc])%list nk bB fuel (acc ++ b)%list s4 tr4)
      as (st' & tr' & kl & E' & Hc' & Htr' & Hph' & Hex' & Hbl' & Hat' & Hsum').
    + now rewrite <- app_assoc.
    + exact Hd.
    + simpl in Hfuel. lia.
    + exact Hc2.
    + exact Hm2.
    + reflexivity.
    + rewrite !length_app. lia.
    + cbn. lia.
    + reflexivity.
    + cbn. rewrite (decodeKeys_length m nk b Dk). lia.
    + rewrite <- Eks. exists st', tr', kl.
      split; [rewrite E'; cbn [List.concat]; now rewrite <- app_assoc|].
      split; [exact Hc'|]. split; [exact Htr'|].
      split; [exact Hph'|]. split; [exact Hex'|].
      split; [exact Hbl'|]. split; [exact Hat' | exact Hsum'].
Qed.

End Run.

End Ending.

(** A plain page with room for all that is left of the dictionary returns
    it and marks the trail exhausted. *)
Lemma pageRest_all :
  forall (m : Mdict) (phrase : string) (es : Z) (follow : bool)
         (A : list Kdx.t) (k : Kdx.t) (B : list Kdx.t)
         (bB : list (list Key.t)) (L0 : list Key.t) (e : Key.t)
         (rest : list Key.t) (st : State),
    NoDup (map Kdx.first_word (KEY_INDEX m)) ->
    indexedFrom 0 (KEY_INDEX m) = true ->
    KEY_INDEX m = (A ++ k :: B)%list ->
    Forall2 (holds m) B bB ->
    decodeKeys m k = Ok (L0 ++ e :: rest)%list ->
    cacheCoherent m st ->
    Z.of_nat (List.length ((e :: rest) ++ List.concat bB)) <= es ->
    exists st' tr',
      pageRest m phrase es follow
        (k, Z.of_nat (List.length L0), (L0 ++ e :: rest)%list) st
      = Ok (((e :: rest) ++ List.concat bB)%list, st')
      /\ trail st' = Some tr'
      /\ Trail.phrase tr' = phrase
      /\ Trail.exhausted tr' = true.
Proof.
  intros m phrase es follow A k B bB L0 e rest st Hfirst Hidx Eks HdB Dk Hc
    Hlen.
  pose (l := e :: rest).
  set (tr0 := {| Trail.phrase := phrase; Trail.block := Kdx.index k;
                 Trail.offset := Z.of_nat (List.length L0);
                 Trail.pos := Z.of_nat (List.length l);
                 Trail.count := 0;
                 Trail.total :=
                   if follow then
                     match trail st with
                     | Some tr => Trail.total tr
                     | None => 0
                     end
                   else 0;
                 Trail.exhausted := false |}).
  set (s5 := {| cached_keys := cached_keys st;
                mutual_ticket := mutual_ticket st + 1;
                trail := Some tr0 |}).
  destruct (Ending.appendMore_all m Hfirst Hidx (Js.trim phrase) es
              (mutual_ticket st + 1) B A k bB
              (S (List.length (KEY_INDEX m))) l s5 tr0)
    as (s6 & tr6 & kl & E6 & _ & Htr6 & Hph6 & Hex6 & Hbl6 & Hat6 & Hsum6).
  - exact Eks.
  - exact HdB.
  - rewrite Eks, length_app. simpl. lia.
  - exact Hc.
  - reflexivity.
  - reflexivity.
  - exact Hlen.
  - unfold tr0, l. cbn [Trail.pos]. rewrite length_app in Hlen. lia.
  - reflexivity.
  - unfold tr0, l. cbn [Trail.offset Trail.pos].
    rewrite <- (decodeKeys_length m k _ Dk), length_app. lia.
  - exists {| cached_keys := cached_keys s6;
              mutual_ticket := mutual_ticket s6;
              trail := Some (Trail.setExhausted tr6) |},
      (Trail.setExhausted tr6).
    split; [|split; [reflexivity|split; [exact Hph6 | reflexivity]]].
    unfold pageRest. rewrite sliceFrom_at. fold l.
    unfold mbind at 1. unfold mbind at 1. unfold putTrail at 1.
    unfold mbind at 1. unfold ret at 1.
    unfold mbind at 1. unfold bumpTicket at 1.
    fold tr0. cbn [cached_keys mutual_ticket trail]. fold s5.
    rewrite (Paging.mbind_run _ _ _ _ _ E6).
    unfold mbind at 1. unfold getTrail at 1. rewrite Htr6.
    rewrite Hbl6, Z.eqb_refl. rewrite <- Hbl6, Hat6.
    destruct (Z.leb_spec (Kdx.num_entries kl)
                (Trail.offset tr6 + Trail.pos tr6)) as [_|N]; [|lia].
    rewrite (Paging.mbind_run _ _ _ _ _
               (Ending.updTrail_run Trail.setExhausted s6 tr6 Htr6)).
    reflexivity.
Qed.

(** X27.  The end of the dictionary.  On a well-formed .mdx dictionary
    whose key blocks have pairwise different first words, when the page of
    a phrase without wildcards has room for every entry from the lower
    bound of the phrase to the end of the dictionary, the first call
    resolves to exactly these entries and marks the trail exhausted, and
    the follow-up call with the same phrase resolves to the empty list
    without reading anything or changing the state. *)
Theorem X27_page_reaching_the_end_is_followed_by_the_empty_page :
  forall (m : Mdict) (f : string -> string) (bs : list (list Key.t))
         (st : State) (phrase : string) (max : option Z),
    ext (parser m) = Mdx ->
    (forall k, adaptKey m k = Ok (f k)) ->
    decodeAll m (KEY_INDEX m) = Ok bs ->
    wellFormed m f bs = true ->
    cacheCoherent m st ->
    KEY_INDEX m <> [] ->
    NoDup (map Kdx.first_word (KEY_INDEX m)) ->
    Wildcard.prefix (Js.toLowerCase (Js.trim phrase)) = None ->
    exists before e rest st1,
      List.concat bs = (before ++ e :: rest)%list
      /\ Forall (fun x => Js.lt (f (Key.word x)) (f (Js.trim phrase)) = true)
           before
      /\ (Js.le (f (Js.trim phrase)) (f (Key.word e)) = true \/ rest = [])
      /\ (Z.of_nat (List.length (e :: rest)) <= expected max ->
          getWordList m
            (QObject {| q_phrase := None; q_word := Some phrase;
                        q_max := max; q_follow := false |}) None st
          = Ok (Words (e :: rest), st1)
          /\ getWordList m
               (QObject {| q_phrase := None; q_word := Some phrase;
                           q_max := max; q_follow := true |}) None st1
             = Ok (Words [], st1)).
Proof.
  intros m f bs st phrase max Hext Hf Hall Hwf Hcache Hne Hfirst Hplain.
  set (es := expected max).
  set (w := Js.trim phrase) in *.
  assert (Hfix : f (f w) = f w).
  { pose proof (Hf w) as H1. pose proof (Hf (f w)) as H2.
    unfold adaptKey in H1, H2. rewrite Hext in H1, H2.
    apply Folding.adaptKey_idem in H1.
    rewrite H1 in H2. now inversion H2. }
  unfold wellFormed in Hwf.
  apply andb_prop in Hwf. destruct Hwf as [Hwf Hasc].
  apply andb_prop in Hwf. destruct Hwf as [Hidx Hlast].
  pose proof (decoded_blocks m (KEY_INDEX m) bs Hall Hlast) as Hdec.
  pose proof (ascendingBy_sorted _ _ _ Hasc) as Hsorted.
  destruct (seekVanguard_cut m f bs st w Hf Hfix Hdec Hsorted Hidx Hcache Hne)
    as (A & k & B & bA & bk & bB & L0 & e & rest & st0
        & Eks & Ebs & HdB & Hload & Hseek & Ebk & Hunder & Hreach).
  assert (Hkin : In k (KEY_INDEX m)).
  { rewrite Eks. apply in_or_app. right. now left. }
  assert (Hc0 : cacheCoherent m st0)
    by exact (Paging.loadKeys_coherent m Hfirst k bk st st0 Hkin Hcache Hload).
  assert (Dk : decodeKeys m k = Ok bk).
  { rewrite Eks, Ebs in Hdec. apply Forall2_app_inv_l in Hdec.
    destruct Hdec as (bA' & bK' & HA' & HK' & E').
    assert (La : List.length bA' = List.length bA).
    { apply Forall2_length in HA'.
      assert (Lb : List.length B = List.length bB)
        by exact (Forall2_length HdB).
      apply (f_equal (@List.length _)) in E'.
      rewrite !length_app in E'. cbn [List.length] in E'.
      destruct bK' as [|x bK']; [inversion HK'|].
      apply Forall2_length in HK'. cbn [List.length] in HK', E'. lia. }
    destruct bK' as [|x bK']; [inversion HK'|].
    apply Forall2_cons_iff in HK'. destruct HK' as [(Dx & _) _].
    assert (Ex : x = bk).
    { assert (H1 : nth_error (bA ++ bk :: bB) (List.length bA) = Some bk)
        by (now rewrite nth_error_app2, Nat.sub_diag by lia).
      rewrite E', <- La, nth_error_app2, Nat.sub_diag in H1 by lia.
      now injection H1. }
    now rewrite <- Ex. }
  destruct (Z.le_gt_cases
              (Z.of_nat (List.length ((e :: rest) ++ List.concat bB))) es)
    as [Hin|Hout].
  2: { exists (List.concat bA ++ L0)%list, e, (rest ++ List.concat bB)%list, st.
       split; [rewrite Ebs, concat_app; cbn [List.concat];
               now rewrite Ebk, <- !app_assoc|].
       split; [exact Hunder|]. split.
       - destruct Hreach as [Hr | [Hr HB]]; [now left|].
         right. subst rest B. inversion HdB. reflexivity.
       - intros H. cbn [app] in Hout. lia. }
  rewrite Ebk in Dk.
  destruct (pageRest_all m phrase es false A k B bB L0 e rest st0 Hfirst Hidx
              Eks HdB Dk Hc0 Hin)
    as (st1 & tr1 & Hpage & Htr1 & Hph1 & Hex1).
  exists (List.concat bA ++ L0)%list, e, (rest ++ List.concat bB)%list, st1.
  split; [rewrite Ebs, concat_app; cbn [List.concat];
          now rewrite Ebk, <- !app_assoc|].
  split; [exact Hunder|]. split.
  { destruct Hreach as [Hr | [Hr HB]]; [now left|].
    right. subst rest B. inversion HdB. reflexivity. }
  intros _. split.
  - unfold getWordList. rewrite Hext.
    unfold mdx. cbn [q_word q_max q_follow].
    unfold mbind at 1. rewrite (matchKeys_start m phrase max st Hplain).
    fold w. fold es. rewrite (Paging.mbind_run _ _ _ _ _ Hseek).
    rewrite Ebk, Hpage. reflexivity.
  - unfold getWordList. rewrite Hext.
    unfold mdx. cbn [q_word q_max q_follow].
    unfold mbind at 1. unfold matchKeys. fold w. rewrite Hplain.
    unfold mbind at 1. unfold lift at 1. cbv beta iota zeta.
    rewrite Htr1, Hph1, String.eqb_refl, Hex1. reflexivity.
Qed.

Lemma X27_page_reaching_the_end_is_followed_by_the_empty_page_witness :
  exists before e rest st1,
    List.concat Samples.lettersKeys = (before ++ e :: rest)%list
    /\ Forall (fun x => Js.lt (stripMdx (Js.toLowerCase (Key.word x)))
                          (stripMdx (Js.toLowerCase (Js.trim "e"))) = true)
         before
    /\ (Js.le (stripMdx (Js.toLowerCase (Js.trim "e")))
          (stripMdx (Js.toLowerCase (Key.word e))) = true
        \/ rest = [])
    /\ (Z.of_nat (List.length (e :: rest)) <= expected None ->
        getWordList Samples.letters
          (QObject {| q_phrase := None; q_word := Some "e"; q_max := None;
                      q_follow := false |}) None fresh
        = Ok (Words (e :: rest), st1)
        /\ getWordList Samples.letters
             (QObject {| q_phrase := None; q_word := Some "e"; q_max := None;
                         q_follow := true |}) None st1
           = Ok (Words [], st1)).
Proof.
  apply (X27_page_reaching_the_end_is_followed_by_the_empty_page
           Samples.letters (fun k => stripMdx (Js.toLowerCase k))
           Samples.lettersKeys fresh "e" None).
  - reflexivity.
  - intros k. reflexivity.
  - reflexivity.
  - reflexivity.
  - intros c Hc. discriminate Hc.
  - discriminate.
  - repeat constructor; simpl; intuition discriminate.
  - reflexivity.
Defined.
